(** * shAIyar: the block-processing pipeline

    A shallow embedding of the Python sources
      - [text_processor.py]         (class [TextProcessor])
      - [src/docx_reader.py]        (class [DocxReader])
      - [src/llm_interface.py]      (classes [LLMInterface], [LLMFactory])
      - [src/config.py]             (class [Config])
      - [src/shaiyar_processor.py]  (class [ShAIyarProcessor])
      - [src/main.py]               (functions [setup_logging], [main])
      - [output_writer.py]          (class [OutputWriter])
    and the properties of the specification that were checked against them. *)

From Stdlib Require Import Ascii String DecimalString.
From Stdlib Require Import List ZArith NArith QArith Lia Bool.
Import ListNotations.

Close Scope Q_scope.

(* ===================================================================== *)
(** * Python strings                                                      *)
(* ===================================================================== *)

(** A Python [str] is a sequence of Unicode code points. *)
Definition str : Type := list N.

(** An ASCII literal of the source, as a [str]. *)
Definition lit (s : String.string) : str :=
  map Ascii.N_of_ascii (String.list_ascii_of_string s).

Arguments lit s%_string.

Definition LF : N := 10.
Definition SPACE : N := 32.

Definition str_eq_dec : forall a b : str, {a = b} + {a <> b} :=
  list_eq_dec N.eq_dec.

Definition str_eqb (a b : str) : bool := if str_eq_dec a b then true else false.

(** Truth value of a string: [if text:] holds for a non-empty string. *)
Definition truthy (s : str) : bool :=
  match s with [] => false | _ :: _ => true end.

(** CPython's [Py_UNICODE_ISSPACE]: the one whitespace test behind
    [str.strip()], [str.split()], [str.isspace()] and the [\s] class of
    [re] on [str] patterns. *)
Definition Py_UNICODE_ISSPACE (c : N) : bool :=
  ((9 <=? c) && (c <=? 13)           (* \t \n \v \f \r *)
   || (28 <=? c) && (c <=? 31)       (* FS GS RS US *)
   || (c =? 32)                      (* space *)
   || (c =? 133)                     (* U+0085 *)
   || (c =? 160)                     (* U+00A0 *)
   || (c =? 5760)                    (* U+1680 *)
   || (8192 <=? c) && (c <=? 8202)   (* U+2000 .. U+200A *)
   || (c =? 8232) || (c =? 8233)     (* U+2028 U+2029 *)
   || (c =? 8239)                    (* U+202F *)
   || (c =? 8287)                    (* U+205F *)
   || (c =? 12288))%N.               (* U+3000 *)

Abbreviation isspace := Py_UNICODE_ISSPACE.

(** [s.lstrip()], [s.rstrip()], [s.strip()]. *)
Fixpoint lstrip (s : str) : str :=
  match s with
  | [] => []
  | c :: r => if isspace c then lstrip r else s
  end.

Definition rstrip (s : str) : str := rev (lstrip (rev s)).

Definition strip (s : str) : str := rstrip (lstrip s).

(** [s.split()]: the maximal runs of non-whitespace characters.  [cur] is
    the word being read. *)
Fixpoint split_from (cur : str) (s : str) : list str :=
  match s with
  | [] => match cur with [] => [] | _ => [cur] end
  | c :: r =>
      if isspace c
      then match cur with
           | [] => split_from [] r
           | _ => cur :: split_from [] r
           end
      else split_from (cur ++ [c]) r
  end.

Definition split (s : str) : list str := split_from [] s.

(** [s.split(sep)] for a one-character separator: the pieces between the
    occurrences of [sep], empty pieces kept. *)
Fixpoint split_on_from (sep : N) (cur : str) (s : str) : list str :=
  match s with
  | [] => [cur]
  | c :: r =>
      if (c =? sep)%N
      then cur :: split_on_from sep [] r
      else split_on_from sep (cur ++ [c]) r
  end.

Definition split_on (sep : N) (s : str) : list str := split_on_from sep [] s.

(** [sep.join(parts)]. *)
Fixpoint join (sep : str) (parts : list str) : str :=
  match parts with
  | [] => []
  | [p] => p
  | p :: rest => p ++ sep ++ join sep rest
  end.

(** [re.sub(r'\s+', ' ', s)]: scanning from the left, every maximal run of
    whitespace is one match of the greedy [\s+] and is replaced by one
    space.  [in_run] tells that the character before belongs to the match
    being replaced. *)
Fixpoint re_sub_ws_from (in_run : bool) (s : str) : str :=
  match s with
  | [] => []
  | c :: r =>
      if isspace c
      then if in_run then re_sub_ws_from true r
           else SPACE :: re_sub_ws_from true r
      else c :: re_sub_ws_from false r
  end.

Definition re_sub_ws (s : str) : str := re_sub_ws_from false s.

(** The string is whitespace only; the string has no whitespace. *)
Definition all_space (s : str) : bool := forallb isspace s.

Definition no_space (s : str) : bool := forallb (fun c => negb (isspace c)) s.

(** A word: what [split] returns. *)
Definition word (w : str) : Prop := w <> [] /\ no_space w = true.

(** The characters of a string that are not whitespace, in order. *)
Definition nonspace_chars (s : str) : str :=
  filter (fun c => negb (isspace c)) s.

(** The sizes [len(word) + 1] of the words of a chunk, added up. *)
Definition size_of (ws : list str) : Z :=
  fold_right (fun w n => (Z.of_nat (length w) + 1 + n)%Z) 0%Z ws.

(** The size kept with the current chunk is that of its words, and it is
    within the chunk size unless the chunk is one word. *)
Definition chunk_ok (cs : Z) (cur : list str) (sz : Z) : Prop :=
  sz = size_of cur /\ ((sz <= cs)%Z \/ (length cur <= 1)%nat).

(** Truth value of a list: [if current_chunk:] holds for a non-empty list. *)
Definition truthy_list {A} (l : list A) : bool :=
  match l with [] => false | _ :: _ => true end.

(** [s.lower()] on the ASCII letters; other code points are left alone.
    The source only compares lowered strings with ASCII literals whose
    letters have no non-ASCII upper-case form, so the comparison is
    decided as in Python. *)
Definition lower_char (c : N) : N :=
  if ((65 <=? c) && (c <=? 90))%N then (c + 32)%N else c.

Definition lower (s : str) : str := map lower_char s.

(** [str(n)] for an [int]. *)
Definition str_of_int (n : Z) : str := lit (DecimalString.NilZero.string_of_int (Z.to_int n)).

(* ===================================================================== *)
(** * text_processor.py                                                   *)
(* ===================================================================== *)

Module TextProcessor.

(** [TextProcessor.clean_text] *)
Definition clean_text (text : str) : str :=
  if negb (truthy text) then []
  else
    let text := re_sub_ws text in
    strip text.

(** The dictionary returned by [analyze_text_block].  The key
    ["average_words_per_line"] is absent from the dictionary of an empty
    block; its value is the quotient [len(words) / len(lines)], kept here
    as the exact fraction. *)
Record analysis : Type := {
  word_count : nat;
  character_count : nat;
  line_count : nat;
  is_empty : bool;
  average_words_per_line : option Q
}.

(** [TextProcessor.analyze_text_block] *)
Definition analyze_text_block (text_block : str) : analysis :=
  if negb (truthy text_block) then
    {| word_count := 0;
       character_count := 0;
       line_count := 0;
       is_empty := true;
       average_words_per_line := None |}
  else
    let lines := split_on LF text_block in
    let words := split text_block in
    {| word_count := length words;
       character_count := length text_block;
       line_count := length lines;
       is_empty := false;
       average_words_per_line :=
         Some (match lines with
               | [] => 0%Q
               | _ => Qmake (Z.of_nat (length words))
                            (Pos.of_nat (length lines))
               end) |}.

(** The loop of [split_text_into_chunks] over [words], with the final
    [if current_chunk: chunks.append(...)]; the result lists the chunks
    appended, in order. *)
Fixpoint chunks_from (chunk_size : Z) (current_chunk : list str)
    (current_size : Z) (words : list str) : list str :=
  match words with
  | [] =>
      match current_chunk with
      | [] => []
      | _ => [join [SPACE] current_chunk]
      end
  | word :: rest =>
      let word_size := (Z.of_nat (length word) + 1)%Z in
      if (chunk_size <? current_size + word_size)%Z
         && match current_chunk with [] => false | _ => true end
      then join [SPACE] current_chunk
           :: chunks_from chunk_size [word] word_size rest
      else chunks_from chunk_size (current_chunk ++ [word])
             (current_size + word_size) rest
  end.

(** [TextProcessor.split_text_into_chunks] *)
Definition split_text_into_chunks (text : str) (chunk_size : Z) : list str :=
  if negb (truthy text) then []
  else
    let words := split text in
    chunks_from chunk_size [] 0 words.

End TextProcessor.

(* ===================================================================== *)
(** * Exceptions, effects and the world                                   *)
(* ===================================================================== *)

(** The exceptions the sources raise or catch.  All of them are instances
    of Python's [Exception]; [OtherException] stands for any class that
    the sources do not name. *)
Inductive exn : Type :=
| FileNotFoundError (msg : str)
| ValueError (msg : str)
| ImportError (msg : str)
| Exception (msg : str)
| OtherException (msg : str).

(** [str(e)] *)
Definition str_of_exn (e : exn) : str :=
  match e with
  | FileNotFoundError m | ValueError m | ImportError m
  | Exception m | OtherException m => m
  end.

(** langchain messages *)
Inductive message : Type :=
| SystemMessage (content : str)
| HumanMessage (content : str).

(** The argument of [time.sleep]: an [int] or a [float] number of seconds. *)
Inductive seconds : Type :=
| IntSeconds (n : Z)
| FloatSeconds (q : Q).

Inductive level : Type := INFO | WARNING | ERROR.

(** The records handed to the loggers, with the values their f-strings
    interpolate. *)
Inductive log_msg : Type :=
| LLM_invocation_error (error : exn)
| Retrying_attempt (retry_count max_retries : Z)
| File_not_found_at (file_path : str)
| Error_reading_DOCX_file (e : exn)
| Error_loading_system_message (e : exn)
| Block_is_empty_after_cleaning (block_index : nat)
| Processing_block_analysis (block_index : nat) (a : TextProcessor.analysis)
| Successfully_processed_block (block_index : nat)
| Error_processing_block (block_index : nat) (e : exn)
| Starting_processing_of_blocks (total_blocks : nat)
| Processing_block_of (i_plus_1 total_blocks : nat)
| Saved_progress_for_block (i_plus_1 : nat)
| Successfully_processed_blocks (successful_blocks total_blocks : nat)
| Error_processing_document (e : exn)
| Starting_ShAIyar
| Document_processing_completed_successfully
| Document_processing_failed
| Application_error (e : exn).

(** What a run does to the outside, in the order it does it. *)
Inductive event : Type :=
| Log (lv : level) (m : log_msg)
| Sleep (s : seconds)
| ModelInvoke (messages : list message)      (* self.model.invoke(messages) *)
| Save (path : str) (paragraphs : list str). (* output_doc.save(path) done *)

(** The mutable state of a run and the trace of its effects. *)
Record World : Type := {
  retry_count : Z;      (* llm_interface.retry_count *)
  model_calls : nat;    (* calls of self.model.invoke made so far *)
  save_calls : nat;     (* calls of output_doc.save made so far *)
  trace : list event    (* oldest first *)
}.

(** The outside the run depends on. *)
Record Env : Type := {
  (** [os.path.exists] *)
  os_path_exists : str -> bool;
  (** [open(path, 'r').read()] *)
  open_read : str -> exn + str;
  (** [docx.Document(path)]: the texts of [doc.paragraphs], or the
      exception raised *)
  docx_Document : str -> exn + list str;
  (** the exception the n-th [output_doc.save] raises, if any *)
  docx_save : nat -> str -> list str -> option exn;
  (** the exception [initialize_model] raises for a provider class, if any *)
  initialize_model : str -> option exn;
  (** the n-th [self.model.invoke(messages)]: [result.content], or the
      exception raised *)
  model_invoke : nat -> list message -> exn + str
}.

Definition initial_world : World :=
  {| retry_count := 0; model_calls := 0; save_calls := 0; trace := [] |}.

(** Computations: they read and change the world and return or raise. *)
Definition M (A : Type) : Type := World -> (exn + A) * World.

Definition ret {A} (a : A) : M A := fun w => (inr a, w).

Definition raise {A} (e : exn) : M A := fun w => (inl e, w).

Definition bind {A B} (m : M A) (k : A -> M B) : M B :=
  fun w =>
    match m w with
    | (inr a, w') => k a w'
    | (inl e, w') => (inl e, w')
    end.

(** [try: m  except Exception as e: h e] *)
Definition try_except {A} (m : M A) (h : exn -> M A) : M A :=
  fun w =>
    match m w with
    | (inr a, w') => (inr a, w')
    | (inl e, w') => h e w'
    end.

Declare Scope py_scope.
Delimit Scope py_scope with py.
Bind Scope py_scope with M.

Notation "x <- m ;; k" := (bind m (fun x => k))
  (at level 61, m at next level, right associativity) : py_scope.
Notation "m ;; k" := (bind m (fun _ => k))
  (at level 61, right associativity) : py_scope.

Open Scope py_scope.

Definition emit (ev : event) : M unit :=
  fun w =>
    (inr tt, {| retry_count := retry_count w;
                model_calls := model_calls w;
                save_calls := save_calls w;
                trace := trace w ++ [ev] |}).

Definition log (lv : level) (m : log_msg) : M unit := emit (Log lv m).

(** The exception [time.sleep(s)] raises instead of sleeping: a
    [ValueError] for a negative number of seconds.  CPython also raises
    an [OverflowError] for a number of seconds whose nanoseconds do not
    fit 64 bits (2^63 ns, about 292 years); this bound is not modelled,
    and the theorems on the pause between blocks assume
    [sleep_accepts] below.  A [float] that is NaN or infinite is not a
    [seconds]. *)
Definition sleep_error (s : seconds) : option exn :=
  let negative :=
    match s with
    | IntSeconds n => (n <? 0)%Z
    | FloatSeconds q => negb (Qle_bool 0 q)
    end in
  if negative
  then Some (ValueError (lit "sleep length must be non-negative"))
  else None.

(** [time.sleep(s)] *)
Definition time_sleep (s : seconds) : M unit :=
  match sleep_error s with
  | Some e => raise e
  | None => emit (Sleep s)
  end.

(** The delays [time.sleep] takes in CPython: not negative, and at most
    9223372036 seconds, whose nanoseconds fit 64 bits. *)
Definition sleep_accepts (s : seconds) : bool :=
  match s with
  | IntSeconds n => ((0 <=? n) && (n <=? 9223372036))%Z
  | FloatSeconds q => Qle_bool 0 q && Qle_bool q (9223372036 # 1)
  end.

Definition get_retry_count : M Z := fun w => (inr (retry_count w), w).

Definition set_retry_count (n : Z) : M unit :=
  fun w =>
    (inr tt, {| retry_count := n;
                model_calls := model_calls w;
                save_calls := save_calls w;
                trace := trace w |}).

(** ** Observations on traces *)

(** The message lists of the remote calls of a trace, in order. *)
Definition model_invokes (t : list event) : list (list message) :=
  flat_map (fun ev => match ev with ModelInvoke ms => [ms] | _ => [] end) t.

(** The arguments of the [time.sleep] calls of a trace, in order. *)
Definition sleeps (t : list event) : list seconds :=
  flat_map (fun ev => match ev with Sleep s => [s] | _ => [] end) t.

(** The whole seconds slept in a trace: the back-off delays. *)
Definition backoff_sleeps (t : list event) : list Z :=
  flat_map (fun ev => match ev with Sleep (IntSeconds n) => [n] | _ => [] end) t.

(** The documents saved in a trace, in order. *)
Definition saves (t : list event) : list (list str) :=
  flat_map (fun ev => match ev with Save _ ps => [ps] | _ => [] end) t.

Definition sum_Z (l : list Z) : Z := fold_right Z.add 0%Z l.

(** The world after further events. *)
Definition add_events (w : World) (t : list event) : World :=
  {| retry_count := retry_count w;
     model_calls := model_calls w;
     save_calls := save_calls w;
     trace := trace w ++ t |}.

(** An event without the analysis it may carry. *)
Definition forget_analysis (ev : event) : event :=
  match ev with
  | Log lv (Processing_block_analysis i _) =>
      Log lv (Processing_block_analysis i (TextProcessor.analyze_text_block []))
  | _ => ev
  end.

(** Two worlds that differ at most in the analyses logged. *)
Definition same_but_analysis (w w' : World) : Prop :=
  retry_count w = retry_count w'
  /\ model_calls w = model_calls w'
  /\ save_calls w = save_calls w'
  /\ map forget_analysis (trace w) = map forget_analysis (trace w').

(** The computation only adds events that satisfy [P] to the trace. *)
Definition emits_only (P : event -> Prop) {A} (m : M A) : Prop :=
  forall w, exists t, trace (snd (m w)) = trace w ++ t /\ Forall P t.

(** The computations give the same result and differ at most in the
    analyses they log. *)
Definition same_run {A} (m m' : M A) : Prop :=
  forall w w',
    same_but_analysis w w' ->
    fst (m w) = fst (m' w') /\ same_but_analysis (snd (m w)) (snd (m' w')).

(** Truth value of an [Optional[str]]. *)
Definition truthy_opt (o : option str) : bool :=
  match o with
  | None => false
  | Some s => truthy s
  end.

(** The computation never raises, and what it returns satisfies [Q]. *)
Definition returns {A} (Q : A -> Prop) (m : M A) : Prop :=
  forall w, exists a, fst (m w) = inr a /\ Q a.

(** What the computation returns, when it does not raise, satisfies [Q]. *)
Definition returns_or_raises {A} (Q : A -> Prop) (m : M A) : Prop :=
  forall w, match fst (m w) with inr a => Q a | inl _ => True end.

(** The paragraphs of a document that holds the given blocks with the
    separator between every two of them. *)
Fixpoint with_separators (sep : str) (blocks : list str) : list str :=
  match blocks with
  | [] => []
  | [b] => [b]
  | b :: rest => b :: sep :: with_separators sep rest
  end.

(** From a world whose retry counter is 0 the computation ends with the
    counter at 0 and makes at most [k * B] calls of the model. *)
Definition costs (B k : nat) {A} (m : M A) : Prop :=
  forall w,
    retry_count w = 0%Z ->
    retry_count (snd (m w)) = 0%Z
    /\ (model_calls (snd (m w)) <= model_calls w + k * B)%nat.

(* ===================================================================== *)
(** * src/docx_reader.py                                                  *)
(* ===================================================================== *)

(** The running buffer of the reader is empty or holds a non-blank
    paragraph. *)
Definition buffer_ok (text_block : str) : Prop :=
  text_block = [] \/ all_space text_block = false.

(** [text.strip()] is the empty string: the paragraph is blank. *)
Definition is_blank (text : str) : bool := str_eqb (strip text) [].

(** The paragraphs of a document whose non-blank paragraphs [p0], [p1], ...
    are separated by one blank paragraph each: [rest] lists every further
    paragraph with the blank one before it. *)
Fixpoint single_separated (p0 : str) (rest : list (str * str)) : list str :=
  match rest with
  | [] => [p0]
  | (blank, p) :: rest' => p0 :: blank :: single_separated p rest'
  end.

Module DocxReader.

(** The loop of [read_docx_text_blocks] over [doc.paragraphs], with the
    final [if text_block: yield ...]; [text_block] is the running buffer.
    The result lists the values yielded, in order. *)
Fixpoint blocks_from (text_block : str) (paragraphs : list str) : list str :=
  match paragraphs with
  | [] => if truthy text_block then [strip text_block] else []
  | text :: rest =>
      if is_blank text
      then if truthy text_block
           then strip text_block :: blocks_from [] rest
           else blocks_from text_block rest
      else blocks_from (text_block ++ text ++ [LF]) rest
  end.

(** [DocxReader.read_docx_text_blocks], consumed to the end as [process]
    does with [list(...)]: [None] is the value yielded on an error. *)
Definition read_docx_text_blocks (env : Env) (file_path : str)
  : M (list (option str)) :=
  match docx_Document env file_path with
  | inr paragraphs => ret (map Some (blocks_from [] paragraphs))
  | inl (FileNotFoundError _) =>
      log ERROR (File_not_found_at file_path);;
      ret [None]
  | inl e =>
      log ERROR (Error_reading_DOCX_file e);;
      ret [None]
  end.

(** What the reader logs when the document cannot be opened. *)
Definition read_failure_log (file_path : str) (e : exn) : log_msg :=
  match e with
  | FileNotFoundError _ => File_not_found_at file_path
  | _ => Error_reading_DOCX_file e
  end.

(** The block a run of paragraphs that follow one another makes: their
    texts, one per line, trimmed. *)
Definition block_of (run : list str) : str := strip (join [LF] run).

(** The paragraphs of a document made of blank paragraphs [lead], then
    runs of non-blank paragraphs each followed by blank paragraphs, then a
    last run that nothing follows. *)
Definition runs_document (lead : list str)
    (runs : list (list str * list str)) (last : list str) : list str :=
  lead ++ flat_map (fun rb => fst rb ++ snd rb) runs ++ last.

(** A run of non-blank paragraphs, and what may follow it: [run] is not
    empty and has no blank paragraph, [blanks] is not empty and has blank
    paragraphs only. *)
Definition run_ok (rb : list str * list str) : bool :=
  truthy_list (fst rb) && forallb (fun p => negb (is_blank p)) (fst rb)
  && truthy_list (snd rb) && forallb is_blank (snd rb).

(** What [read_docx_text_blocks] yields for a path: it depends on the
    document only. *)
Definition yielded (env : Env) (file_path : str) : list (option str) :=
  match docx_Document env file_path with
  | inr paragraphs => map Some (blocks_from [] paragraphs)
  | inl _ => [None]
  end.

End DocxReader.

(* ===================================================================== *)
(** * src/llm_interface.py                                                *)
(* ===================================================================== *)

Module LLMInterface.

(** An interface object.  Its [retry_count] is mutable and lives in the
    world.  The four provider classes differ in [initialize_model] only:
    their [invoke] methods are the same text. *)
Record t : Type := {
  provider_class : str;
  max_retries : Z
}.

(** [LLMInterface.create_messages] *)
Definition create_messages (system_message user_message : str)
  : list message :=
  [SystemMessage system_message; HumanMessage user_message].

(** [LLMInterface.handle_error] *)
Definition handle_error (self : t) (error : exn) : M (option str) :=
  log ERROR (LLM_invocation_error error);;
  rc <- get_retry_count;;
  if (rc <? max_retries self)%Z then
    set_retry_count (rc + 1);;
    rc <- get_retry_count;;
    log INFO (Retrying_attempt rc (max_retries self));;
    time_sleep (IntSeconds (2 ^ rc));;
    ret None
  else
    set_retry_count 0;;
    ret (Some (lit "Error after " ++ str_of_int (max_retries self)
               ++ lit " retries: " ++ str_of_exn error)).

(** [self.model.invoke(messages)] followed by [.content] *)
Definition model_call (env : Env) (messages : list message) : M str :=
  fun w =>
    (model_invoke env (model_calls w) messages,
     {| retry_count := retry_count w;
        model_calls := S (model_calls w);
        save_calls := save_calls w;
        trace := trace w ++ [ModelInvoke messages] |}).

(** How one activation of [invoke] ends: with [return result.content]
    or with the recursive call [return self.invoke(messages)]. *)
Inductive activation : Type :=
| Return (content : str)
| Retry.

(** The body of [invoke] up to its recursive call. *)
Definition invoke_body (env : Env) (self : t) (messages : list message)
  : M activation :=
  try_except
    (result <- model_call env messages;;
     set_retry_count 0;;
     ret (Return result))
    (fun e =>
       error_msg <- handle_error self e;;
       if truthy_opt error_msg
       then raise (Exception (match error_msg with Some m => m | None => [] end))
       else ret Retry).

(** [invoke] with a bound on the depth of its recursion. *)
Fixpoint invoke_fuel (fuel : nat) (env : Env) (self : t)
    (messages : list message) (w : World) : option ((exn + str) * World) :=
  match fuel with
  | O => None
  | S fuel' =>
      match invoke_body env self messages w with
      | (inl e, w') => Some (inl e, w')
      | (inr (Return content), w') => Some (inr content, w')
      | (inr Retry, w') => invoke_fuel fuel' env self messages w'
      end
  end.

(** The depth [invoke] can reach from a world: one activation, and one
    more for each retry left. *)
Definition depth (self : t) (w : World) : nat :=
  S (Z.to_nat (max_retries self - retry_count w)).

(** [GroqInterface.invoke] (and the three other classes' [invoke]).
    Every recursive call is made with one retry less left, so the fuel
    [depth] never runs out ([invoke_fuel_depth] below) and the last case
    is never taken; [invoke_unfold] below is the recursive equation of the
    source.  The bound CPython puts on the depth of recursion is not
    modelled. *)
Definition invoke (env : Env) (self : t) (messages : list message) : M str :=
  fun w =>
    match invoke_fuel (depth self w) env self messages w with
    | Some r => r
    | None => (inl (OtherException []), w)
    end.

End LLMInterface.

Module LLMFactory.

(** [XInterface.__init__]: [LLMInterface.__init__] and then
    [initialize_model]. *)
Definition new_interface (env : Env) (cls : str) (max_retries : Z)
  : M LLMInterface.t :=
  set_retry_count 0;;
  match initialize_model env cls with
  | Some e => raise e
  | None =>
      ret {| LLMInterface.provider_class := cls;
             LLMInterface.max_retries := max_retries |}
  end.

(** [LLMFactory.create_llm_interface]; of the dictionary [config] only
    ['max_retries'] is read by the code modelled here. *)
Definition create_llm_interface (env : Env) (provider : str)
    (max_retries : Z) : M LLMInterface.t :=
  if str_eqb (lower provider) (lit "groq") then
    new_interface env (lit "GroqInterface") max_retries
  else if str_eqb (lower provider) (lit "openai") then
    new_interface env (lit "OpenAIInterface") max_retries
  else if str_eqb (lower provider) (lit "google") then
    new_interface env (lit "GoogleInterface") max_retries
  else if str_eqb (lower provider) (lit "ollama") then
    new_interface env (lit "OllamaInterface") max_retries
  else
    raise (ValueError (lit "Unsupported LLM provider: " ++ provider)).

End LLMFactory.

(* ===================================================================== *)
(** * src/config.py                                                       *)
(* ===================================================================== *)

Module Config.

(** The three sections of the configuration, with the fields that the
    code modelled here reads. *)
Record LLMConfig : Type := {
  provider : str;
  model_name : str;
  api_key : option str
}.

Record FileConfig : Type := {
  input_docx_path : str;
  output_docx_path : str;
  system_message_path : str;
  separator : str
}.

Record ProcessingConfig : Type := {
  delay_between_requests : seconds;
  max_retries : Z
}.

Record t : Type := {
  llm_config : LLMConfig;
  file_config : FileConfig;
  processing_config : ProcessingConfig
}.

(** The defaults [Config.__init__] sets. *)
Definition default : t :=
  {| llm_config :=
       {| provider := lit "groq";
          model_name := lit "llama3-70b-8192";
          api_key := Some (lit "your_api_key_here") |};
     file_config :=
       {| input_docx_path := lit "src/InputOutput/Input_Madhushala.docx";
          output_docx_path := lit "src/InputOutput/Output_Madhushala.docx";
          system_message_path := lit "src/Data/System_Message.txt";
          separator := [LF] ++ lit "*********" ++ [LF] |};
     processing_config :=
       {| delay_between_requests := FloatSeconds 1;
          max_retries := 3 |} |}.

(** [Config.validate] *)
Definition validate (env : Env) (self : t) : M bool :=
  let providers_requiring_key := [lit "groq"; lit "openai"; lit "google"] in
  if existsb (str_eqb (lower (provider (llm_config self))))
             providers_requiring_key
     && negb (truthy_opt (api_key (llm_config self)))
  then raise (ValueError (lit "API key is required for provider '"
                          ++ provider (llm_config self) ++ lit "'"))
  else if negb (os_path_exists env (input_docx_path (file_config self)))
  then raise (FileNotFoundError
                (lit "Input file not found: "
                 ++ input_docx_path (file_config self)))
  else if negb (os_path_exists env (system_message_path (file_config self)))
  then raise (FileNotFoundError
                (lit "System message file not found: "
                 ++ system_message_path (file_config self)))
  else ret true.

(** The files [Config.__init__] looks at. *)
Record Files : Type := {
  (** [Path(config_path).exists()] *)
  Path_exists : str -> bool;
  (** [self.load_from_file(config_path)] on a configuration: the
      configuration it leaves, or the exception that escapes it.  What
      [yaml.safe_load] reads is not modelled; [load_from_file] itself
      catches [IOError] and [yaml.YAMLError] and then leaves the
      configuration as it was. *)
  load_from_file : str -> t -> exn + t
}.

(** [Config.__init__]: the configuration built, or the exception raised. *)
Definition __init__ (files : Files) (config_path : option str) : exn + t :=
  let config_path :=
    match config_path with
    | None => lit "src/config.yaml"
    | Some config_path => config_path
    end in
  if Path_exists files config_path
  then load_from_file files config_path default
  else inr default.

End Config.

(* ===================================================================== *)
(** * src/shaiyar_processor.py                                            *)
(* ===================================================================== *)

Module ShAIyarProcessor.

(** The methods of [self.text_processor] that the processor calls. *)
Record text_processor_t : Type := {
  clean_text : str -> str;
  analyze_text_block : str -> TextProcessor.analysis
}.

(** [TextProcessor()] *)
Definition TextProcessor_new : text_processor_t :=
  {| clean_text := TextProcessor.clean_text;
     analyze_text_block := TextProcessor.analyze_text_block |}.

Record t : Type := {
  config : Config.t;
  text_processor : text_processor_t;
  llm_interface : LLMInterface.t;
  system_message : str
}.

(** [ShAIyarProcessor._load_system_message] *)
Definition _load_system_message (env : Env) (config : Config.t) : M str :=
  match open_read env (Config.system_message_path (Config.file_config config)) with
  | inr content => ret (strip content)
  | inl e =>
      log ERROR (Error_loading_system_message e);;
      ret []
  end.

(** [ShAIyarProcessor.__init__] *)
Definition __init__ (env : Env) (config : Config.t) : M t :=
  llm <- LLMFactory.create_llm_interface env
           (Config.provider (Config.llm_config config))
           (Config.max_retries (Config.processing_config config));;
  sm <- _load_system_message env config;;
  ret {| config := config;
         text_processor := TextProcessor_new;
         llm_interface := llm;
         system_message := sm |}.

(** [ShAIyarProcessor._process_text_block] *)
Definition _process_text_block (env : Env) (self : t)
    (text_block : str) (block_index : nat) : M (option str) :=
  try_except
    (let cleaned_text := clean_text (text_processor self) text_block in
     if negb (truthy cleaned_text) then
       log WARNING (Block_is_empty_after_cleaning block_index);;
       ret None
     else
       let analysis := analyze_text_block (text_processor self) cleaned_text in
       log INFO (Processing_block_analysis block_index analysis);;
       let messages :=
         LLMInterface.create_messages (system_message self) cleaned_text in
       result <- LLMInterface.invoke env (llm_interface self) messages;;
       log INFO (Successfully_processed_block block_index);;
       ret (Some result))
    (fun e =>
       log ERROR (Error_processing_block block_index e);;
       ret None).

(** [output_doc.save(path)] for a document with the given paragraphs *)
Definition save (env : Env) (path : str) (paragraphs : list str) : M unit :=
  fun w =>
    match docx_save env (save_calls w) path paragraphs with
    | Some e =>
        (inl e, {| retry_count := retry_count w;
                   model_calls := model_calls w;
                   save_calls := S (save_calls w);
                   trace := trace w |})
    | None =>
        (inr tt, {| retry_count := retry_count w;
                    model_calls := model_calls w;
                    save_calls := S (save_calls w);
                    trace := trace w ++ [Save path paragraphs] |})
    end.

(** The local variables the loop of [process] updates;
    [output_doc] is the list of the document's paragraphs. *)
Record locals : Type := {
  output_doc : list str;
  is_first_block_written : bool;
  successful_blocks : nat
}.

(** What [process] sets before its loop; [Document()] has no paragraph. *)
Definition locals_init : locals :=
  {| output_doc := [];
     is_first_block_written := true;
     successful_blocks := 0 |}.

(** The paragraphs of [output_doc] after the two [add_paragraph] calls
    of the loop: the separator, if this is not the first block written
    and the separator is not empty, and the processed block. *)
Definition add_paragraphs (sep : str) (l : locals) (processed_block : str)
  : list str :=
  (if negb (is_first_block_written l) && truthy sep
   then output_doc l ++ [sep]
   else output_doc l) ++ [processed_block].

(** The body of the loop for a block that is not [None]. *)
Definition process_block (env : Env) (self : t) (total_blocks len : nat)
    (i : nat) (text_block : str) (l : locals) : M locals :=
  log INFO (Processing_block_of (i + 1) total_blocks);;
  processed_block <- _process_text_block env self text_block i;;
  l' <- match processed_block with
        | Some pb =>
            if truthy pb then
              let sep := Config.separator (Config.file_config (config self)) in
              let doc := add_paragraphs sep l pb in
              save env (Config.output_docx_path
                          (Config.file_config (config self))) doc;;
              log INFO (Saved_progress_for_block (i + 1));;
              ret {| output_doc := doc;
                     is_first_block_written := false;
                     successful_blocks := successful_blocks l + 1 |}
            else ret l
        | None => ret l
        end;;
  (if (Z.of_nat i <? Z.of_nat len - 1)%Z
   then time_sleep (Config.delay_between_requests
                      (Config.processing_config (config self)))
   else ret tt);;
  ret l'.

(** [for i, text_block in enumerate(text_blocks)], from index [i] on;
    [len] is [len(text_blocks)]. *)
Fixpoint process_loop (env : Env) (self : t) (total_blocks len : nat)
    (i : nat) (text_blocks : list (option str)) (l : locals) : M locals :=
  match text_blocks with
  | [] => ret l
  | None :: rest =>
      process_loop env self total_blocks len (S i) rest l
  | Some text_block :: rest =>
      l' <- process_block env self total_blocks len i text_block l;;
      process_loop env self total_blocks len (S i) rest l'
  end.

Definition is_not_None {A} (o : option A) : bool :=
  match o with Some _ => true | None => false end.

(** The [try] block of [process], returning its local variables with
    the value returned. *)
Definition process_try (env : Env) (self : t) : M (bool * locals) :=
  Config.validate env (config self);;
  text_blocks <- DocxReader.read_docx_text_blocks env
                   (Config.input_docx_path (Config.file_config (config self)));;
  let total_blocks := length (filter is_not_None text_blocks) in
  log INFO (Starting_processing_of_blocks total_blocks);;
  l <- process_loop env self total_blocks (length text_blocks) 0
         text_blocks locals_init;;
  log INFO (Successfully_processed_blocks (successful_blocks l) total_blocks);;
  ret (true, l).

(** [ShAIyarProcessor.process] *)
Definition process (env : Env) (self : t) : M bool :=
  try_except
    (r <- process_try env self;; ret (fst r))
    (fun e =>
       log ERROR (Error_processing_document e);;
       ret false).

(** The events of the pause after block [i] of [len]. *)
Definition pacing (self : t) (i len : nat) : list event :=
  if (Z.of_nat i <? Z.of_nat len - 1)%Z
  then [Sleep (Config.delay_between_requests
                 (Config.processing_config (config self)))]
  else [].

(** The exception the pause after block [i] of [len] raises, if any. *)
Definition pause_error (self : t) (i len : nat) : option exn :=
  if (Z.of_nat i <? Z.of_nat len - 1)%Z
  then sleep_error (Config.delay_between_requests
                      (Config.processing_config (config self)))
  else None.

(** [time.sleep] takes the delay of the configuration. *)
Definition delay_accepted (self : t) : Prop :=
  sleep_accepts (Config.delay_between_requests
                   (Config.processing_config (config self))) = true.

(** The world after one more call of [save]. *)
Definition after_save (w : World) : World :=
  {| retry_count := retry_count w;
     model_calls := model_calls w;
     save_calls := S (save_calls w);
     trace := trace w |}.

(** The same processor with another [analyze_text_block]. *)
Definition with_analyze (self : t)
    (analyze : str -> TextProcessor.analysis) : t :=
  {| config := config self;
     text_processor :=
       {| clean_text := clean_text (text_processor self);
          analyze_text_block := analyze |};
     llm_interface := llm_interface self;
     system_message := system_message self |}.

(** The local variables of the loop of [process] after the given blocks
    have been written. *)
Definition wrote (sep : str) (l : locals) (written : list str) : Prop :=
  output_doc l = with_separators sep written
  /\ is_first_block_written l = negb (truthy_list written)
  /\ successful_blocks l = length written.

End ShAIyarProcessor.

(* ===================================================================== *)
(** * src/main.py                                                         *)
(* ===================================================================== *)

(** The namespace [parser.parse_args()] returns.  An option that is not
    given is [None]; [--provider] has the default "groq" and is one of its
    three choices. *)
Module Args.

Inductive choice : Type := groq | openai | google.

Definition choice_name (c : choice) : str :=
  match c with
  | groq => lit "groq"
  | openai => lit "openai"
  | google => lit "google"
  end.

Record t : Type := {
  input : option str;
  output : option str;
  system_message : option str;
  provider : choice;
  model : option str;
  api_key : option str;
  config : option str;
  verbose : bool
}.

End Args.

(** How the program is started. *)
Record Invocation : Type := {
  (** [parser.parse_args()] on the command line: the namespace, or the
      status with which argparse exits (2 for a command line it rejects,
      0 after [--help]) *)
  parse_args : Z + Args.t;
  (** the exception [logging.FileHandler(filename)] raises, if any *)
  logging_FileHandler : str -> option exn;
  config_files : Config.Files
}.

(** [setup_logging]; the handlers are built before [logging.basicConfig]
    is called, and the level only selects which records are shown. *)
Definition setup_logging (inv : Invocation) (level : str) : M unit :=
  match logging_FileHandler inv (lit "logs/shaiyar.log") with
  | Some e => raise e
  | None => ret tt
  end.

(** [if arg: old = arg] *)
Definition override (arg : option str) (old : str) : str :=
  match arg with
  | Some value => if truthy value then value else old
  | None => old
  end.

(** The configuration after the overrides of [main] from the command
    line. *)
Definition overrides (args : Args.t) (config : Config.t) : Config.t :=
  let file_config := Config.file_config config in
  let llm_config := Config.llm_config config in
  {| Config.llm_config :=
       {| Config.provider :=
            override (Some (Args.choice_name (Args.provider args)))
              (Config.provider llm_config);
          Config.model_name :=
            override (Args.model args) (Config.model_name llm_config);
          Config.api_key :=
            if truthy_opt (Args.api_key args)
            then Args.api_key args
            else Config.api_key llm_config |};
     Config.file_config :=
       {| Config.input_docx_path :=
            override (Args.input args) (Config.input_docx_path file_config);
          Config.output_docx_path :=
            override (Args.output args) (Config.output_docx_path file_config);
          Config.system_message_path :=
            override (Args.system_message args)
              (Config.system_message_path file_config);
          Config.separator := Config.separator file_config |};
     Config.processing_config := Config.processing_config config |}.

(** [main].  The value is the status of the [SystemExit] that ends it,
    argparse's or that of [sys.exit]; an exception raised is one that
    escapes [main]. *)
Definition main (env : Env) (inv : Invocation) : M Z :=
  match parse_args inv with
  | inl status => ret status
  | inr args =>
      let log_level := if Args.verbose args then lit "DEBUG" else lit "INFO" in
      setup_logging inv log_level;;
      log INFO Starting_ShAIyar;;
      try_except
        (match Config.__init__ (config_files inv) (Args.config args) with
         | inl e => raise e
         | inr config =>
             let config := overrides args config in
             Config.validate env config;;
             processor <- ShAIyarProcessor.__init__ env config;;
             success <- ShAIyarProcessor.process env processor;;
             if success then
               log INFO Document_processing_completed_successfully;;
               ret 0%Z
             else
               log ERROR Document_processing_failed;;
               ret 1%Z
         end)
        (fun e =>
           log ERROR (Application_error e);;
           ret 1%Z)
  end.

(* ===================================================================== *)
(** * output_writer.py                                                    *)
(* ===================================================================== *)

Module OutputWriter.

(** The records handed to the logger of the writer. *)
Inductive log_msg : Type :=
| Successfully_wrote_blocks (n : nat) (output_path : str)
| Error_writing_to_DOCX_file (e : exn)
| Error_writing_to_text_file (e : exn)
| Error_appending_to_DOCX_file (e : exn).

(** What a call of the writer does to the disk and the log, in order. *)
Inductive event : Type :=
| Log (lv : level) (m : log_msg)
| Mkdir (output_path : str)               (* output_path.parent.mkdir(...) *)
| Save (output_path : str) (paragraphs : list str)  (* output_doc.save(...) *)
| Open (output_path : str)                (* open(output_path, 'w') *)
| Write (data : str).                     (* f.write(data) *)

(** The disk a call depends on.  A path is written as it is given:
    [str(Path(p))] is taken to be [p]. *)
Record Disk : Type := {
  (** [Path(output_path).exists()] *)
  path_exists : str -> bool;
  (** [docx.Document(output_path)]: the texts of its paragraphs, or the
      exception raised *)
  Document : str -> exn + list str;
  (** the exception [output_path.parent.mkdir(parents=True, exist_ok=True)]
      raises, if any *)
  mkdir : str -> option exn;
  (** the exception [output_doc.save(str(output_path))] raises, if any *)
  save : str -> list str -> option exn;
  (** the exception [open(output_path, 'w')] raises, if any *)
  open_w : str -> option exn;
  (** the exception the n-th [f.write] of a call raises, if any *)
  write : nat -> str -> option exn
}.

(** Computations of the writer: they return or raise, and list the events
    they caused. *)
Definition W (A : Type) : Type := (exn + A) * list event.

Definition wret {A} (a : A) : W A := (inr a, []).

Definition wraise {A} (e : exn) : W A := (inl e, []).

Definition wbind {A B} (m : W A) (k : A -> W B) : W B :=
  match m with
  | (inr a, t) => let (r, t') := k a in (r, t ++ t')
  | (inl e, t) => (inl e, t)
  end.

(** [try: m  except Exception as e: h e] *)
Definition wtry {A} (m : W A) (h : exn -> W A) : W A :=
  match m with
  | (inr a, t) => (inr a, t)
  | (inl e, t) => let (r, t') := h e in (r, t ++ t')
  end.

(** An operation of the disk: it raises, or it is done and listed. *)
Definition attempt (failure : option exn) (ev : event) : W unit :=
  match failure with
  | Some e => wraise e
  | None => (inr tt, [ev])
  end.

Definition wlog (lv : level) (m : log_msg) : W unit := (inr tt, [Log lv m]).

(** The loop of [write_to_docx] from index [i] on: the paragraphs it adds
    to [output_doc]; [len] is [len(content_blocks)]. *)
Fixpoint docx_loop (len i : nat) (content_blocks : list str)
    (separator : str) : list str :=
  match content_blocks with
  | [] => []
  | content_block :: rest =>
      (if truthy content_block
       then content_block
            :: (if (Z.of_nat i <? Z.of_nat len - 1)%Z then [separator] else [])
       else [])
      ++ docx_loop len (S i) rest separator
  end.

(** [OutputWriter.write_to_docx] *)
Definition write_to_docx (disk : Disk) (output_path : str)
    (content_blocks : list str) (separator : str) : W bool :=
  wtry
    (let output_doc :=
       docx_loop (length content_blocks) 0 content_blocks separator in
     wbind (attempt (mkdir disk output_path) (Mkdir output_path)) (fun _ =>
     wbind (attempt (save disk output_path output_doc)
              (Save output_path output_doc)) (fun _ =>
     wbind (wlog INFO (Successfully_wrote_blocks (length content_blocks)
                         output_path)) (fun _ =>
     wret true))))
    (fun e =>
       wbind (wlog ERROR (Error_writing_to_DOCX_file e)) (fun _ => wret false)).

(** The loop of [write_to_text] from index [i] on; [n] counts the calls of
    [f.write] made so far, and is returned. *)
Fixpoint text_loop (disk : Disk) (len i n : nat) (content_blocks : list str)
    (separator : str) : W nat :=
  match content_blocks with
  | [] => wret n
  | content_block :: rest =>
      wbind
        (if truthy content_block then
           wbind (attempt (write disk n content_block) (Write content_block))
             (fun _ =>
                if (Z.of_nat i <? Z.of_nat len - 1)%Z
                then wbind (attempt (write disk (S n) separator)
                              (Write separator))
                       (fun _ => wret (S (S n)))
                else wret (S n))
         else wret n)
        (fun n' => text_loop disk len (S i) n' rest separator)
  end.

(** [OutputWriter.write_to_text] *)
Definition write_to_text (disk : Disk) (output_path : str)
    (content_blocks : list str) (separator : str) : W bool :=
  wtry
    (wbind (attempt (mkdir disk output_path) (Mkdir output_path)) (fun _ =>
     wbind (attempt (open_w disk output_path) (Open output_path)) (fun _ =>
     wbind (text_loop disk (length content_blocks) 0 0 content_blocks
              separator) (fun _ =>
     wbind (wlog INFO (Successfully_wrote_blocks (length content_blocks)
                         output_path)) (fun _ =>
     wret true)))))
    (fun e =>
       wbind (wlog ERROR (Error_writing_to_text_file e)) (fun _ => wret false)).

(** The paragraphs [append_to_docx] saves, from those of the document it
    has loaded or created. *)
Definition appended (paragraphs : list str) (content_block separator : str)
    : list str :=
  (if truthy_list paragraphs then paragraphs ++ [separator] else paragraphs)
  ++ [content_block].

(** [OutputWriter.append_to_docx] *)
Definition append_to_docx (disk : Disk) (output_path : str)
    (content_block : str) (separator : str) : W bool :=
  wtry
    (wbind (if path_exists disk output_path
            then match Document disk output_path with
                 | inr paragraphs => wret paragraphs
                 | inl e => wraise e
                 end
            else wret []) (fun paragraphs =>
     let output_doc := appended paragraphs content_block separator in
     wbind (attempt (mkdir disk output_path) (Mkdir output_path)) (fun _ =>
     wbind (attempt (save disk output_path output_doc)
              (Save output_path output_doc)) (fun _ =>
     wret true))))
    (fun e =>
       wbind (wlog ERROR (Error_appending_to_DOCX_file e))
         (fun _ => wret false)).

(** The data written by the events of a call, in order, as one string. *)
Definition written (t : list event) : str :=
  flat_map (fun ev => match ev with Write data => data | _ => [] end) t.

(** The documents saved by the events of a call. *)
Definition saved (t : list event) : list (list str) :=
  flat_map (fun ev => match ev with Save _ ps => [ps] | _ => [] end) t.

(** A disk on which nothing raises. *)
Definition sound (disk : Disk) : Prop :=
  (forall p, mkdir disk p = None)
  /\ (forall p d, save disk p d = None)
  /\ (forall p, open_w disk p = None)
  /\ (forall n d, write disk n d = None).

(** A call that ends by logging an error built by [mk]. *)
Definition reports (mk : exn -> log_msg) (t : list event) : Prop :=
  exists e t', t = t' ++ [Log ERROR (mk e)] /\ saved t' = [].

End OutputWriter.

(* ===================================================================== *)
(** * Test doubles                                                        *)
(* ===================================================================== *)

Module Scenario.

(** [s.upper()] on the ASCII letters. *)
Definition upper_char (c : N) : N :=
  if ((97 <=? c) && (c <=? 122))%N then (c - 32)%N else c.

Definition upper (s : str) : str := map upper_char s.

(** The content of the user message of a call. *)
Definition user_content (messages : list message) : str :=
  match messages with
  | [_; HumanMessage content] => content
  | _ => []
  end.

(** A model stub that answers with its input in upper case. *)
Definition uppercasing_model (n : nat) (messages : list message)
  : exn + str :=
  inr (upper (user_content messages)).

(** A backend that raises on every call. *)
Definition failing_model (n : nat) (messages : list message) : exn + str :=
  inl (OtherException (lit "connection refused")).

(** A backend whose first [k] calls raise and whose later calls answer
    in upper case. *)
Definition flaky_model (k : nat) (n : nat) (messages : list message)
  : exn + str :=
  if (n <? k)%nat then inl (OtherException (lit "timeout"))
  else inr (upper (user_content messages)).

(** An outside where every file exists, the input document has the given
    paragraphs, every save succeeds and the model is the given one. *)
Definition env_with (paragraphs : list str)
    (model : nat -> list message -> exn + str) : Env :=
  {| os_path_exists := fun _ => true;
     open_read := fun _ => inr (lit "Translate the verse." ++ [LF]);
     docx_Document := fun _ => inr paragraphs;
     docx_save := fun _ _ _ => None;
     initialize_model := fun _ => None;
     model_invoke := model |}.

(** The input of the end-to-end scenario: the blocks "Hello", "World". *)
Definition hello_world : list str := [lit "Hello"; []; lit "World"].

(** An input file that exists and is not a readable document. *)
Definition env_unreadable : Env :=
  {| os_path_exists := fun _ => true;
     open_read := fun _ => inr (lit "Translate the verse." ++ [LF]);
     docx_Document := fun _ => inl (OtherException (lit "File is not a zip file"));
     docx_save := fun _ _ _ => None;
     initialize_model := fun _ => None;
     model_invoke := uppercasing_model |}.

(** An output path that cannot be written. *)
Definition env_unwritable : Env :=
  {| os_path_exists := fun _ => true;
     open_read := fun _ => inr (lit "Translate the verse." ++ [LF]);
     docx_Document := fun _ => inr hello_world;
     docx_save := fun _ _ _ => Some (OtherException (lit "Permission denied"));
     initialize_model := fun _ => None;
     model_invoke := uppercasing_model |}.

Definition groq (max_retries : Z) : LLMInterface.t :=
  {| LLMInterface.provider_class := lit "GroqInterface";
     LLMInterface.max_retries := max_retries |}.

Definition messages : list message :=
  LLMInterface.create_messages (lit "Translate the verse.") (lit "Hello").

(** The processor [ShAIyarProcessor(Config())] of these outsides. *)
Definition processor : ShAIyarProcessor.t :=
  {| ShAIyarProcessor.config := Config.default;
     ShAIyarProcessor.text_processor := ShAIyarProcessor.TextProcessor_new;
     ShAIyarProcessor.llm_interface := groq 3;
     ShAIyarProcessor.system_message := lit "Translate the verse." |}.

(** The processor of these outsides with another delay between the
    requests. *)
Definition processor_with_delay (delay : seconds) : ShAIyarProcessor.t :=
  {| ShAIyarProcessor.config :=
       {| Config.llm_config := Config.llm_config Config.default;
          Config.file_config := Config.file_config Config.default;
          Config.processing_config :=
            {| Config.delay_between_requests := delay;
               Config.max_retries := 3 |} |};
     ShAIyarProcessor.text_processor := ShAIyarProcessor.TextProcessor_new;
     ShAIyarProcessor.llm_interface := groq 3;
     ShAIyarProcessor.system_message := lit "Translate the verse." |}.

(** A command line without options. *)
Definition no_options : Args.t :=
  {| Args.input := None;
     Args.output := None;
     Args.system_message := None;
     Args.provider := Args.groq;
     Args.model := None;
     Args.api_key := None;
     Args.config := None;
     Args.verbose := false |}.

(** A start with the given namespace, where the log file can be opened
    and the configuration file, when there is one, gives the given
    configuration. *)
Definition started_with (args : Args.t) (file : option Config.t)
  : Invocation :=
  {| parse_args := inr args;
     logging_FileHandler := fun _ => None;
     config_files :=
       {| Config.Path_exists :=
            fun _ => match file with Some _ => true | None => false end;
          Config.load_from_file :=
            fun _ config =>
              inr (match file with Some loaded => loaded | None => config end)
       |} |}.

(** The default configuration with the API key taken out. *)
Definition config_without_key : Config.t :=
  {| Config.llm_config :=
       {| Config.provider := lit "Groq";
          Config.model_name := lit "llama3-70b-8192";
          Config.api_key := None |};
     Config.file_config := Config.file_config Config.default;
     Config.processing_config := Config.processing_config Config.default |}.

(** A disk on which nothing raises and the output document, when it
    exists, has the given paragraphs. *)
Definition disk_with (existing : option (list str)) : OutputWriter.Disk :=
  {| OutputWriter.path_exists :=
       fun _ => match existing with Some _ => true | None => false end;
     OutputWriter.Document :=
       fun _ => match existing with
                | Some paragraphs => inr paragraphs
                | None => inl (OtherException (lit "Package not found"))
                end;
     OutputWriter.mkdir := fun _ => None;
     OutputWriter.save := fun _ _ => None;
     OutputWriter.open_w := fun _ => None;
     OutputWriter.write := fun _ _ => None |}.

End Scenario.

(* ===================================================================== *)
(** * Facts about the string operations                                   *)
(* ===================================================================== *)

Section StringFacts.

Lemma isspace_SPACE : isspace SPACE = true.
Proof. reflexivity. Qed.

Lemma isspace_LF : isspace LF = true.
Proof. reflexivity. Qed.

Lemma lstrip_all_space w s : all_space w = true -> lstrip (w ++ s) = lstrip s.
Proof.
  induction w as [|c w IH]; simpl; [reflexivity|].
  intros H. apply andb_prop in H as [Hc Hw]. rewrite Hc. auto.
Qed.

Lemma lstrip_keeps a c t :
  isspace c = false -> lstrip (a ++ c :: t) = lstrip a ++ c :: t.
Proof.
  intros Hc. induction a as [|x a IH]; simpl.
  - now rewrite Hc.
  - destruct (isspace x); [exact IH | reflexivity].
Qed.

Lemma rstrip_keeps a c t :
  isspace c = false -> rstrip (a ++ c :: t) = a ++ c :: rstrip t.
Proof.
  intros Hc. unfold rstrip.
  rewrite rev_app_distr. simpl rev. rewrite <- app_assoc. simpl app.
  rewrite (lstrip_keeps _ _ _ Hc), rev_app_distr. simpl rev.
  rewrite rev_involutive, <- app_assoc. reflexivity.
Qed.

Lemma rstrip_cons c t : isspace c = false -> rstrip (c :: t) = c :: rstrip t.
Proof. exact (rstrip_keeps [] c t). Qed.

Lemma rstrip_cons2 x c t :
  isspace c = false -> rstrip (x :: c :: t) = x :: c :: rstrip t.
Proof. exact (rstrip_keeps [x] c t). Qed.

Lemma all_space_rev w : all_space (rev w) = all_space w.
Proof.
  unfold all_space. induction w as [|c w IH]; simpl; [reflexivity|].
  rewrite forallb_app, IH. simpl. rewrite andb_true_r. apply andb_comm.
Qed.

Lemma lstrip_nil_all_space w : all_space w = true -> lstrip w = [].
Proof.
  intros H. rewrite <- (app_nil_r w). now rewrite lstrip_all_space.
Qed.

Lemma rstrip_all_space w : all_space w = true -> rstrip w = [].
Proof.
  intros H. unfold rstrip.
  rewrite lstrip_nil_all_space; [reflexivity | now rewrite all_space_rev].
Qed.

Lemma strip_all_space w : all_space w = true -> strip w = [].
Proof.
  intros H. unfold strip. now rewrite lstrip_nil_all_space.
Qed.

(** [re.sub] turns a string of whitespace into at most one space. *)
Lemma re_sub_ws_all_space w b :
  all_space w = true -> all_space (re_sub_ws_from b w) = true.
Proof.
  revert b. induction w as [|c w IH]; intros b H; simpl; [reflexivity|].
  simpl in H. apply andb_prop in H as [Hc Hw]. rewrite Hc.
  destruct b; simpl; auto.
Qed.

(** The greedy match: a whitespace character and the whole run after it
    are replaced together. *)
Lemma re_sub_ws_greedy c r :
  re_sub_ws (c :: r) =
  if isspace c then SPACE :: re_sub_ws (lstrip r) else c :: re_sub_ws r.
Proof.
  unfold re_sub_ws. simpl. destruct (isspace c); [|reflexivity].
  f_equal. induction r as [|x r IH]; simpl; [reflexivity|].
  destruct (isspace x) eqn:Hx; [exact IH|].
  simpl. now rewrite Hx.
Qed.

(** A run of whitespace is replaced as a single space in its place is. *)
Lemma re_sub_ws_run w rest b :
  w <> [] -> all_space w = true ->
  re_sub_ws_from b (w ++ rest) = re_sub_ws_from b (SPACE :: rest).
Proof.
  revert b. induction w as [|c w IH]; intros b Hne H; [congruence|].
  simpl in H. apply andb_prop in H as [Hc Hw].
  destruct w as [|c' w].
  - simpl. now rewrite Hc.
  - change ((c :: c' :: w) ++ rest) with (c :: ((c' :: w) ++ rest)).
    cbn [re_sub_ws_from]. rewrite Hc, isspace_SPACE.
    rewrite (IH true) by (congruence || assumption).
    cbn [re_sub_ws_from]. rewrite isspace_SPACE. reflexivity.
Qed.

Lemma re_sub_ws_from_app a b rest1 rest2 :
  (forall b', re_sub_ws_from b' rest1 = re_sub_ws_from b' rest2) ->
  re_sub_ws_from b (a ++ rest1) = re_sub_ws_from b (a ++ rest2).
Proof.
  intros H. revert b. induction a as [|c a IH]; intros b; simpl; [apply H|].
  destruct (isspace c); [destruct b|]; now rewrite IH.
Qed.

Lemma split_from_not_nil cur s : cur <> [] -> split_from cur s <> [].
Proof.
  revert cur. induction s as [|c s IH]; intros cur H; simpl.
  - destruct cur; congruence.
  - destruct (isspace c).
    + destruct cur; congruence.
    + apply IH. destruct cur; discriminate.
Qed.

Lemma join_cons sep p rest :
  join sep (p :: rest) =
  p ++ match rest with [] => [] | _ => sep ++ join sep rest end.
Proof. destruct rest; simpl; [now rewrite app_nil_r | reflexivity]. Qed.

(** The words of [s], joined by single spaces, against [re.sub] and
    [rstrip]: after a word has begun, and after a run has begun. *)
Lemma join_split_from s :
  (forall cur, cur <> [] ->
     join [SPACE] (split_from cur s) = cur ++ rstrip (re_sub_ws_from false s))
  /\ rstrip (SPACE :: re_sub_ws_from true s) =
     match split_from [] s with
     | [] => []
     | ws => SPACE :: join [SPACE] ws
     end.
Proof.
  induction s as [|c s [IH1 IH2]]; split.
  - intros cur H. simpl. destruct cur; [congruence|].
    now rewrite app_nil_r.
  - reflexivity.
  - intros cur H. cbn [split_from re_sub_ws_from].
    destruct (isspace c) eqn:Hc.
    + destruct cur as [|x cur]; [congruence|].
      rewrite join_cons, IH2. destruct (split_from [] s); reflexivity.
    + rewrite IH1 by (destruct cur; discriminate).
      rewrite (rstrip_cons _ _ Hc), <- app_assoc. reflexivity.
  - cbn [split_from re_sub_ws_from]. destruct (isspace c) eqn:Hc.
    + exact IH2.
    + rewrite (rstrip_cons2 _ _ _ Hc).
      pose proof (split_from_not_nil [c] s ltac:(discriminate)) as Hne.
      simpl app.
      destruct (split_from [c] s) eqn:E; [congruence|].
      rewrite <- E, IH1 by discriminate. reflexivity.
Qed.

Lemma strip_re_sub_ws_from b s :
  strip (re_sub_ws_from b s) = join [SPACE] (split s).
Proof.
  unfold split. revert b. induction s as [|c s IH]; intros b; [reflexivity|].
  cbn [split_from re_sub_ws_from]. destruct (isspace c) eqn:Hc.
  - destruct b; [apply IH|].
    unfold strip. cbn [lstrip]. rewrite isspace_SPACE. apply (IH true).
  - unfold strip. cbn [lstrip]. rewrite Hc.
    rewrite (rstrip_cons _ _ Hc).
    now rewrite (proj1 (join_split_from s)) by discriminate.
Qed.

(** [clean_text] is [' '.join(text.split())]. *)
Lemma clean_text_join_split s :
  TextProcessor.clean_text s = join [SPACE] (split s).
Proof.
  unfold TextProcessor.clean_text, re_sub_ws.
  destruct s as [|c s]; [reflexivity|].
  cbn [truthy negb]. apply strip_re_sub_ws_from.
Qed.

Lemma no_space_app a b : no_space (a ++ b) = no_space a && no_space b.
Proof. apply forallb_app. Qed.

Lemma split_from_words cur s :
  no_space cur = true -> Forall word (split_from cur s).
Proof.
  revert cur. induction s as [|c s IH]; intros cur H; simpl.
  - destruct cur; constructor; [|constructor]. split; [discriminate|exact H].
  - destruct (isspace c) eqn:Hc.
    + destruct cur; [now apply IH|].
      constructor; [split; [discriminate|exact H] | now apply IH].
    + apply IH. rewrite no_space_app, H. simpl. now rewrite Hc.
Qed.

Lemma split_words s : Forall word (split s).
Proof. now apply split_from_words. Qed.

Lemma split_from_no_space cur x rest :
  no_space x = true -> split_from cur (x ++ rest) = split_from (cur ++ x) rest.
Proof.
  revert cur. induction x as [|c x IH]; intros cur H; simpl.
  - now rewrite app_nil_r.
  - simpl in H. apply andb_prop in H as [Hc Hx].
    apply negb_true_iff in Hc. rewrite Hc, IH by exact Hx.
    now rewrite <- app_assoc.
Qed.

Lemma split_join ws : Forall word ws -> split (join [SPACE] ws) = ws.
Proof.
  unfold split. induction 1 as [|p rest [Hne Hp] Hrest IH]; [reflexivity|].
  rewrite join_cons. destruct rest as [|q rest].
  - rewrite split_from_no_space by exact Hp. simpl. destruct p; congruence.
  - rewrite split_from_no_space by exact Hp.
    cbn [app split_from]. rewrite isspace_SPACE.
    destruct p; [congruence|]. now rewrite IH.
Qed.

Lemma split_all_space_from w : all_space w = true -> split_from [] w = [].
Proof.
  induction w as [|c w IH]; simpl; [reflexivity|].
  intros H. apply andb_prop in H as [Hc Hw]. rewrite Hc. auto.
Qed.

Lemma rstrip_no_space p rest :
  no_space p = true -> rstrip (p ++ rest) = p ++ rstrip rest.
Proof.
  induction p as [|c p IH]; intros H; [reflexivity|].
  simpl in H. apply andb_prop in H as [Hc Hp]. apply negb_true_iff in Hc.
  simpl. rewrite (rstrip_cons _ _ Hc), IH by exact Hp. reflexivity.
Qed.

Lemma re_sub_ws_no_space p rest b :
  no_space p = true ->
  re_sub_ws_from b (p ++ rest) =
  p ++ re_sub_ws_from (match p with [] => b | _ => false end) rest.
Proof.
  revert b. induction p as [|c p IH]; intros b H; [reflexivity|].
  simpl in H. apply andb_prop in H as [Hc Hp]. apply negb_true_iff in Hc.
  simpl. rewrite Hc, IH by exact Hp. destruct p; reflexivity.
Qed.

(** Words joined by single spaces are already trimmed and collapsed. *)
Lemma join_words_fixed ws :
  Forall word ws ->
  lstrip (join [SPACE] ws) = join [SPACE] ws
  /\ rstrip (join [SPACE] ws) = join [SPACE] ws
  /\ re_sub_ws (join [SPACE] ws) = join [SPACE] ws.
Proof.
  unfold re_sub_ws.
  induction 1 as [|p rest [Hne Hp] Hrest (IHl & IHr & IHs)];
    [repeat split; reflexivity|].
  rewrite join_cons.
  destruct p as [|c p]; [congruence|].
  pose proof Hp as Hp'. simpl in Hp'.
  apply andb_prop in Hp' as [Hc _]. apply negb_true_iff in Hc.
  split; [simpl; now rewrite Hc|].
  destruct rest as [|q rest].
  - rewrite app_nil_r. split.
    + rewrite <- (app_nil_r (c :: p)) at 1.
      now rewrite rstrip_no_space, app_nil_r.
    + rewrite <- (app_nil_r (c :: p)) at 1.
      now rewrite re_sub_ws_no_space, app_nil_r.
  - inversion Hrest as [|q' rest' [Hq Hqs] _]; subst.
    rewrite join_cons in *.
    destruct q as [|d q]; [congruence|].
    simpl in Hqs. apply andb_prop in Hqs as [Hd _]. apply negb_true_iff in Hd.
    cbn [app] in IHr, IHs |- *. split.
    + change (c :: p ++ SPACE :: d :: ?t) with ((c :: p) ++ SPACE :: d :: t).
      rewrite rstrip_no_space by exact Hp.
      rewrite (rstrip_cons2 _ _ _ Hd).
      rewrite (rstrip_cons _ _ Hd) in IHr. now injection IHr as ->.
    + change (c :: p ++ SPACE :: d :: ?t) with ((c :: p) ++ SPACE :: d :: t).
      rewrite re_sub_ws_no_space by exact Hp.
      cbn [re_sub_ws_from] in IHs |- *. rewrite isspace_SPACE, Hd in *.
      now injection IHs as ->.
Qed.

End StringFacts.

(* ===================================================================== *)
(** * TextNormalizer: [clean_text]                                        *)
(* ===================================================================== *)

(** C8.  [clean_text] collapses every run of whitespace, newlines
    included, into one space and trims both ends: for every string [s] the
    result is the words of [s] joined by single spaces; it has no leading
    and no trailing whitespace and no run is left in it to collapse; a run
    of whitespace [w] anywhere in the input gives what a single space in
    its place gives; whitespace-only and empty input give the empty
    string; and [clean("a   b\n\nc") == "a b c"]. *)
Theorem clean_text_collapses_and_trims (s a w b : str) :
  w <> [] -> all_space w = true ->
  TextProcessor.clean_text s = join [SPACE] (split s)
  /\ lstrip (TextProcessor.clean_text s) = TextProcessor.clean_text s
  /\ rstrip (TextProcessor.clean_text s) = TextProcessor.clean_text s
  /\ re_sub_ws (TextProcessor.clean_text s) = TextProcessor.clean_text s
  /\ TextProcessor.clean_text (a ++ w ++ b)
     = TextProcessor.clean_text (a ++ [SPACE] ++ b)
  /\ TextProcessor.clean_text w = []
  /\ TextProcessor.clean_text [] = []
  /\ TextProcessor.clean_text (lit "a   b" ++ [LF; LF] ++ lit "c")
     = lit "a b c".
Proof.
  intros Hne Hw.
  pose proof (join_words_fixed _ (split_words s)) as (Hl & Hr & Hs).
  rewrite <- clean_text_join_split in Hl, Hr, Hs.
  repeat split; try assumption; try reflexivity.
  - apply clean_text_join_split.
  - unfold TextProcessor.clean_text, re_sub_ws.
    replace (truthy (a ++ w ++ b)) with true
      by (destruct a; [destruct w; [congruence|]|]; reflexivity).
    replace (truthy (a ++ [SPACE] ++ b)) with true by (destruct a; reflexivity).
    cbn [negb]. f_equal. apply re_sub_ws_from_app.
    intros b'. now apply re_sub_ws_run.
  - rewrite clean_text_join_split. unfold split.
    now rewrite split_all_space_from.
Qed.

Lemma clean_text_collapses_and_trims_witness :
  let s := lit "a   b" ++ [LF; LF] ++ lit "c" in
  TextProcessor.clean_text (lit " x" ++ [9%N; LF; SPACE] ++ lit "y")
  = TextProcessor.clean_text (lit " x" ++ [SPACE] ++ lit "y")
  /\ TextProcessor.clean_text [9%N; LF; SPACE] = [].
Proof.
  intros s.
  pose proof (clean_text_collapses_and_trims s (lit " x") [9%N; LF; SPACE] (lit "y")
                ltac:(discriminate) ltac:(reflexivity)) as H.
  split; apply H.
Defined.

(** C10.  [clean_text] is idempotent. *)
Theorem clean_text_idempotent (s : str) :
  TextProcessor.clean_text (TextProcessor.clean_text s)
  = TextProcessor.clean_text s.
Proof.
  rewrite (clean_text_join_split (TextProcessor.clean_text s)).
  rewrite (clean_text_join_split s).
  now rewrite split_join by apply split_words.
Qed.

(* ===================================================================== *)
(** * BlockExtractor: [read_docx_text_blocks]                             *)
(* ===================================================================== *)

Section ExtractionFacts.

Lemma strip_space_cons c s : isspace c = true -> strip (c :: s) = strip s.
Proof. intros H. unfold strip. simpl. now rewrite H. Qed.

Lemma strip_nil_all_space s : strip s = [] -> all_space s = true.
Proof.
  induction s as [|c s IH]; [reflexivity|].
  destruct (isspace c) eqn:Hc.
  - rewrite (strip_space_cons _ _ Hc). intros H. simpl. rewrite Hc. auto.
  - unfold strip. simpl. rewrite Hc, (rstrip_cons _ _ Hc). discriminate.
Qed.

Lemma is_blank_all_space text : is_blank text = all_space text.
Proof.
  unfold is_blank, str_eqb. destruct (str_eq_dec (strip text) []) as [E|E].
  - symmetry. now apply strip_nil_all_space.
  - destruct (all_space text) eqn:H; [|reflexivity].
    now rewrite strip_all_space in E.
Qed.

Lemma rstrip_app_space s w : all_space w = true -> rstrip (s ++ w) = rstrip s.
Proof.
  intros H. unfold rstrip. rewrite rev_app_distr.
  rewrite lstrip_all_space; [reflexivity | now rewrite all_space_rev].
Qed.

(** Whitespace added behind a string does not change what [strip] gives:
    the newline the reader puts behind every paragraph is stripped. *)
Lemma strip_app_space s w : all_space w = true -> strip (s ++ w) = strip s.
Proof.
  intros H. induction s as [|c s IH].
  - simpl. rewrite !strip_all_space; auto.
  - destruct (isspace c) eqn:Hc.
    + simpl. now rewrite !(strip_space_cons _ _ Hc).
    + unfold strip. simpl. rewrite Hc.
      change (c :: s ++ w) with ((c :: s) ++ w). now apply rstrip_app_space.
Qed.

Lemma all_space_app a b : all_space (a ++ b) = all_space a && all_space b.
Proof. apply forallb_app. Qed.

Lemma blocks_from_not_empty text_block paragraphs :
  buffer_ok text_block ->
  ~ In [] (DocxReader.blocks_from text_block paragraphs).
Proof.
  revert text_block.
  induction paragraphs as [|text rest IH]; intros tb Hok; simpl.
  - destruct tb as [|c tb]; simpl; [tauto|].
    intros [E|[]]. apply strip_nil_all_space in E.
    destruct Hok as [?|Hok]; congruence.
  - rewrite is_blank_all_space.
    destruct (all_space text) eqn:Ht.
    + destruct tb as [|c tb]; simpl.
      * apply IH. now left.
      * intros [E|Hin].
        -- apply strip_nil_all_space in E.
           destruct Hok as [?|Hok]; congruence.
        -- revert Hin. apply IH. now left.
    + apply IH. right.
      rewrite !all_space_app, Ht. simpl. apply andb_false_r.
Qed.

Lemma blocks_from_only_blank paragraphs :
  forallb is_blank paragraphs = true ->
  DocxReader.blocks_from [] paragraphs = [].
Proof.
  induction paragraphs as [|text rest IH]; simpl; [reflexivity|].
  intros H. apply andb_prop in H as [Ht Hrest].
  rewrite Ht. auto.
Qed.

Lemma blocks_from_single_separated p0 rest :
  is_blank p0 = false ->
  forallb (fun bp => is_blank (fst bp) && negb (is_blank (snd bp))) rest = true ->
  DocxReader.blocks_from [] (single_separated p0 rest)
  = map strip (p0 :: map snd rest).
Proof.
  revert p0. induction rest as [|[b p] rest IH]; intros p0 H0 Hrest.
  - simpl. rewrite H0. simpl.
    replace (truthy (p0 ++ [LF])) with true by (destruct p0; reflexivity).
    now rewrite strip_app_space.
  - simpl in Hrest.
    apply andb_prop in Hrest as [Hbp Hrest].
    apply andb_prop in Hbp as [Hb Hp]. apply negb_true_iff in Hp.
    change (single_separated p0 ((b, p) :: rest))
      with (p0 :: b :: single_separated p rest).
    cbn [DocxReader.blocks_from].
    rewrite H0, Hb. simpl app.
    replace (truthy (p0 ++ [LF])) with true by (destruct p0; reflexivity).
    rewrite strip_app_space by reflexivity.
    rewrite IH by assumption. reflexivity.
Qed.

End ExtractionFacts.

(** C3.  A document of N non-blank paragraphs, each two separated by
    exactly one blank paragraph, is read as exactly N blocks, the trimmed
    texts of the paragraphs in order.  For every document that can be
    opened, no block read is empty, however many blank paragraphs follow
    one another, and a document of blank paragraphs only gives no block. *)
Theorem extraction_blocks (env : Env) (file_path : str) (w : World)
    (p0 : str) (rest : list (str * str)) (doc : list str) :
  is_blank p0 = false ->
  forallb (fun bp => is_blank (fst bp) && negb (is_blank (snd bp))) rest = true ->
  (docx_Document env file_path = inr (single_separated p0 rest) ->
   DocxReader.read_docx_text_blocks env file_path w
   = (inr (map Some (map strip (p0 :: map snd rest))), w)
   /\ length (map strip (p0 :: map snd rest)) = S (length rest))
  /\ (docx_Document env file_path = inr doc ->
      exists blocks,
        DocxReader.read_docx_text_blocks env file_path w
        = (inr (map Some blocks), w)
        /\ ~ In [] blocks
        /\ (forallb is_blank doc = true -> blocks = [])).
Proof.
  intros H0 Hrest. split.
  - intros Hdoc. unfold DocxReader.read_docx_text_blocks. rewrite Hdoc.
    rewrite blocks_from_single_separated by assumption.
    split; [reflexivity|]. simpl. now rewrite !length_map.
  - intros Hdoc. exists (DocxReader.blocks_from [] doc).
    unfold DocxReader.read_docx_text_blocks. rewrite Hdoc.
    split; [reflexivity|]. split.
    + apply blocks_from_not_empty. now left.
    + apply blocks_from_only_blank.
Qed.

Lemma extraction_blocks_witness :
  DocxReader.read_docx_text_blocks
    (Scenario.env_with [lit " a "; []; lit "b"; [SPACE]; lit "c "]
       Scenario.uppercasing_model)
    (lit "in.docx") initial_world
  = (inr [Some (lit "a"); Some (lit "b"); Some (lit "c")], initial_world).
Proof.
  refine (proj1 (proj1
    (extraction_blocks
       (Scenario.env_with [lit " a "; []; lit "b"; [SPACE]; lit "c "]
          Scenario.uppercasing_model)
       (lit "in.docx") initial_world
       (lit " a ") [([], lit "b"); ([SPACE], lit "c ")] [] _ _) _));
    reflexivity.
Defined.

(* ===================================================================== *)
(** * ModelClient: [invoke] and [handle_error]                            *)
(* ===================================================================== *)

(** A delay that [time.sleep] takes raises nothing. *)
Lemma sleep_accepts_no_error s : sleep_accepts s = true -> sleep_error s = None.
Proof.
  unfold sleep_accepts, sleep_error. destruct s as [n|q]; intros H;
    apply andb_true_iff in H; destruct H as [H _].
  - apply Z.leb_le in H. now replace (n <? 0)%Z with false
      by (symmetry; apply Z.ltb_ge; exact H).
  - now rewrite H.
Qed.

(** The sleeps of the backoff are powers of 2: they are not negative. *)
Lemma time_sleep_backoff rc :
  time_sleep (IntSeconds (2 ^ rc)) = emit (Sleep (IntSeconds (2 ^ rc))).
Proof.
  unfold time_sleep, sleep_error.
  now replace (2 ^ rc <? 0)%Z with false
    by (symmetry; apply Z.ltb_ge, Z.pow_nonneg; lia).
Qed.

Ltac run_M :=
  unfold bind, ret, raise, try_except, log, emit,
    get_retry_count, set_retry_count; cbn;
  rewrite ?time_sleep_backoff; unfold emit; cbn.

Section InvokeFacts.

Import LLMInterface.

Variable env : Env.
Variable self : LLMInterface.t.
Variable messages : list message.

(** The message of the terminal failure. *)
Lemma handle_error_message_truthy (error : exn) :
  truthy (lit "Error after " ++ str_of_int (max_retries self)
          ++ lit " retries: " ++ str_of_exn error) = true.
Proof. reflexivity. Qed.

Lemma invoke_body_success w content :
  model_invoke env (model_calls w) messages = inr content ->
  invoke_body env self messages w
  = (inr (Return content),
     {| retry_count := 0;
        model_calls := S (model_calls w);
        save_calls := save_calls w;
        trace := trace w ++ [ModelInvoke messages] |}).
Proof.
  intros H. unfold invoke_body, model_call. run_M. now rewrite H.
Qed.

Lemma invoke_body_retry w e :
  model_invoke env (model_calls w) messages = inl e ->
  (retry_count w < max_retries self)%Z ->
  invoke_body env self messages w
  = (inr Retry,
     {| retry_count := retry_count w + 1;
        model_calls := S (model_calls w);
        save_calls := save_calls w;
        trace := trace w ++
                 [ModelInvoke messages;
                  Log ERROR (LLM_invocation_error e);
                  Log INFO (Retrying_attempt (retry_count w + 1)
                                             (max_retries self));
                  Sleep (IntSeconds (2 ^ (retry_count w + 1)))] |}).
Proof.
  intros H Hlt. unfold invoke_body, model_call, handle_error. run_M.
  rewrite H. cbn. apply Z.ltb_lt in Hlt. rewrite Hlt. cbn.
  rewrite time_sleep_backoff. unfold emit. cbn.
  rewrite <- !app_assoc. reflexivity.
Qed.

Lemma invoke_body_exhausted w e :
  model_invoke env (model_calls w) messages = inl e ->
  (max_retries self <= retry_count w)%Z ->
  invoke_body env self messages w
  = (inl (Exception (lit "Error after " ++ str_of_int (max_retries self)
                     ++ lit " retries: " ++ str_of_exn e)),
     {| retry_count := 0;
        model_calls := S (model_calls w);
        save_calls := save_calls w;
        trace := trace w ++
                 [ModelInvoke messages;
                  Log ERROR (LLM_invocation_error e)] |}).
Proof.
  intros H Hle. unfold invoke_body, model_call, handle_error. run_M.
  rewrite H. cbn. apply Z.ltb_ge in Hle. rewrite Hle. cbn.
  rewrite <- !app_assoc. reflexivity.
Qed.

(** Enough fuel: [invoke_fuel] gives a result once the fuel passes the
    number of retries left, and more fuel gives the same. *)
Lemma invoke_fuel_enough (n : nat) :
  forall w, (Z.to_nat (max_retries self - retry_count w) < n)%nat ->
  exists r, forall m, (n <= m)%nat ->
    invoke_fuel m env self messages w = Some r.
Proof.
  induction n as [|n IH]; intros w Hn; [lia|].
  destruct (model_invoke env (model_calls w) messages) as [e|content] eqn:Hm.
  - destruct (Z.lt_ge_cases (retry_count w) (max_retries self)) as [Hlt|Hge].
    + pose proof (invoke_body_retry _ _ Hm Hlt) as Hb.
      match type of Hb with _ = (_, ?w1) => set (w' := w1) in * end.
      destruct (IH w') as [r Hr]; [unfold w'; cbn; lia|].
      exists r. intros [|m] Hle; [lia|].
      cbn [invoke_fuel]. rewrite Hb.
      apply Hr. lia.
    + eexists. intros [|m] Hle; [lia|].
      cbn [invoke_fuel]. rewrite (invoke_body_exhausted _ _ Hm Hge).
      reflexivity.
  - eexists. intros [|m] Hle; [lia|].
    cbn [invoke_fuel]. rewrite (invoke_body_success _ _ Hm). reflexivity.
Qed.

Lemma invoke_fuel_depth w fuel :
  (depth self w <= fuel)%nat ->
  invoke_fuel fuel env self messages w = Some (invoke env self messages w).
Proof.
  intros Hle.
  destruct (invoke_fuel_enough (depth self w) w ltac:(unfold depth; lia))
    as [r Hr].
  unfold invoke. rewrite (Hr (depth self w)) by lia. now apply Hr.
Qed.

(** The equation of the source: [invoke] returns the content, raises the
    terminal failure, or is what its recursive call is. *)
Lemma invoke_unfold w :
  invoke env self messages w =
  match invoke_body env self messages w with
  | (inl e, w') => (inl e, w')
  | (inr (Return content), w') => (inr content, w')
  | (inr Retry, w') => invoke env self messages w'
  end.
Proof.
  unfold invoke at 1. unfold depth. cbn [invoke_fuel].
  destruct (model_invoke env (model_calls w) messages) as [e|content] eqn:Hm.
  - destruct (Z.lt_ge_cases (retry_count w) (max_retries self)) as [Hlt|Hge].
    + rewrite (invoke_body_retry _ _ Hm Hlt).
      match goal with |- context [invoke_fuel _ _ _ _ ?w1] => set (w' := w1) end.
      destruct (invoke_fuel_enough (depth self w') w'
                  ltac:(unfold depth; lia)) as [r Hr].
      unfold invoke. rewrite (Hr (depth self w')) by lia.
      rewrite Hr; [reflexivity|]. unfold depth, w'. cbn. lia.
    + now rewrite (invoke_body_exhausted _ _ Hm Hge).
  - now rewrite (invoke_body_success _ _ Hm).
Qed.

(** RetryState: whatever the backend does, [invoke] ends with the retry
    counter at 0, so every call of [invoke] starts from 0. *)
Lemma invoke_resets_retry_count w :
  retry_count (snd (invoke env self messages w)) = 0%Z.
Proof.
  remember (depth self w) as n eqn:En.
  assert (depth self w <= n)%nat as Hn by lia. clear En.
  revert w Hn. induction n as [|n IH]; intros w Hn; [unfold depth in Hn; lia|].
  rewrite invoke_unfold.
  destruct (model_invoke env (model_calls w) messages) as [e|content] eqn:Hm.
  - destruct (Z.lt_ge_cases (retry_count w) (max_retries self)) as [Hlt|Hge].
    + rewrite (invoke_body_retry _ _ Hm Hlt). apply IH.
      unfold depth in *. cbn. lia.
    + now rewrite (invoke_body_exhausted _ _ Hm Hge).
  - now rewrite (invoke_body_success _ _ Hm).
Qed.

Lemma model_invokes_app t1 t2 :
  model_invokes (t1 ++ t2) = model_invokes t1 ++ model_invokes t2.
Proof. apply flat_map_app. Qed.

Lemma sleeps_app t1 t2 : sleeps (t1 ++ t2) = sleeps t1 ++ sleeps t2.
Proof. apply flat_map_app. Qed.

Lemma backoff_sleeps_app t1 t2 :
  backoff_sleeps (t1 ++ t2) = backoff_sleeps t1 ++ backoff_sleeps t2.
Proof. apply flat_map_app. Qed.

(** A backend that fails [k] times and then answers, from a world with
    at least [k] retries left. *)
Lemma invoke_fails_then_answers (v : str) (k : nat) :
  forall (err : nat -> exn) (w : World),
  (retry_count w + Z.of_nat k <= max_retries self)%Z ->
  (forall i, (i < k)%nat ->
     model_invoke env (model_calls w + i) messages = inl (err i)) ->
  model_invoke env (model_calls w + k) messages = inr v ->
  exists w' t,
    invoke env self messages w = (inr v, w')
    /\ retry_count w' = 0%Z
    /\ model_calls w' = (model_calls w + k + 1)%nat
    /\ save_calls w' = save_calls w
    /\ trace w' = trace w ++ t
    /\ model_invokes t = repeat messages (k + 1)
    /\ sleeps t
       = map (fun i => IntSeconds (2 ^ (retry_count w + Z.of_nat i)))
             (seq 1 k).
Proof.
  induction k as [|k IH]; intros err w Hle Hfail Hok.
  - rewrite Nat.add_0_r in Hok.
    rewrite invoke_unfold, (invoke_body_success _ _ Hok).
    eexists _, _. repeat split; cbn; try reflexivity. lia.
  - pose proof (Hfail 0%nat ltac:(lia)) as H0. rewrite Nat.add_0_r in H0.
    rewrite invoke_unfold, (invoke_body_retry _ _ H0) by lia.
    match goal with |- context [invoke _ _ _ ?w1] => set (w1' := w1) end.
    destruct (IH (fun i => err (S i)) w1') as (w' & t & Hi & Hrc & Hmc & Hsc & Ht & Hms & Hsl).
    + unfold w1'; cbn. lia.
    + intros i Hi. unfold w1'; cbn.
      rewrite <- (Hfail (S i)) by lia. f_equal. lia.
    + unfold w1'; cbn. rewrite <- Hok. f_equal. lia.
    + eexists w', _. rewrite Hi.
      split; [reflexivity|]. split; [exact Hrc|].
      split; [rewrite Hmc; unfold w1'; cbn; lia|].
      split; [rewrite Hsc; reflexivity|].
      split; [rewrite Ht; unfold w1'; cbn; rewrite <- app_assoc; reflexivity|].
      split.
      * rewrite model_invokes_app, Hms. reflexivity.
      * rewrite sleeps_app, Hsl. cbn [sleeps flat_map app seq map].
        f_equal.
        rewrite <- (seq_shift k 1), map_map. apply map_ext.
        intros i. unfold w1'; cbn. do 2 f_equal. lia.
Qed.

(** A backend that fails on every call, from a world with [n] retries
    left. *)
Lemma invoke_always_fails (err : nat -> exn) :
  (forall i, model_invoke env i messages = inl (err i)) ->
  forall (n : nat) (w : World),
  (max_retries self - retry_count w = Z.of_nat n)%Z ->
  exists w' t,
    invoke env self messages w
    = (inl (Exception (lit "Error after " ++ str_of_int (max_retries self)
                       ++ lit " retries: "
                       ++ str_of_exn (err (model_calls w + n)%nat))), w')
    /\ retry_count w' = 0%Z
    /\ model_calls w' = (model_calls w + n + 1)%nat
    /\ save_calls w' = save_calls w
    /\ trace w' = trace w ++ t
    /\ model_invokes t = repeat messages (n + 1)
    /\ sleeps t
       = map (fun i => IntSeconds (2 ^ (retry_count w + Z.of_nat i)))
             (seq 1 n).
Proof.
  intros Hfail. induction n as [|n IH]; intros w Hn.
  - rewrite invoke_unfold, (invoke_body_exhausted _ _ (Hfail _)) by lia.
    rewrite Nat.add_0_r.
    eexists _, _. repeat split; cbn; try reflexivity. lia.
  - rewrite invoke_unfold, (invoke_body_retry _ _ (Hfail _)) by lia.
    match goal with |- context [invoke _ _ _ ?w1] => set (w1' := w1) end.
    destruct (IH w1') as (w' & t & Hi & Hrc & Hmc & Hsc & Ht & Hms & Hsl).
    + unfold w1'; cbn. lia.
    + eexists w', _. rewrite Hi.
      split; [unfold w1'; cbn; repeat f_equal; lia|].
      split; [exact Hrc|].
      split; [rewrite Hmc; unfold w1'; cbn; lia|].
      split; [rewrite Hsc; reflexivity|].
      split; [rewrite Ht; unfold w1'; cbn; rewrite <- app_assoc; reflexivity|].
      split.
      * rewrite model_invokes_app, Hms. reflexivity.
      * rewrite sleeps_app, Hsl. cbn [sleeps flat_map app seq map].
        f_equal.
        rewrite <- (seq_shift n 1), map_map. apply map_ext.
        intros i. unfold w1'; cbn. do 2 f_equal. lia.
Qed.

End InvokeFacts.

Lemma sum_pow2 (k : nat) :
  sum_Z (map (fun i => 2 ^ Z.of_nat i)%Z (seq 1 k)) = (2 ^ (Z.of_nat k + 1) - 2)%Z.
Proof.
  induction k as [|k IH]; [reflexivity|].
  rewrite seq_S, map_app. unfold sum_Z in *. rewrite fold_right_app. cbn [map fold_right].
  replace (1 + k)%nat with (S k) by lia.
  assert (forall l a, fold_right Z.add a l = (fold_right Z.add 0 l + a)%Z) as Hacc.
  { induction l as [|x l IHl]; intros a; cbn; [lia|]. rewrite IHl. lia. }
  rewrite Hacc, IH.
  replace (Z.of_nat (S k) + 1)%Z with (Z.succ (Z.of_nat k + 1)) by lia.
  rewrite Z.pow_succ_r by lia.
  replace (Z.of_nat (S k)) with (Z.of_nat k + 1)%Z by lia. lia.
Qed.

Lemma backoff_sleeps_of_sleeps (t : list event) (l : list Z) :
  sleeps t = map IntSeconds l -> backoff_sleeps t = l.
Proof.
  revert l. induction t as [|ev t IH]; intros l H.
  - destruct l; [reflexivity | discriminate].
  - destruct ev as [lv m|s|ms|p ps]; cbn in *; auto.
    destruct l as [|n l]; [discriminate|]. cbn in H.
    injection H as -> H. cbn. f_equal. auto.
Qed.

(** C1 (amended).  A ModelClient whose backend raises on every call raises
    the terminal failure after exactly [max_retries + 1] calls of the
    backend, the first attempt and [max_retries] retries; the failure
    carries the error of the last call, the retries have slept 2, 4, ...,
    [2 ^ max_retries] seconds, and the retry counter is 0 afterwards. *)
Theorem invoke_terminal_failure_after_retries
    (env : Env) (self : LLMInterface.t) (messages : list message)
    (err : nat -> exn) (w : World) :
  (forall i, model_invoke env i messages = inl (err i)) ->
  retry_count w = 0%Z ->
  (0 <= LLMInterface.max_retries self)%Z ->
  let n := Z.to_nat (LLMInterface.max_retries self) in
  exists w' t,
    LLMInterface.invoke env self messages w
    = (inl (Exception
              (lit "Error after " ++ str_of_int (LLMInterface.max_retries self)
               ++ lit " retries: "
               ++ str_of_exn (err (model_calls w + n)%nat))), w')
    /\ retry_count w' = 0%Z
    /\ model_calls w' = (model_calls w + (n + 1))%nat
    /\ trace w' = trace w ++ t
    /\ model_invokes t = repeat messages (n + 1)
    /\ backoff_sleeps t = map (fun i => 2 ^ Z.of_nat i)%Z (seq 1 n).
Proof.
  intros Hfail Hrc Hmax n.
  destruct (invoke_always_fails env self messages err Hfail n w)
    as (w' & t & Hi & Hrc' & Hmc & _ & Ht & Hms & Hsl); [unfold n; lia|].
  exists w', t. repeat split; try assumption; [lia|].
  apply backoff_sleeps_of_sleeps. rewrite Hsl, map_map.
  apply map_ext. intros i. now rewrite Hrc.
Qed.

Lemma invoke_terminal_failure_after_retries_witness :
  exists w' t,
    LLMInterface.invoke (Scenario.env_with [] Scenario.failing_model)
      (Scenario.groq 3) Scenario.messages initial_world
    = (inl (Exception (lit "Error after 3 retries: connection refused")), w')
    /\ retry_count w' = 0%Z
    /\ model_calls w' = 4%nat
    /\ trace w' = t
    /\ model_invokes t = repeat Scenario.messages 4
    /\ backoff_sleeps t = [2; 4; 8]%Z.
Proof.
  apply (invoke_terminal_failure_after_retries
           (Scenario.env_with [] Scenario.failing_model)
           (Scenario.groq 3) Scenario.messages
           (fun _ => OtherException (lit "connection refused")) initial_world).
  - intros i. reflexivity.
  - reflexivity.
  - simpl. lia.
Defined.

(** C1 as stated fails: with [max_retries = 3] a backend that always
    raises is called 4 times before the terminal failure, not 3. *)
Lemma invoke_attempts_counterexample :
  let r := LLMInterface.invoke (Scenario.env_with [] Scenario.failing_model)
             (Scenario.groq 3) Scenario.messages initial_world in
  fst r = inl (Exception (lit "Error after 3 retries: connection refused"))
  /\ retry_count (snd r) = 0%Z
  /\ length (model_invokes (trace (snd r))) = 4%nat
  /\ model_calls (snd r) = 4%nat
  /\ model_calls (snd r)
     <> Z.to_nat (LLMInterface.max_retries (Scenario.groq 3)).
Proof.
  vm_compute. repeat split; try reflexivity. discriminate.
Qed.

(** C2.  A ModelClient whose backend fails exactly [k] times, with
    [k < max_retries], and then succeeds returns the success value and
    leaves the retry counter at 0; the sleeps of the call are the [k]
    back-off delays, the i-th of [2 ^ i] seconds starting at 2, and their
    total is [sum(2^i for i in 1..k)], that is [2^(k+1) - 2], seconds. *)
Theorem invoke_succeeds_after_k_failures
    (env : Env) (self : LLMInterface.t) (messages : list message)
    (err : nat -> exn) (v : str) (k : nat) (w : World) :
  retry_count w = 0%Z ->
  (Z.of_nat k < LLMInterface.max_retries self)%Z ->
  (forall i, (i < k)%nat ->
     model_invoke env (model_calls w + i) messages = inl (err i)) ->
  model_invoke env (model_calls w + k) messages = inr v ->
  exists w' t,
    LLMInterface.invoke env self messages w = (inr v, w')
    /\ retry_count w' = 0%Z
    /\ model_calls w' = (model_calls w + k + 1)%nat
    /\ trace w' = trace w ++ t
    /\ sleeps t = map (fun i => IntSeconds (2 ^ Z.of_nat i)) (seq 1 k)
    /\ sum_Z (backoff_sleeps t)
       = sum_Z (map (fun i => 2 ^ Z.of_nat i)%Z (seq 1 k))
    /\ sum_Z (backoff_sleeps t) = (2 ^ (Z.of_nat k + 1) - 2)%Z.
Proof.
  intros Hrc Hk Hfail Hok.
  destruct (invoke_fails_then_answers env self messages v k err w)
    as (w' & t & Hi & Hrc' & Hmc & _ & Ht & _ & Hsl); try assumption; [lia|].
  assert (sleeps t = map IntSeconds (map (fun i => 2 ^ Z.of_nat i)%Z (seq 1 k)))
    as Hsl'.
  { rewrite Hsl, map_map. apply map_ext. intros i. now rewrite Hrc. }
  exists w', t. repeat split; try assumption.
  - now rewrite Hsl', map_map.
  - now rewrite (backoff_sleeps_of_sleeps _ _ Hsl').
  - rewrite (backoff_sleeps_of_sleeps _ _ Hsl'). apply sum_pow2.
Qed.

Lemma invoke_succeeds_after_k_failures_witness :
  exists w' t,
    LLMInterface.invoke (Scenario.env_with [] (Scenario.flaky_model 2))
      (Scenario.groq 3) Scenario.messages initial_world
    = (inr (lit "HELLO"), w')
    /\ retry_count w' = 0%Z
    /\ model_calls w' = 3%nat
    /\ trace w' = t
    /\ sleeps t = [IntSeconds 2; IntSeconds 4]
    /\ sum_Z (backoff_sleeps t) = 6%Z
    /\ sum_Z (backoff_sleeps t) = 6%Z.
Proof.
  apply (invoke_succeeds_after_k_failures
           (Scenario.env_with [] (Scenario.flaky_model 2))
           (Scenario.groq 3) Scenario.messages
           (fun _ => OtherException (lit "timeout")) (lit "HELLO") 2
           initial_world).
  - reflexivity.
  - simpl. lia.
  - intros i Hi. simpl. unfold Scenario.flaky_model.
    destruct (Nat.ltb_spec i 2); [reflexivity | lia].
  - reflexivity.
Defined.

(* ===================================================================== *)
(** * Pipeline: [_process_text_block] and [process]                       *)
(* ===================================================================== *)

Lemma bind_inr {A B} (m : M A) (k : A -> M B) w a w' :
  m w = (inr a, w') -> bind m k w = k a w'.
Proof. intros H. unfold bind. now rewrite H. Qed.

Lemma bind_inl {A B} (m : M A) (k : A -> M B) w e w' :
  m w = (inl e, w') -> bind m k w = (inl e, w').
Proof. intros H. unfold bind. now rewrite H. Qed.

Lemma log_run lv m w : log lv m w = (inr tt, add_events w [Log lv m]).
Proof. reflexivity. Qed.

Section PipelineFacts.

Import ShAIyarProcessor.

Variable env : Env.
Variable self : ShAIyarProcessor.t.

Abbreviation messages_of text_block :=
  (LLMInterface.create_messages (system_message self)
     (clean_text (text_processor self) text_block)).

(** A block that is empty after cleaning is dropped: a warning, no call. *)
Lemma _process_text_block_empty text_block block_index w :
  clean_text (text_processor self) text_block = [] ->
  _process_text_block env self text_block block_index w
  = (inr None,
     add_events w [Log WARNING (Block_is_empty_after_cleaning block_index)]).
Proof.
  intros H. unfold _process_text_block. rewrite H. reflexivity.
Qed.

(** Any other block: the analysis is logged, the model is invoked with
    the cleaned text, and a failure of [invoke] is logged and turned
    into [None]. *)
Lemma _process_text_block_invoke text_block block_index w :
  clean_text (text_processor self) text_block <> [] ->
  _process_text_block env self text_block block_index w
  = match LLMInterface.invoke env (llm_interface self) (messages_of text_block)
            (add_events w
               [Log INFO (Processing_block_analysis block_index
                  (analyze_text_block (text_processor self)
                     (clean_text (text_processor self) text_block)))])
    with
    | (inr result, w') =>
        (inr (Some result),
         add_events w' [Log INFO (Successfully_processed_block block_index)])
    | (inl e, w') =>
        (inr None,
         add_events w' [Log ERROR (Error_processing_block block_index e)])
    end.
Proof.
  intros H. unfold _process_text_block.
  destruct (clean_text (text_processor self) text_block) as [|c s] eqn:E;
    [congruence|].
  run_M. fold (add_events w
               [Log INFO (Processing_block_analysis block_index
                  (analyze_text_block (text_processor self) (c :: s)))]).
  destruct (LLMInterface.invoke _ _ _ _) as [[e|result] w']; reflexivity.
Qed.

Lemma _process_text_block_returns text_block block_index w :
  exists r w', _process_text_block env self text_block block_index w = (inr r, w').
Proof.
  destruct (clean_text (text_processor self) text_block) as [|c s] eqn:E.
  - rewrite _process_text_block_empty by exact E. eauto.
  - rewrite _process_text_block_invoke by congruence.
    destruct (LLMInterface.invoke _ _ _ _) as [[e|result] w']; eauto.
Qed.

Abbreviation path :=
  (Config.output_docx_path (Config.file_config (config self))).
Abbreviation sep := (Config.separator (Config.file_config (config self))).

Lemma add_events_app w t1 t2 :
  add_events (add_events w t1) t2 = add_events w (t1 ++ t2).
Proof. unfold add_events. cbn. now rewrite app_assoc. Qed.

Lemma add_events_nil w : add_events w [] = w.
Proof. destruct w. unfold add_events. cbn. now rewrite app_nil_r. Qed.

(** The pause after a block: it raises what [time.sleep] raises for the
    delay, or it sleeps. *)
Lemma pause_run i len w :
  (if (Z.of_nat i <? Z.of_nat len - 1)%Z
   then time_sleep (Config.delay_between_requests
                      (Config.processing_config (config self)))
   else ret tt) w
  = match pause_error self i len with
    | Some e => (inl e, w)
    | None => (inr tt, add_events w (pacing self i len))
    end.
Proof.
  unfold pacing, pause_error, time_sleep.
  destruct (Z.of_nat i <? Z.of_nat len - 1)%Z.
  - destruct (sleep_error _); reflexivity.
  - unfold ret. now rewrite add_events_nil.
Qed.

Lemma pause_error_accepted i len :
  delay_accepted self -> pause_error self i len = None.
Proof.
  intros H. unfold pause_error. destruct (_ <? _)%Z; [|reflexivity].
  now apply sleep_accepts_no_error.
Qed.

(** The block gave nothing to write: the locals are as before. *)
Lemma process_block_nothing total_blocks len i text_block l w r w1 :
  _process_text_block env self text_block i
    (add_events w [Log INFO (Processing_block_of (i + 1) total_blocks)])
  = (inr r, w1) ->
  truthy_opt r = false ->
  process_block env self total_blocks len i text_block l w
  = match pause_error self i len with
    | Some e => (inl e, w1)
    | None => (inr l, add_events w1 (pacing self i len))
    end.
Proof.
  intros Hp Hr. unfold process_block. unfold bind at 1. unfold log, emit.
  fold (add_events w [Log INFO (Processing_block_of (i + 1) total_blocks)]).
  unfold bind at 1. rewrite Hp.
  destruct r as [[|c pb]|]; try discriminate;
    unfold bind, ret; cbn [truthy]; rewrite pause_run;
    now destruct (pause_error self i len).
Qed.

(** The block gave a text: it is appended and the document is saved at
    once. *)
Lemma process_block_saved total_blocks len i text_block l w pb w1 :
  _process_text_block env self text_block i
    (add_events w [Log INFO (Processing_block_of (i + 1) total_blocks)])
  = (inr (Some pb), w1) ->
  truthy pb = true ->
  docx_save env (save_calls w1) path (add_paragraphs sep l pb) = None ->
  process_block env self total_blocks len i text_block l w
  = match pause_error self i len with
    | Some e =>
        (inl e,
         add_events (after_save w1)
           [Save path (add_paragraphs sep l pb);
            Log INFO (Saved_progress_for_block (i + 1))])
    | None =>
        (inr {| output_doc := add_paragraphs sep l pb;
                is_first_block_written := false;
                successful_blocks := successful_blocks l + 1 |},
         add_events (after_save w1)
           ([Save path (add_paragraphs sep l pb);
             Log INFO (Saved_progress_for_block (i + 1))]
            ++ pacing self i len))
    end.
Proof.
  intros Hp Hpb Hsave. unfold process_block. unfold bind at 1. unfold log, emit.
  fold (add_events w [Log INFO (Processing_block_of (i + 1) total_blocks)]).
  unfold bind at 1. rewrite Hp. rewrite Hpb.
  unfold bind at 1. unfold bind at 1. unfold bind at 1. unfold save at 1.
  rewrite Hsave. unfold ret at 1.
  unfold bind. rewrite pause_run. unfold ret.
  destruct (pause_error self i len);
    f_equal; unfold add_events, after_save; cbn; now rewrite <- !app_assoc.
Qed.

(** The save raises: so does the body of the loop. *)
Lemma process_block_save_raises total_blocks len i text_block l w pb w1 e :
  _process_text_block env self text_block i
    (add_events w [Log INFO (Processing_block_of (i + 1) total_blocks)])
  = (inr (Some pb), w1) ->
  truthy pb = true ->
  docx_save env (save_calls w1) path (add_paragraphs sep l pb) = Some e ->
  process_block env self total_blocks len i text_block l w
  = (inl e, after_save w1).
Proof.
  intros Hp Hpb Hsave. unfold process_block. unfold bind at 1. unfold log, emit.
  fold (add_events w [Log INFO (Processing_block_of (i + 1) total_blocks)]).
  unfold bind at 1. rewrite Hp. rewrite Hpb.
  unfold bind at 1. unfold bind at 1. unfold bind at 1. unfold save at 1.
  rewrite Hsave. reflexivity.
Qed.

Hypothesis delay_is_accepted : delay_accepted self.

Lemma process_block_nothing_paused total_blocks len i text_block l w r w1 :
  _process_text_block env self text_block i
    (add_events w [Log INFO (Processing_block_of (i + 1) total_blocks)])
  = (inr r, w1) ->
  truthy_opt r = false ->
  process_block env self total_blocks len i text_block l w
  = (inr l, add_events w1 (pacing self i len)).
Proof.
  intros Hp Hr. rewrite (process_block_nothing _ _ _ _ _ _ _ _ Hp Hr).
  now rewrite pause_error_accepted.
Qed.

Lemma process_block_saved_paused total_blocks len i text_block l w pb w1 :
  _process_text_block env self text_block i
    (add_events w [Log INFO (Processing_block_of (i + 1) total_blocks)])
  = (inr (Some pb), w1) ->
  truthy pb = true ->
  docx_save env (save_calls w1) path (add_paragraphs sep l pb) = None ->
  process_block env self total_blocks len i text_block l w
  = (inr {| output_doc := add_paragraphs sep l pb;
            is_first_block_written := false;
            successful_blocks := successful_blocks l + 1 |},
     add_events (after_save w1)
       ([Save path (add_paragraphs sep l pb);
         Log INFO (Saved_progress_for_block (i + 1))]
        ++ pacing self i len)).
Proof.
  intros Hp Hpb Hsave.
  rewrite (process_block_saved _ _ _ _ _ _ _ _ Hp Hpb Hsave).
  now rewrite pause_error_accepted.
Qed.

Hypothesis saves_succeed : forall n p d, docx_save env n p d = None.

Lemma process_block_returns total_blocks len i text_block l w :
  exists l' w',
    process_block env self total_blocks len i text_block l w = (inr l', w').
Proof.
  destruct (_process_text_block_returns text_block i
              (add_events w [Log INFO (Processing_block_of (i + 1) total_blocks)]))
    as (r & w1 & Hp).
  destruct (truthy_opt r) eqn:Hr.
  - destruct r as [pb|]; [|discriminate].
    erewrite process_block_saved_paused; eauto.
  - erewrite process_block_nothing_paused; eauto.
Qed.

Lemma process_loop_returns total_blocks len text_blocks :
  forall i l w, exists l' w',
    process_loop env self total_blocks len i text_blocks l w = (inr l', w').
Proof.
  induction text_blocks as [|[text_block|] rest IH]; intros i l w;
    cbn [process_loop].
  - unfold ret. eauto.
  - unfold bind.
    destruct (process_block_returns total_blocks len i text_block l w)
      as (l1 & w1 & ->).
    apply IH.
  - apply IH.
Qed.

Lemma read_docx_text_blocks_returns file_path w :
  exists blocks w',
    DocxReader.read_docx_text_blocks env file_path w = (inr blocks, w').
Proof.
  unfold DocxReader.read_docx_text_blocks.
  destruct (docx_Document env file_path) as [e|paragraphs];
    [destruct e|]; run_M; eauto.
Qed.

Lemma process_try_returns w :
  fst (Config.validate env (config self) w) = inr true ->
  exists l w', process_try env self w = (inr (true, l), w').
Proof.
  intros Hv. unfold process_try.
  destruct (Config.validate env (config self) w) as [rv wv] eqn:Ev.
  cbn in Hv. subst rv. rewrite (bind_inr _ _ _ _ _ Ev).
  destruct (read_docx_text_blocks_returns
              (Config.input_docx_path (Config.file_config (config self))) wv)
    as (blocks & wb & Eb).
  rewrite (bind_inr _ _ _ _ _ Eb).
  rewrite (bind_inr _ _ _ _ _ (log_run _ _ _)).
  match goal with
  | |- context [process_loop env self ?t ?n 0 blocks locals_init] =>
      destruct (process_loop_returns t n blocks 0 locals_init
                  (add_events wb [Log INFO (Starting_processing_of_blocks t)]))
        as (l1 & w1 & El)
  end.
  rewrite (bind_inr _ _ _ _ _ El).
  rewrite (bind_inr _ _ _ _ _ (log_run _ _ _)).
  unfold ret. eauto.
Qed.

Lemma process_returns_true w :
  fst (Config.validate env (config self) w) = inr true ->
  exists w', process env self w = (inr true, w').
Proof.
  intros Hv. destruct (process_try_returns w Hv) as (l & w' & E).
  unfold process, try_except. rewrite (bind_inr _ _ _ _ _ E). unfold ret. eauto.
Qed.

End PipelineFacts.

(** What [main] runs from its first log record on, with the
    configuration it has after the overrides. *)
Abbreviation main_with env config :=
  (log INFO Starting_ShAIyar;;
   try_except
     (Config.validate env config;;
      processor <- ShAIyarProcessor.__init__ env config;;
      success <- ShAIyarProcessor.process env processor;;
      if success then
        log INFO Document_processing_completed_successfully;;
        ret 0%Z
      else
        log ERROR Document_processing_failed;;
        ret 1%Z)
     (fun e =>
        log ERROR (Application_error e);;
        ret 1%Z)).

Section RunFacts.

Import ShAIyarProcessor.

Variable env : Env.

Lemma validate_keeps_world config w :
  snd (Config.validate env config w) = w.
Proof.
  unfold Config.validate.
  repeat match goal with |- context [if ?c then _ else _] => destruct c end;
    reflexivity.
Qed.

Lemma init_config config w p w' :
  __init__ env config w = (inr p, w') -> ShAIyarProcessor.config p = config.
Proof.
  unfold __init__, bind.
  destruct (LLMFactory.create_llm_interface _ _ _ w) as [[e|llm] w1];
    [discriminate|].
  unfold _load_system_message.
  destruct (open_read env _); run_M; intros H; injection H as <- _; reflexivity.
Qed.

Lemma read_docx_text_blocks_failure file_path e w :
  docx_Document env file_path = inl e ->
  DocxReader.read_docx_text_blocks env file_path w
  = (inr [None], add_events w [Log ERROR (DocxReader.read_failure_log file_path e)]).
Proof.
  intros H. unfold DocxReader.read_docx_text_blocks. rewrite H.
  destruct e; reflexivity.
Qed.

Lemma process_try_unreadable self e w :
  fst (Config.validate env (config self) w) = inr true ->
  docx_Document env (Config.input_docx_path (Config.file_config (config self)))
  = inl e ->
  process_try env self w
  = (inr (true, locals_init),
     add_events w
       [Log ERROR (DocxReader.read_failure_log
                     (Config.input_docx_path (Config.file_config (config self))) e);
        Log INFO (Starting_processing_of_blocks 0);
        Log INFO (Successfully_processed_blocks 0 0)]).
Proof.
  intros Hv Hdoc. unfold process_try.
  pose proof (validate_keeps_world (config self) w) as Hw.
  destruct (Config.validate env (config self) w) as [rv wv] eqn:Ev.
  cbn in Hv, Hw. subst rv wv.
  rewrite (bind_inr _ _ _ _ _ Ev).
  rewrite (bind_inr _ _ _ _ _ (read_docx_text_blocks_failure _ _ _ Hdoc)).
  cbn. unfold add_events. cbn. rewrite <- !app_assoc. reflexivity.
Qed.

(** A run whose input cannot be read: no block, and [True]. *)
Lemma process_unreadable self e w :
  fst (Config.validate env (config self) w) = inr true ->
  docx_Document env (Config.input_docx_path (Config.file_config (config self)))
  = inl e ->
  process env self w
  = (inr true,
     add_events w
       [Log ERROR (DocxReader.read_failure_log
                     (Config.input_docx_path (Config.file_config (config self))) e);
        Log INFO (Starting_processing_of_blocks 0);
        Log INFO (Successfully_processed_blocks 0 0)]).
Proof.
  intros Hv Hdoc. unfold process, try_except.
  rewrite (bind_inr _ _ _ _ _ (process_try_unreadable _ _ _ Hv Hdoc)).
  reflexivity.
Qed.

(** [main] once the command line is parsed, logging is set up and the
    configuration is built. *)
Lemma main_started inv args loaded w :
  parse_args inv = inr args ->
  logging_FileHandler inv (lit "logs/shaiyar.log") = None ->
  Config.__init__ (config_files inv) (Args.config args) = inr loaded ->
  main env inv w = main_with env (overrides args loaded) w.
Proof.
  intros Hargs Hlog Hconfig. unfold main, setup_logging.
  rewrite Hargs, Hlog, Hconfig. reflexivity.
Qed.

Lemma main_validation_fails inv args loaded w e :
  parse_args inv = inr args ->
  logging_FileHandler inv (lit "logs/shaiyar.log") = None ->
  Config.__init__ (config_files inv) (Args.config args) = inr loaded ->
  fst (Config.validate env (overrides args loaded)
         (add_events w [Log INFO Starting_ShAIyar])) = inl e ->
  fst (main env inv w) = inr 1%Z.
Proof.
  intros Hargs Hlog Hconfig Hv.
  rewrite (main_started inv args loaded w Hargs Hlog Hconfig).
  rewrite (bind_inr _ _ _ _ _ (log_run _ _ _)).
  unfold try_except.
  destruct (Config.validate env (overrides args loaded) _) as [rv wv] eqn:Ev.
  cbn in Hv. subst rv. rewrite (bind_inl _ _ _ _ _ Ev). reflexivity.
Qed.

Lemma validate_missing_input config w :
  os_path_exists env (Config.input_docx_path (Config.file_config config)) = false ->
  exists e, fst (Config.validate env config w) = inl e.
Proof.
  intros H. unfold Config.validate. rewrite H.
  destruct (_ && _); cbn; eauto.
Qed.

End RunFacts.

(** C4 (amended).  When the configuration validates, no save of the
    output document raises and [time.sleep] takes the configured delay,
    [process] returns [True], however many blocks fail at the model and
    whether or not the extraction failed.  A terminal failure of the
    ModelClient on a block is logged and makes [None] the outcome of that
    block only: the loop goes on with the next block, its document and its
    count of successes unchanged. *)
Theorem process_completes_despite_block_failures
    (env : Env) (self : ShAIyarProcessor.t) (w : World) :
  fst (Config.validate env (ShAIyarProcessor.config self) w) = inr true ->
  (forall n p d, docx_save env n p d = None) ->
  ShAIyarProcessor.delay_accepted self ->
  (exists w', ShAIyarProcessor.process env self w = (inr true, w'))
  /\ (forall total_blocks len i text_block rest l w0 e w1,
        let tp := ShAIyarProcessor.text_processor self in
        let cleaned_text := ShAIyarProcessor.clean_text tp text_block in
        let w_start :=
          add_events w0 [Log INFO (Processing_block_of (i + 1) total_blocks)] in
        cleaned_text <> [] ->
        LLMInterface.invoke env (ShAIyarProcessor.llm_interface self)
          (LLMInterface.create_messages
             (ShAIyarProcessor.system_message self) cleaned_text)
          (add_events w_start
             [Log INFO (Processing_block_analysis i
                (ShAIyarProcessor.analyze_text_block tp cleaned_text))])
        = (inl e, w1) ->
        ShAIyarProcessor._process_text_block env self text_block i w_start
        = (inr None, add_events w1 [Log ERROR (Error_processing_block i e)])
        /\ ShAIyarProcessor.process_loop env self total_blocks len i
             (Some text_block :: rest) l w0
           = ShAIyarProcessor.process_loop env self total_blocks len (S i) rest l
               (add_events w1
                  (Log ERROR (Error_processing_block i e)
                   :: ShAIyarProcessor.pacing self i len))).
Proof.
  intros Hv Hsaves Hdelay. split.
  - now apply process_returns_true.
  - intros total_blocks len i text_block rest l w0 e w1 tp cleaned_text w_start
           Hne Hinv.
    assert (ShAIyarProcessor._process_text_block env self text_block i w_start
            = (inr None, add_events w1 [Log ERROR (Error_processing_block i e)]))
      as Hp.
    { rewrite _process_text_block_invoke by exact Hne.
      fold tp cleaned_text. now rewrite Hinv. }
    split; [exact Hp|].
    cbn [ShAIyarProcessor.process_loop].
    rewrite (bind_inr _ _ _ _ _
               (process_block_nothing_paused env self Hdelay total_blocks len
                  i text_block l w0 None _ Hp eq_refl)).
    now rewrite add_events_app.
Qed.

Lemma process_completes_despite_block_failures_witness :
  exists w',
    ShAIyarProcessor.process
      (Scenario.env_with Scenario.hello_world Scenario.failing_model)
      Scenario.processor initial_world
    = (inr true, w').
Proof.
  apply (process_completes_despite_block_failures
           (Scenario.env_with Scenario.hello_world Scenario.failing_model)
           Scenario.processor initial_world).
  - reflexivity.
  - intros n p d. reflexivity.
  - reflexivity.
Defined.

(** C4 as stated fails: the extraction succeeds, the model answers, the
    save of the first block raises, and [process] returns [False]. *)
Lemma process_save_failure_counterexample :
  DocxReader.read_docx_text_blocks Scenario.env_unwritable
    (Config.input_docx_path (Config.file_config Config.default)) initial_world
  = (inr [Some (lit "Hello"); Some (lit "World")], initial_world)
  /\ fst (ShAIyarProcessor.process Scenario.env_unwritable Scenario.processor
            initial_world) = inr false.
Proof. split; vm_compute; reflexivity. Qed.

(** C5 (amended).  Take a run of [main] whose command line is parsed,
    whose log file can be opened and whose configuration is built, and
    the configuration it has after the overrides of the command line.
    When the input file exists and cannot be read as a document, the
    reader yields its sentinel, [process] returns [True] and the process
    exits with status 0, provided the configuration validates and the
    interface is constructed.  When the input file does not exist the
    validation raises and the exit status is 1. *)
Theorem exit_status_on_unreadable_input
    (env : Env) (inv : Invocation) (args : Args.t) (loaded : Config.t)
    (w : World) (e : exn) :
  let config := overrides args loaded in
  parse_args inv = inr args ->
  logging_FileHandler inv (lit "logs/shaiyar.log") = None ->
  Config.__init__ (config_files inv) (Args.config args) = inr loaded ->
  (forall w', Config.validate env config w' = (inr true, w')) ->
  (forall w', exists p w'', ShAIyarProcessor.__init__ env config w' = (inr p, w'')) ->
  docx_Document env (Config.input_docx_path (Config.file_config config)) = inl e ->
  fst (main env inv w) = inr 0%Z
  /\ (forall env',
        os_path_exists env' (Config.input_docx_path (Config.file_config config))
        = false ->
        fst (main env' inv w) = inr 1%Z).
Proof.
  intros config Hargs Hlog Hconfig Hv Hinit Hdoc. split.
  - rewrite (main_started env inv args loaded w Hargs Hlog Hconfig).
    fold config.
    rewrite (bind_inr _ _ _ _ _ (log_run _ _ _)).
    unfold try_except.
    rewrite (bind_inr _ _ _ _ _ (Hv _)).
    destruct (Hinit (add_events w [Log INFO Starting_ShAIyar])) as (p & w2 & Hp).
    rewrite (bind_inr _ _ _ _ _ Hp).
    pose proof (init_config _ _ _ _ _ Hp) as Hc.
    erewrite bind_inr.
    2:{ apply process_unreadable with (e := e); rewrite Hc;
        [now rewrite Hv | exact Hdoc]. }
    reflexivity.
  - intros env' Hmissing.
    destruct (validate_missing_input env' config
                (add_events w [Log INFO Starting_ShAIyar]) Hmissing) as [e' He'].
    now apply main_validation_fails with (args := args) (loaded := loaded)
                                         (e := e').
Qed.

Lemma exit_status_on_unreadable_input_witness :
  fst (main Scenario.env_unreadable
         (Scenario.started_with Scenario.no_options None) initial_world)
  = inr 0%Z.
Proof.
  apply (exit_status_on_unreadable_input
           Scenario.env_unreadable
           (Scenario.started_with Scenario.no_options None)
           Scenario.no_options Config.default initial_world
           (OtherException (lit "File is not a zip file"))).
  - reflexivity.
  - reflexivity.
  - reflexivity.
  - intros w'. reflexivity.
  - intros w'. eexists _, _. reflexivity.
  - reflexivity.
Defined.

(** C5 as stated fails: the input cannot be read and the exit status is 0. *)
Lemma exit_status_counterexample :
  docx_Document Scenario.env_unreadable
    (Config.input_docx_path (Config.file_config Config.default))
  = inl (OtherException (lit "File is not a zip file"))
  /\ DocxReader.read_docx_text_blocks Scenario.env_unreadable
       (Config.input_docx_path (Config.file_config Config.default)) initial_world
     = (inr [None],
        add_events initial_world
          [Log ERROR (Error_reading_DOCX_file
                        (OtherException (lit "File is not a zip file")))])
  /\ fst (main Scenario.env_unreadable
            (Scenario.started_with Scenario.no_options None) initial_world)
     = inr 0%Z.
Proof. repeat split; vm_compute; reflexivity. Qed.

(** C6.  The blocks "Hello" and "World" with a model that answers in
    upper case: the output document gets the paragraphs "HELLO", the
    separator "\n*********\n", "WORLD" in this order, and it is saved
    twice, after the first append and after the second; the first save is
    done before the model is called for the second block.  In general a
    block whose processed text is not empty is appended with the separator
    before it unless it is the first block written, and the document is
    saved in the same step, before the pause: also when [time.sleep]
    raises for the delay. *)
Theorem end_to_end_hello_world :
  (let env := Scenario.env_with Scenario.hello_world Scenario.uppercasing_model in
   let sep := [LF] ++ lit "*********" ++ [LF] in
   let r := ShAIyarProcessor.process env Scenario.processor initial_world in
   ShAIyarProcessor.__init__ env Config.default initial_world
   = (inr Scenario.processor, initial_world)
   /\ fst r = inr true
   /\ saves (trace (snd r))
      = [[lit "HELLO"]; [lit "HELLO"; sep; lit "WORLD"]]
   /\ save_calls (snd r) = 2%nat
   /\ filter (fun ev => match ev with
                        | Save _ _ | ModelInvoke _ => true
                        | _ => false
                        end) (trace (snd r))
      = [ModelInvoke [SystemMessage (lit "Translate the verse.");
                      HumanMessage (lit "Hello")];
         Save (lit "src/InputOutput/Output_Madhushala.docx") [lit "HELLO"];
         ModelInvoke [SystemMessage (lit "Translate the verse.");
                      HumanMessage (lit "World")];
         Save (lit "src/InputOutput/Output_Madhushala.docx")
              [lit "HELLO"; sep; lit "WORLD"]])
  /\ (forall env self total_blocks len i text_block l w pb w1,
        let path := Config.output_docx_path
                      (Config.file_config (ShAIyarProcessor.config self)) in
        let sep := Config.separator
                     (Config.file_config (ShAIyarProcessor.config self)) in
        let doc := ShAIyarProcessor.add_paragraphs sep l pb in
        ShAIyarProcessor._process_text_block env self text_block i
          (add_events w [Log INFO (Processing_block_of (i + 1) total_blocks)])
        = (inr (Some pb), w1) ->
        truthy pb = true ->
        truthy sep = true ->
        docx_save env (save_calls w1) path doc = None ->
        doc = (if ShAIyarProcessor.is_first_block_written l
               then ShAIyarProcessor.output_doc l ++ [pb]
               else ShAIyarProcessor.output_doc l ++ [sep; pb])
        /\ ShAIyarProcessor.process_block env self total_blocks len i
             text_block l w
           = match ShAIyarProcessor.pause_error self i len with
             | Some e =>
                 (inl e,
                  add_events (ShAIyarProcessor.after_save w1)
                    [Save path doc;
                     Log INFO (Saved_progress_for_block (i + 1))])
             | None =>
                 (inr {| ShAIyarProcessor.output_doc := doc;
                         ShAIyarProcessor.is_first_block_written := false;
                         ShAIyarProcessor.successful_blocks :=
                           ShAIyarProcessor.successful_blocks l + 1 |},
                  add_events (ShAIyarProcessor.after_save w1)
                    ([Save path doc;
                      Log INFO (Saved_progress_for_block (i + 1))]
                     ++ ShAIyarProcessor.pacing self i len))
             end).
Proof.
  split.
  - vm_compute. repeat split; reflexivity.
  - intros env self total_blocks len i text_block l w pb w1 path sep doc
           Hp Hpb Hsep Hsave.
    split.
    + unfold doc, ShAIyarProcessor.add_paragraphs. rewrite Hsep.
      destruct (ShAIyarProcessor.is_first_block_written l); cbn;
        [reflexivity | now rewrite <- app_assoc].
    + now apply process_block_saved.
Qed.

Lemma end_to_end_hello_world_witness :
  let env := Scenario.env_with Scenario.hello_world Scenario.uppercasing_model in
  let l := {| ShAIyarProcessor.output_doc := [lit "HELLO"];
              ShAIyarProcessor.is_first_block_written := false;
              ShAIyarProcessor.successful_blocks := 1 |} in
  ShAIyarProcessor.add_paragraphs ([LF] ++ lit "*********" ++ [LF]) l (lit "WORLD")
  = [lit "HELLO"; [LF] ++ lit "*********" ++ [LF]; lit "WORLD"].
Proof.
  intros env l.
  refine (proj1 (proj2 end_to_end_hello_world env Scenario.processor 2%nat 3%nat
                   2%nat (lit "World") l initial_world (lit "WORLD") _ _ _ _ _)).
  - vm_compute. reflexivity.
  - reflexivity.
  - reflexivity.
  - reflexivity.
Defined.

(* ===================================================================== *)
(** * What a run may add to the trace                                     *)
(* ===================================================================== *)

Section EmitsOnly.

Variable P : event -> Prop.

Lemma emits_ret {A} (a : A) : emits_only P (ret a).
Proof. intros w. exists []. cbn. now rewrite app_nil_r. Qed.

Lemma emits_raise {A} (e : exn) : emits_only P (@raise A e).
Proof. intros w. exists []. cbn. now rewrite app_nil_r. Qed.

Lemma emits_bind {A B} (m : M A) (k : A -> M B) :
  emits_only P m -> (forall a, emits_only P (k a)) ->
  emits_only P (bind m k).
Proof.
  intros Hm Hk w. unfold bind.
  destruct (Hm w) as (t1 & E1 & F1).
  destruct (m w) as [[e|a] w1]; cbn in E1.
  - exists t1. auto.
  - destruct (Hk a w1) as (t2 & E2 & F2).
    exists (t1 ++ t2). rewrite E2, E1, app_assoc. split; [reflexivity|].
    apply Forall_app. auto.
Qed.

Lemma emits_try_except {A} (m : M A) (h : exn -> M A) :
  emits_only P m -> (forall e, emits_only P (h e)) ->
  emits_only P (try_except m h).
Proof.
  intros Hm Hh w. unfold try_except.
  destruct (Hm w) as (t1 & E1 & F1).
  destruct (m w) as [[e|a] w1]; cbn in E1.
  - destruct (Hh e w1) as (t2 & E2 & F2).
    exists (t1 ++ t2). rewrite E2, E1, app_assoc. split; [reflexivity|].
    apply Forall_app. auto.
  - exists t1. auto.
Qed.

Lemma emits_emit ev : P ev -> emits_only P (emit ev).
Proof. intros H w. exists [ev]. cbn. auto. Qed.

Lemma emits_get_retry_count : emits_only P get_retry_count.
Proof. intros w. exists []. cbn. now rewrite app_nil_r. Qed.

Lemma emits_set_retry_count n : emits_only P (set_retry_count n).
Proof. intros w. exists []. cbn. now rewrite app_nil_r. Qed.

Lemma emits_if {A} (c : bool) (m1 m2 : M A) :
  emits_only P m1 -> emits_only P m2 -> emits_only P (if c then m1 else m2).
Proof. now destruct c. Qed.

Hypothesis P_Log : forall lv m, P (Log lv m).
Hypothesis P_Sleep : forall s, P (Sleep s).
Hypothesis P_Save : forall p d, P (Save p d).

Lemma emits_log lv m : emits_only P (log lv m).
Proof. apply emits_emit, P_Log. Qed.

Lemma emits_time_sleep s : emits_only P (time_sleep s).
Proof.
  unfold time_sleep. destruct (sleep_error s).
  - apply emits_raise.
  - apply emits_emit, P_Sleep.
Qed.

Lemma emits_validate env config : emits_only P (Config.validate env config).
Proof.
  unfold Config.validate.
  repeat apply emits_if; (apply emits_raise || apply emits_ret).
Qed.

Lemma emits_read_docx_text_blocks env file_path :
  emits_only P (DocxReader.read_docx_text_blocks env file_path).
Proof.
  unfold DocxReader.read_docx_text_blocks.
  destruct (docx_Document env file_path) as [e|ps]; [destruct e|];
    repeat first [apply emits_ret | apply emits_log
                 | apply emits_bind; [|intros ?]].
Qed.

Lemma emits_save env path doc :
  emits_only P (ShAIyarProcessor.save env path doc).
Proof.
  intros w. unfold ShAIyarProcessor.save.
  destruct (docx_save env (save_calls w) path doc); cbn.
  - exists []. now rewrite app_nil_r.
  - eexists [_]. split; [reflexivity|]. auto.
Qed.

Section Invoke.

Variable env : Env.
Variable self : LLMInterface.t.
Variable messages : list message.
Hypothesis P_call : P (ModelInvoke messages).

Lemma emits_handle_error e :
  emits_only P (LLMInterface.handle_error self e).
Proof.
  unfold LLMInterface.handle_error.
  repeat first [apply emits_ret | apply emits_log | apply emits_time_sleep
               | apply emits_get_retry_count | apply emits_set_retry_count
               | apply emits_if
               | apply emits_bind; [|intros ?]].
Qed.

Lemma emits_model_call : emits_only P (LLMInterface.model_call env messages).
Proof. intros w. eexists [_]. cbn. split; [reflexivity|]. auto. Qed.

Lemma emits_invoke_body :
  emits_only P (LLMInterface.invoke_body env self messages).
Proof.
  unfold LLMInterface.invoke_body.
  apply emits_try_except; [|intros e].
  - repeat first [apply emits_ret | apply emits_model_call
                 | apply emits_set_retry_count
                 | apply emits_bind; [|intros ?]].
  - apply emits_bind; [apply emits_handle_error|intros msg].
    apply emits_if; [apply emits_raise | apply emits_ret].
Qed.

Lemma emits_invoke_fuel fuel :
  forall w r,
    LLMInterface.invoke_fuel fuel env self messages w = Some r ->
    exists t, trace (snd r) = trace w ++ t /\ Forall P t.
Proof.
  induction fuel as [|fuel IH]; intros w r H; [discriminate|].
  cbn [LLMInterface.invoke_fuel] in H.
  destruct (emits_invoke_body w) as (t1 & E1 & F1).
  destruct (LLMInterface.invoke_body env self messages w)
    as [[e|[content|]] w1]; cbn in E1.
  - injection H as <-. eauto.
  - injection H as <-. eauto.
  - destruct (IH _ _ H) as (t2 & E2 & F2).
    exists (t1 ++ t2). rewrite E2, E1, app_assoc. split; [reflexivity|].
    apply Forall_app. auto.
Qed.

Lemma emits_invoke : emits_only P (LLMInterface.invoke env self messages).
Proof.
  intros w. unfold LLMInterface.invoke.
  destruct (LLMInterface.invoke_fuel _ _ _ _ _) as [r|] eqn:E.
  - eapply emits_invoke_fuel, E.
  - exists []. cbn. now rewrite app_nil_r.
Qed.

End Invoke.

Section Process.

Import ShAIyarProcessor.

Variable env : Env.
Variable self : ShAIyarProcessor.t.

Hypothesis P_call :
  forall text_block,
    clean_text (text_processor self) text_block <> [] ->
    P (ModelInvoke
         (LLMInterface.create_messages (system_message self)
            (clean_text (text_processor self) text_block))).

Lemma emits_process_text_block text_block block_index :
  emits_only P (_process_text_block env self text_block block_index).
Proof.
  unfold _process_text_block.
  apply emits_try_except.
  - destruct (clean_text (text_processor self) text_block) as [|c s] eqn:E;
      cbn [truthy negb].
    + apply emits_bind; [apply emits_log | intros _; apply emits_ret].
    + apply emits_bind; [apply emits_log | intros _].
      apply emits_bind; [|intros result].
      * apply emits_invoke. rewrite <- E. apply P_call. congruence.
      * apply emits_bind; [apply emits_log | intros _; apply emits_ret].
  - intros e. apply emits_bind; [apply emits_log | intros _; apply emits_ret].
Qed.

Lemma emits_process_block total_blocks len i text_block l :
  emits_only P (process_block env self total_blocks len i text_block l).
Proof.
  unfold process_block.
  apply emits_bind; [apply emits_log | intros _].
  apply emits_bind; [apply emits_process_text_block | intros r].
  apply emits_bind; [|intros l'].
  - destruct r as [pb|]; [|apply emits_ret].
    apply emits_if; [|apply emits_ret].
    apply emits_bind; [apply emits_save | intros _].
    apply emits_bind; [apply emits_log | intros _; apply emits_ret].
  - apply emits_bind; [|intros _; apply emits_ret].
    apply emits_if; [apply emits_time_sleep | apply emits_ret].
Qed.

Lemma emits_process_loop total_blocks len text_blocks :
  forall i l,
    emits_only P (process_loop env self total_blocks len i text_blocks l).
Proof.
  induction text_blocks as [|[text_block|] rest IH]; intros i l;
    cbn [process_loop].
  - apply emits_ret.
  - apply emits_bind; [apply emits_process_block | intros l'; apply IH].
  - apply IH.
Qed.

Lemma emits_process : emits_only P (process env self).
Proof.
  unfold process, process_try.
  apply emits_try_except.
  - apply emits_bind; [|intros r; apply emits_ret].
    apply emits_bind; [apply emits_validate | intros _].
    apply emits_bind; [apply emits_read_docx_text_blocks | intros blocks].
    apply emits_bind; [apply emits_log | intros _].
    apply emits_bind; [apply emits_process_loop | intros l].
    apply emits_bind; [apply emits_log | intros _; apply emits_ret].
  - intros e. apply emits_bind; [apply emits_log | intros _; apply emits_ret].
Qed.

End Process.

End EmitsOnly.

(** C9.  A block whose cleaned text is empty is dropped before the model
    call: the outcome is [None] with the warning logged and no call made.
    In every run of [process] each call of the model carries the system
    message and a cleaned block text that is not empty. *)
Theorem empty_blocks_never_reach_model
    (env : Env) (self : ShAIyarProcessor.t)
    (text_block : str) (block_index : nat) (w : World) :
  let clean := ShAIyarProcessor.clean_text (ShAIyarProcessor.text_processor self) in
  clean text_block = [] ->
  (ShAIyarProcessor._process_text_block env self text_block block_index w
   = (inr None,
      add_events w [Log WARNING (Block_is_empty_after_cleaning block_index)])
   /\ model_invokes [Log WARNING (Block_is_empty_after_cleaning block_index)] = [])
  /\ (forall w0, exists t,
        trace (snd (ShAIyarProcessor.process env self w0)) = trace w0 ++ t
        /\ Forall (fun messages =>
                     exists cleaned_text,
                       messages
                       = [SystemMessage (ShAIyarProcessor.system_message self);
                          HumanMessage cleaned_text]
                       /\ cleaned_text <> []
                       /\ exists b, cleaned_text = clean b)
                  (model_invokes t)).
Proof.
  intros clean Hempty. split.
  - split; [now apply _process_text_block_empty | reflexivity].
  - intros w0.
    set (P := fun ev =>
                match ev with
                | ModelInvoke messages =>
                    exists cleaned_text,
                      messages
                      = [SystemMessage (ShAIyarProcessor.system_message self);
                         HumanMessage cleaned_text]
                      /\ cleaned_text <> []
                      /\ exists b, cleaned_text = clean b
                | _ => True
                end).
    destruct (emits_process P ltac:(intros; exact I) ltac:(intros; exact I)
                ltac:(intros; exact I) env self) with (w := w0)
      as (t & Et & Ft).
    + intros b Hb. cbn. eexists. split; [reflexivity|]. split; [exact Hb|].
      now exists b.
    + exists t. split; [exact Et|].
      clear Et. induction Ft as [|ev t Hev Ft IH]; [constructor|].
      destruct ev; cbn; auto.
Qed.

Lemma empty_blocks_never_reach_model_witness :
  ShAIyarProcessor._process_text_block
    (Scenario.env_with Scenario.hello_world Scenario.uppercasing_model)
    Scenario.processor [SPACE; LF; 9%N] 0 initial_world
  = (inr None,
     add_events initial_world [Log WARNING (Block_is_empty_after_cleaning 0)]).
Proof.
  apply (empty_blocks_never_reach_model
           (Scenario.env_with Scenario.hello_world Scenario.uppercasing_model)
           Scenario.processor [SPACE; LF; 9%N] 0 initial_world).
  reflexivity.
Defined.

(* ===================================================================== *)
(** * The analysis is observed, never used                                *)
(* ===================================================================== *)

Section SameRun.

Lemma same_but_analysis_refl w : same_but_analysis w w.
Proof. repeat split. Qed.

Lemma same_ret {A} (a : A) : same_run (ret a) (ret a).
Proof. intros w w' H. split; [reflexivity | exact H]. Qed.

Lemma same_raise {A} (e : exn) : same_run (@raise A e) (raise e).
Proof. intros w w' H. split; [reflexivity | exact H]. Qed.

Lemma same_bind {A B} (m m' : M A) (k k' : A -> M B) :
  same_run m m' -> (forall a, same_run (k a) (k' a)) ->
  same_run (bind m k) (bind m' k').
Proof.
  intros Hm Hk w w' H. unfold bind.
  destruct (Hm w w' H) as [Hr Hw].
  destruct (m w) as [[e|a] w1], (m' w') as [[e'|a'] w1']; cbn in Hr, Hw;
    try discriminate.
  - injection Hr as <-. auto.
  - injection Hr as <-. now apply Hk.
Qed.

Lemma same_try_except {A} (m m' : M A) (h h' : exn -> M A) :
  same_run m m' -> (forall e, same_run (h e) (h' e)) ->
  same_run (try_except m h) (try_except m' h').
Proof.
  intros Hm Hh w w' H. unfold try_except.
  destruct (Hm w w' H) as [Hr Hw].
  destruct (m w) as [[e|a] w1], (m' w') as [[e'|a'] w1']; cbn in Hr, Hw;
    try discriminate.
  - injection Hr as <-. now apply Hh.
  - injection Hr as <-. auto.
Qed.

Lemma same_emit ev ev' :
  forget_analysis ev = forget_analysis ev' -> same_run (emit ev) (emit ev').
Proof.
  intros E w w' (Hrc & Hmc & Hsc & Ht). split; [reflexivity|].
  unfold emit, same_but_analysis.
  cbn [snd retry_count model_calls save_calls trace].
  repeat split; try assumption.
  rewrite !map_app, Ht. cbn [map]. now rewrite E.
Qed.

Lemma same_log lv m : same_run (log lv m) (log lv m).
Proof. now apply same_emit. Qed.

Lemma same_time_sleep s : same_run (time_sleep s) (time_sleep s).
Proof.
  unfold time_sleep. destruct (sleep_error s).
  - apply same_raise.
  - now apply same_emit.
Qed.

Lemma same_get_retry_count : same_run get_retry_count get_retry_count.
Proof. intros w w' H. split; [|exact H]. cbn. f_equal. apply H. Qed.

Lemma same_set_retry_count n : same_run (set_retry_count n) (set_retry_count n).
Proof.
  intros w w' (Hrc & Hmc & Hsc & Ht). split; [reflexivity|].
  repeat split; cbn; assumption.
Qed.

Lemma same_if {A} (c : bool) (m1 m1' m2 m2' : M A) :
  same_run m1 m1' -> same_run m2 m2' ->
  same_run (if c then m1 else m2) (if c then m1' else m2').
Proof. now destruct c. Qed.

Lemma same_validate env config :
  same_run (Config.validate env config) (Config.validate env config).
Proof.
  unfold Config.validate.
  repeat apply same_if; (apply same_raise || apply same_ret).
Qed.

Lemma same_read_docx_text_blocks env file_path :
  same_run (DocxReader.read_docx_text_blocks env file_path)
           (DocxReader.read_docx_text_blocks env file_path).
Proof.
  unfold DocxReader.read_docx_text_blocks.
  destruct (docx_Document env file_path) as [e|ps]; [destruct e|];
    repeat first [apply same_ret | apply same_log
                 | apply same_bind; [|intros ?]].
Qed.

Lemma same_save env path doc :
  same_run (ShAIyarProcessor.save env path doc)
           (ShAIyarProcessor.save env path doc).
Proof.
  intros w w' (Hrc & Hmc & Hsc & Ht). unfold ShAIyarProcessor.save.
  rewrite <- Hsc.
  destruct (docx_save env (save_calls w) path doc); cbn;
    (split; [reflexivity|]); repeat split; cbn; try congruence.
  now rewrite !map_app, Ht.
Qed.

Section Invoke.

Variable env : Env.
Variable self : LLMInterface.t.
Variable messages : list message.

Lemma same_handle_error e :
  same_run (LLMInterface.handle_error self e)
           (LLMInterface.handle_error self e).
Proof.
  unfold LLMInterface.handle_error.
  repeat first [apply same_ret | apply same_log | apply same_time_sleep
               | apply same_get_retry_count | apply same_set_retry_count
               | apply same_if
               | apply same_bind; [|intros ?]].
Qed.

Lemma same_model_call :
  same_run (LLMInterface.model_call env messages)
           (LLMInterface.model_call env messages).
Proof.
  intros w w' (Hrc & Hmc & Hsc & Ht). unfold LLMInterface.model_call. cbn.
  rewrite <- Hmc. split; [reflexivity|].
  repeat split; cbn; try congruence.
  now rewrite !map_app, Ht.
Qed.

Lemma same_invoke_body :
  same_run (LLMInterface.invoke_body env self messages)
           (LLMInterface.invoke_body env self messages).
Proof.
  unfold LLMInterface.invoke_body.
  apply same_try_except; [|intros e].
  - repeat first [apply same_ret | apply same_model_call
                 | apply same_set_retry_count
                 | apply same_bind; [|intros ?]].
  - apply same_bind; [apply same_handle_error|intros msg].
    apply same_if; [apply same_raise | apply same_ret].
Qed.

Lemma same_invoke_fuel fuel :
  forall w w', same_but_analysis w w' ->
    match LLMInterface.invoke_fuel fuel env self messages w,
          LLMInterface.invoke_fuel fuel env self messages w' with
    | Some r, Some r' =>
        fst r = fst r' /\ same_but_analysis (snd r) (snd r')
    | None, None => True
    | _, _ => False
    end.
Proof.
  induction fuel as [|fuel IH]; intros w w' H; [exact I|].
  cbn [LLMInterface.invoke_fuel].
  destruct (same_invoke_body w w' H) as [Hr Hw].
  destruct (LLMInterface.invoke_body env self messages w)
    as [[e|[content|]] w1],
           (LLMInterface.invoke_body env self messages w')
    as [[e'|[content'|]] w1']; cbn in Hr, Hw; try discriminate.
  - injection Hr as <-. auto.
  - injection Hr as <-. auto.
  - now apply IH.
Qed.

Lemma same_invoke :
  same_run (LLMInterface.invoke env self messages)
           (LLMInterface.invoke env self messages).
Proof.
  intros w w' H. unfold LLMInterface.invoke, LLMInterface.depth.
  replace (retry_count w') with (retry_count w) by apply H.
  pose proof (same_invoke_fuel
                (S (Z.to_nat (LLMInterface.max_retries self - retry_count w)))
                w w' H) as Hf.
  destruct (LLMInterface.invoke_fuel _ _ _ _ w) as [r|],
           (LLMInterface.invoke_fuel _ _ _ _ w') as [r'|];
    try contradiction; auto.
Qed.

End Invoke.

Section Process.

Import ShAIyarProcessor.

Variable env : Env.
Variable self : ShAIyarProcessor.t.
Variable analyze : str -> TextProcessor.analysis.

Abbreviation self' := (with_analyze self analyze).

Lemma same_process_text_block text_block block_index :
  same_run (_process_text_block env self text_block block_index)
           (_process_text_block env self' text_block block_index).
Proof.
  unfold _process_text_block. cbn.
  apply same_try_except.
  - destruct (clean_text (text_processor self) text_block) as [|c s];
      cbn [truthy negb].
    + apply same_bind; [apply same_log | intros _; apply same_ret].
    + apply same_bind; [now apply same_emit | intros _].
      apply same_bind; [apply same_invoke | intros result].
      apply same_bind; [apply same_log | intros _; apply same_ret].
  - intros e. apply same_bind; [apply same_log | intros _; apply same_ret].
Qed.

Lemma same_process_block total_blocks len i text_block l :
  same_run (process_block env self total_blocks len i text_block l)
           (process_block env self' total_blocks len i text_block l).
Proof.
  unfold process_block. cbn.
  apply same_bind; [apply same_log | intros _].
  apply same_bind; [apply same_process_text_block | intros r].
  apply same_bind; [|intros l'].
  - destruct r as [pb|]; [|apply same_ret].
    apply same_if; [|apply same_ret].
    apply same_bind; [apply same_save | intros _].
    apply same_bind; [apply same_log | intros _; apply same_ret].
  - apply same_bind; [|intros _; apply same_ret].
    apply same_if; [apply same_time_sleep | apply same_ret].
Qed.

Lemma same_process_loop total_blocks len text_blocks :
  forall i l,
    same_run (process_loop env self total_blocks len i text_blocks l)
             (process_loop env self' total_blocks len i text_blocks l).
Proof.
  induction text_blocks as [|[text_block|] rest IH]; intros i l;
    cbn [process_loop].
  - apply same_ret.
  - apply same_bind; [apply same_process_block | intros l'; apply IH].
  - apply IH.
Qed.

Lemma same_process : same_run (process env self) (process env self').
Proof.
  unfold process, process_try. cbn.
  apply same_try_except.
  - apply same_bind; [|intros r; apply same_ret].
    apply same_bind; [apply same_validate | intros _].
    apply same_bind; [apply same_read_docx_text_blocks | intros blocks].
    apply same_bind; [apply same_log | intros _].
    apply same_bind; [apply same_process_loop | intros l].
    apply same_bind; [apply same_log | intros _; apply same_ret].
  - intros e. apply same_bind; [apply same_log | intros _; apply same_ret].
Qed.

End Process.

End SameRun.

Section AnalysisFacts.

Lemma join_words_chars ws :
  Forall word ws ->
  Forall (fun c => c = SPACE \/ isspace c = false) (join [SPACE] ws).
Proof.
  induction 1 as [|p rest [_ Hp] _ IH]; [constructor|].
  rewrite join_cons. apply Forall_app. split.
  - apply Forall_forall. intros c Hc. right.
    unfold no_space in Hp. rewrite forallb_forall in Hp.
    apply negb_true_iff. auto.
  - destruct rest; [constructor|]. constructor; auto.
Qed.

Lemma clean_text_no_newline s : ~ In LF (TextProcessor.clean_text s).
Proof.
  rewrite clean_text_join_split. intros Hin.
  pose proof (join_words_chars _ (split_words s)) as H.
  rewrite Forall_forall in H. destruct (H _ Hin) as [E|E]; discriminate.
Qed.

Lemma split_on_from_absent sep cur s :
  ~ In sep s -> split_on_from sep cur s = [cur ++ s].
Proof.
  revert cur. induction s as [|c s IH]; intros cur H; cbn.
  - now rewrite app_nil_r.
  - destruct (N.eqb_spec c sep) as [->|Hne]; [exfalso; apply H; now left|].
    rewrite IH by (intros Hin; apply H; now right).
    now rewrite <- app_assoc.
Qed.

(** The analysis of a cleaned text: one line, the words of the block. *)
Lemma analyze_cleaned_text text_block :
  TextProcessor.clean_text text_block <> [] ->
  let a := TextProcessor.analyze_text_block
             (TextProcessor.clean_text text_block) in
  TextProcessor.line_count a = 1%nat
  /\ TextProcessor.is_empty a = false
  /\ TextProcessor.word_count a = length (split text_block)
  /\ TextProcessor.character_count a
     = length (TextProcessor.clean_text text_block).
Proof.
  intros Hne a. unfold a, TextProcessor.analyze_text_block.
  destruct (TextProcessor.clean_text text_block) as [|c s] eqn:E;
    [congruence|].
  cbn [truthy negb TextProcessor.line_count TextProcessor.is_empty
       TextProcessor.word_count TextProcessor.character_count].
  rewrite <- E. repeat split.
  - unfold split_on.
    now rewrite split_on_from_absent by apply clean_text_no_newline.
  - rewrite clean_text_join_split.
    now rewrite split_join by apply split_words.
Qed.

End AnalysisFacts.

(** C7 (amended).  For every block whose cleaned text is not empty the
    analysis logged is that of the cleaned text, not of the block as
    extracted: it counts one line, the words of the block and the
    characters of the cleaned text.  It is only logged: with any other
    analysis function in its place [_process_text_block] and [process]
    return the same value and leave the same world, the logged analyses
    apart. *)
Theorem analysis_is_of_cleaned_text_and_only_logged
    (env : Env) (self : ShAIyarProcessor.t)
    (text_block : str) (block_index : nat) (w : World)
    (analyze : str -> TextProcessor.analysis) :
  ShAIyarProcessor.text_processor self = ShAIyarProcessor.TextProcessor_new ->
  TextProcessor.clean_text text_block <> [] ->
  let a := TextProcessor.analyze_text_block
             (TextProcessor.clean_text text_block) in
  let self' := ShAIyarProcessor.with_analyze self analyze in
  (exists t,
     trace (snd (ShAIyarProcessor._process_text_block env self text_block
                   block_index w))
     = trace w ++ Log INFO (Processing_block_analysis block_index a) :: t)
  /\ TextProcessor.line_count a = 1%nat
  /\ TextProcessor.is_empty a = false
  /\ TextProcessor.word_count a = length (split text_block)
  /\ TextProcessor.character_count a
     = length (TextProcessor.clean_text text_block)
  /\ (fst (ShAIyarProcessor._process_text_block env self text_block block_index w)
      = fst (ShAIyarProcessor._process_text_block env self' text_block
               block_index w)
      /\ same_but_analysis
           (snd (ShAIyarProcessor._process_text_block env self text_block
                   block_index w))
           (snd (ShAIyarProcessor._process_text_block env self' text_block
                   block_index w)))
  /\ (fst (ShAIyarProcessor.process env self w)
      = fst (ShAIyarProcessor.process env self' w)
      /\ same_but_analysis
           (snd (ShAIyarProcessor.process env self w))
           (snd (ShAIyarProcessor.process env self' w))).
Proof.
  intros Htp Hne a self'.
  destruct (analyze_cleaned_text text_block Hne) as (Hl & He & Hw & Hc).
  split; [|split; [exact Hl|]; split; [exact He|]; split; [exact Hw|];
             split; [exact Hc|]; split].
  - rewrite _process_text_block_invoke by (rewrite Htp; exact Hne).
    rewrite Htp. cbn [ShAIyarProcessor.clean_text
                      ShAIyarProcessor.analyze_text_block
                      ShAIyarProcessor.TextProcessor_new].
    fold a.
    match goal with
    | |- context [LLMInterface.invoke env ?llm ?ms ?w0] =>
        destruct (emits_invoke (fun _ => True) (fun _ _ => I) (fun _ => I) env llm ms I w0)
          as (t & Et & _);
        destruct (LLMInterface.invoke env llm ms w0) as [[e|result] w1]
    end; cbn in Et |- *; rewrite Et; rewrite <- !app_assoc;
      eexists; reflexivity.
  - apply same_process_text_block, same_but_analysis_refl.
  - apply same_process, same_but_analysis_refl.
Qed.

Lemma analysis_is_of_cleaned_text_and_only_logged_witness :
  let text_block := lit "a" ++ [LF] ++ lit "b" in
  let a := TextProcessor.analyze_text_block
             (TextProcessor.clean_text text_block) in
  TextProcessor.line_count a = 1%nat.
Proof.
  intros text_block a.
  refine (proj1 (proj2
    (analysis_is_of_cleaned_text_and_only_logged
       (Scenario.env_with Scenario.hello_world Scenario.uppercasing_model)
       Scenario.processor text_block 0 initial_world
       (fun _ => TextProcessor.analyze_text_block []) _ _))).
  - reflexivity.
  - discriminate.
Defined.

(** C7 as stated fails: the block "a\nb", read from two paragraphs that
    follow one another, has two lines, and the analysis logged for it is
    that of the cleaned text "a b", with one line. *)
Lemma analysis_pre_clean_counterexample :
  let text_block := lit "a" ++ [LF] ++ lit "b" in
  let env := Scenario.env_with [lit "a"; lit "b"] Scenario.uppercasing_model in
  let w' := snd (ShAIyarProcessor._process_text_block env Scenario.processor
                   text_block 0 initial_world) in
  DocxReader.blocks_from [] [lit "a"; lit "b"] = [text_block]
  /\ TextProcessor.line_count (TextProcessor.analyze_text_block text_block)
     = 2%nat
  /\ In (Log INFO (Processing_block_analysis 0
           (TextProcessor.analyze_text_block (lit "a b")))) (trace w')
  /\ TextProcessor.line_count (TextProcessor.analyze_text_block (lit "a b"))
     = 1%nat
  /\ ~ In (Log INFO (Processing_block_analysis 0
             (TextProcessor.analyze_text_block text_block))) (trace w').
Proof.
  vm_compute. repeat split; auto.
  intros H. repeat (destruct H as [H|H]; [discriminate|]). exact H.
Qed.

(* ===================================================================== *)
(** * Further properties of the TextNormalizer                            *)
(* ===================================================================== *)

Section CleanFacts.

Lemma length_lstrip s : (length (lstrip s) <= length s)%nat.
Proof.
  induction s as [|c s IH]; simpl; [lia|]. destruct (isspace c); simpl; lia.
Qed.

Lemma length_rstrip s : (length (rstrip s) <= length s)%nat.
Proof.
  unfold rstrip. rewrite length_rev.
  pose proof (length_lstrip (rev s)) as H. now rewrite length_rev in H.
Qed.

Lemma length_re_sub_ws_from b s :
  (length (re_sub_ws_from b s) <= length s)%nat.
Proof.
  revert b. induction s as [|c s IH]; intros b; simpl; [lia|].
  destruct (isspace c); [destruct b|]; simpl;
    (pose proof (IH true); pose proof (IH false); lia).
Qed.

Lemma nonspace_chars_app a b :
  nonspace_chars (a ++ b) = nonspace_chars a ++ nonspace_chars b.
Proof. apply filter_app. Qed.

Lemma nonspace_chars_lstrip s : nonspace_chars (lstrip s) = nonspace_chars s.
Proof.
  induction s as [|c s IH]; simpl; [reflexivity|].
  destruct (isspace c) eqn:Hc; simpl; [exact IH | now rewrite Hc].
Qed.

Lemma nonspace_chars_rstrip s : nonspace_chars (rstrip s) = nonspace_chars s.
Proof.
  unfold rstrip, nonspace_chars.
  rewrite filter_rev. fold (nonspace_chars (lstrip (rev s))).
  rewrite nonspace_chars_lstrip. unfold nonspace_chars.
  now rewrite filter_rev, rev_involutive.
Qed.

Lemma nonspace_chars_strip s : nonspace_chars (strip s) = nonspace_chars s.
Proof.
  unfold strip. now rewrite nonspace_chars_rstrip, nonspace_chars_lstrip.
Qed.

Lemma nonspace_chars_re_sub_ws_from b s :
  nonspace_chars (re_sub_ws_from b s) = nonspace_chars s.
Proof.
  revert b. induction s as [|c s IH]; intros b; simpl; [reflexivity|].
  destruct (isspace c) eqn:Hc; [destruct b|]; simpl;
    rewrite ?Hc; simpl; now rewrite IH.
Qed.

Lemma nonspace_chars_nil s : nonspace_chars s = [] <-> all_space s = true.
Proof.
  induction s as [|c s IH]; simpl; [tauto|].
  destruct (isspace c); simpl; [exact IH|]. split; discriminate.
Qed.

Lemma split_nil_all_space s : split s = [] -> all_space s = true.
Proof.
  unfold split. induction s as [|c s IH]; simpl; [reflexivity|].
  destruct (isspace c) eqn:Hc; simpl; [exact IH|].
  intros H. now apply split_from_not_nil in H.
Qed.

Lemma join_nil_words ws : Forall word ws -> join [SPACE] ws = [] -> ws = [].
Proof.
  intros H. destruct H as [|p rest [Hne _] _]; [reflexivity|].
  rewrite join_cons. destruct p; [congruence | discriminate].
Qed.

Lemma clean_text_nil_iff s :
  TextProcessor.clean_text s = [] <-> all_space s = true.
Proof.
  split.
  - rewrite clean_text_join_split. intros H.
    apply split_nil_all_space. now apply join_nil_words; [apply split_words|].
  - intros H. rewrite clean_text_join_split. unfold split.
    now rewrite split_all_space_from.
Qed.

End CleanFacts.

(** X1.  [clean_text] never lengthens a text, and it keeps the characters
    that are not whitespace, all of them and in their order. *)
Theorem clean_text_shrinks_and_keeps_characters (s : str) :
  (length (TextProcessor.clean_text s) <= length s)%nat
  /\ nonspace_chars (TextProcessor.clean_text s) = nonspace_chars s.
Proof.
  unfold TextProcessor.clean_text, re_sub_ws.
  destruct s as [|c s]; [split; [simpl; lia | reflexivity]|].
  cbn [truthy negb]. split.
  - unfold strip.
    pose proof (length_rstrip (lstrip (re_sub_ws_from false (c :: s)))).
    pose proof (length_lstrip (re_sub_ws_from false (c :: s))).
    pose proof (length_re_sub_ws_from false (c :: s)). lia.
  - now rewrite nonspace_chars_strip, nonspace_chars_re_sub_ws_from.
Qed.

(** X2.  [clean_text] keeps the words of a text: splitting the cleaned
    text gives the words that splitting the text gives. *)
Theorem clean_text_keeps_words (s : str) :
  split (TextProcessor.clean_text s) = split s.
Proof.
  rewrite clean_text_join_split. apply split_join, split_words.
Qed.

(** X3.  [clean_text] gives the empty string exactly for the texts that
    are empty or whitespace only. *)
Theorem clean_text_empty_iff (s : str) :
  TextProcessor.clean_text s = [] <-> all_space s = true.
Proof. apply clean_text_nil_iff. Qed.

Section AnalyzeFacts.

Lemma length_split_on_from sep cur s :
  length (split_on_from sep cur s) = S (count_occ N.eq_dec s sep).
Proof.
  revert cur. induction s as [|c s IH]; intros cur; simpl; [reflexivity|].
  destruct (N.eqb_spec c sep) as [->|Hne].
  - destruct (N.eq_dec sep sep); [|congruence]. simpl. now rewrite IH.
  - destruct (N.eq_dec c sep); [congruence|]. apply IH.
Qed.

Lemma size_of_cons w ws :
  size_of (w :: ws) = (Z.of_nat (length w) + 1 + size_of ws)%Z.
Proof. reflexivity. Qed.

Lemma size_of_app a b : size_of (a ++ b) = (size_of a + size_of b)%Z.
Proof.
  induction a as [|w a IH]; [reflexivity|].
  cbn [app]. rewrite !size_of_cons, IH. lia.
Qed.

Lemma size_of_nonneg ws : (0 <= size_of ws)%Z.
Proof. induction ws as [|w ws IH]; [cbn; lia|]. rewrite size_of_cons. lia. Qed.

Lemma size_of_words ws :
  Forall word ws -> (2 * Z.of_nat (length ws) <= size_of ws)%Z.
Proof.
  induction 1 as [|w ws [Hne _] _ IH]; [cbn; lia|].
  rewrite size_of_cons. destruct w; [congruence|]. cbn [length]. lia.
Qed.

(** The words of a text with the separators between them fit in it. *)
Lemma size_of_split_from cur s :
  (size_of (split_from cur s)
   <= Z.of_nat (length cur) + Z.of_nat (length s) + 1)%Z.
Proof.
  revert cur. induction s as [|c s IH]; intros cur; cbn [split_from].
  - destruct cur; cbn [size_of fold_right length]; lia.
  - destruct (isspace c).
    + specialize (IH []).
      destruct cur as [|x cur]; rewrite ?size_of_cons; cbn [length] in *; lia.
    + specialize (IH (cur ++ [c])). rewrite length_app in IH.
      cbn [length] in *. lia.
Qed.

End AnalyzeFacts.

(** X4.  The analysis of a text block counts one line more than the block
    has newlines (no line for the empty block), at most one word for every
    two characters, rounded up, and no word exactly when the block is
    whitespace only, which an empty block is too. *)
Theorem analyze_text_block_counts (s : str) :
  let a := TextProcessor.analyze_text_block s in
  TextProcessor.line_count a
  = (if truthy s then S (count_occ N.eq_dec s LF) else 0)%nat
  /\ (2 * TextProcessor.word_count a <= TextProcessor.character_count a + 1)%nat
  /\ (TextProcessor.word_count a = 0%nat <-> all_space s = true)
  /\ TextProcessor.is_empty a = negb (truthy s).
Proof.
  destruct s as [|c s]; [cbn; repeat split; (reflexivity || lia)|].
  cbn [TextProcessor.analyze_text_block truthy negb TextProcessor.line_count
       TextProcessor.word_count TextProcessor.character_count
       TextProcessor.is_empty].
  split; [apply length_split_on_from|]. split; [|split; [|reflexivity]].
  - pose proof (size_of_words _ (split_words (c :: s))) as H1.
    pose proof (size_of_split_from [] (c :: s)) as H2.
    fold (split (c :: s)) in H2. simpl length in H2 |- *. lia.
  - split.
    + intros H. apply split_nil_all_space.
      now destruct (split (c :: s)).
    + intros H. unfold split. now rewrite split_all_space_from.
Qed.

Section ChunkFacts.

Import TextProcessor.

Lemma join_not_nil ws : Forall word ws -> ws <> [] -> join [SPACE] ws <> [].
Proof.
  intros H Hne E. apply join_nil_words in E; auto.
Qed.

Lemma join_app_cons (sep : str) a b :
  a <> [] -> b <> [] -> join sep (a ++ b) = join sep a ++ sep ++ join sep b.
Proof.
  intros Ha Hb. induction a as [|p a IH]; [congruence|].
  destruct a as [|q a].
  - simpl app. rewrite join_cons. destruct b; [congruence|]. reflexivity.
  - change ((p :: q :: a) ++ b) with (p :: (q :: a) ++ b).
    rewrite (join_cons sep p ((q :: a) ++ b)), (join_cons sep p (q :: a)).
    rewrite IH by discriminate. simpl app. now rewrite <- !app_assoc.
Qed.

Lemma length_join_space ws :
  ws <> [] -> Z.of_nat (length (join [SPACE] ws)) = (size_of ws - 1)%Z.
Proof.
  induction ws as [|w ws IH]; [congruence|]. intros _.
  rewrite join_cons. destruct ws as [|v ws].
  - rewrite app_nil_r. simpl. lia.
  - rewrite !length_app, !Nat2Z.inj_add, IH by discriminate.
    simpl size_of. simpl length. lia.
Qed.

Lemma chunks_from_not_nil cs cur sz words :
  cur <> [] -> chunks_from cs cur sz words <> [].
Proof.
  revert cur sz. induction words as [|word rest IH]; intros cur sz H; simpl.
  - destruct cur; congruence.
  - destruct (_ && _); [discriminate|]. apply IH. destruct cur; discriminate.
Qed.

(** The chunks, joined by spaces, are the words joined by spaces. *)
Lemma join_chunks_from cs words :
  forall cur sz,
    join [SPACE] (chunks_from cs cur sz words) = join [SPACE] (cur ++ words).
Proof.
  induction words as [|word rest IH]; intros cur sz; cbn [chunks_from].
  - rewrite app_nil_r. destruct cur; reflexivity.
  - destruct ((cs <? sz + (Z.of_nat (length word) + 1))%Z) eqn:E; cbn [andb].
    + destruct cur as [|p cur].
      * rewrite IH. reflexivity.
      * pose proof (chunks_from_not_nil cs [word]
                      (Z.of_nat (length word) + 1) rest ltac:(discriminate)) as Hne.
        rewrite (join_cons [SPACE] (join [SPACE] (p :: cur))).
        destruct (chunks_from cs [word] (Z.of_nat (length word) + 1) rest)
          as [|ch chs] eqn:Ech; [congruence|].
        rewrite <- Ech, IH.
        now rewrite (join_app_cons [SPACE] (p :: cur) (word :: rest))
          by discriminate.
    + rewrite IH, <- app_assoc. reflexivity.
Qed.

(** The chunks are made of the words, in order. *)
Lemma split_chunks_from cs words :
  Forall word words ->
  forall cur sz, Forall word cur ->
    concat (map split (chunks_from cs cur sz words)) = cur ++ words.
Proof.
  induction 1 as [|word rest Hw Hrest IH]; intros cur sz Hcur;
    cbn [chunks_from].
  - rewrite app_nil_r. destruct cur as [|p cur]; [reflexivity|].
    cbn [map concat]. now rewrite split_join, app_nil_r.
  - destruct ((cs <? sz + (Z.of_nat (length word) + 1))%Z); cbn [andb].
    + destruct cur as [|p cur].
      * apply IH. now constructor.
      * cbn [map concat]. rewrite split_join by exact Hcur.
        rewrite IH by now constructor. reflexivity.
    + rewrite IH by (apply Forall_app; split; [exact Hcur | now constructor]).
      now rewrite <- app_assoc.
Qed.

Lemma chunks_from_bounded cs words :
  Forall word words ->
  forall cur sz, Forall word cur -> chunk_ok cs cur sz ->
    Forall (fun c => c <> [] /\ strip c = c
                     /\ ((Z.of_nat (length c) < cs)%Z \/ In c (cur ++ words)))
           (chunks_from cs cur sz words).
Proof.
  assert (forall cur sz, cur <> [] -> Forall word cur -> chunk_ok cs cur sz ->
            forall rest,
            join [SPACE] cur <> [] /\ strip (join [SPACE] cur) = join [SPACE] cur
            /\ ((Z.of_nat (length (join [SPACE] cur)) < cs)%Z
                \/ In (join [SPACE] cur) (cur ++ rest))) as Hchunk.
  { intros cur sz Hne Hcur [Hsz Hok] rest.
    split; [now apply join_not_nil|]. split.
    - destruct (join_words_fixed _ Hcur) as (Hl & Hr & _).
      unfold strip. now rewrite Hl, Hr.
    - destruct Hok as [Hle|Hone].
      + left. rewrite length_join_space by exact Hne. lia.
      + right. destruct cur as [|w [|v cur]]; [congruence| |simpl in Hone; lia].
        simpl. now left. }
  induction 1 as [|word rest Hw Hrest IH]; intros cur sz Hcur Hok;
    cbn [chunks_from].
  - destruct cur as [|p cur]; [constructor|].
    constructor; [|constructor].
    now apply (Hchunk (p :: cur) sz).
  - assert (chunk_ok cs [word] (Z.of_nat (length word) + 1)) as Hone.
    { split; [cbn; lia | right; cbn; lia]. }
    destruct ((cs <? sz + (Z.of_nat (length word) + 1))%Z) eqn:E; cbn [andb].
    + destruct cur as [|p cur].
      * destruct Hok as [-> _]. cbn [size_of fold_right app].
        rewrite Z.add_0_l.
        apply (IH [word]); [now constructor | exact Hone].
      * constructor; [now apply (Hchunk (p :: cur) sz)|].
        eapply Forall_impl; [|apply (IH [word]); [now constructor | exact Hone]].
        intros c (H1 & H2 & [H3|H3]); repeat split; auto.
        right. apply in_or_app. right. exact H3.
    + eapply Forall_impl;
        [|apply (IH (cur ++ [word]) (sz + (Z.of_nat (length word) + 1))%Z)].
      * intros c (H1 & H2 & [H3|H3]); repeat split; auto.
        right. now rewrite <- app_assoc in H3.
      * apply Forall_app. split; [exact Hcur | now constructor].
      * destruct Hok as [Hsz Hok]. split.
        -- rewrite size_of_app, Hsz. cbn. lia.
        -- apply Z.ltb_ge in E. now left.
Qed.

End ChunkFacts.

(** X5.  The chunks of a text, joined by single spaces, are the cleaned
    text, and the words of the chunks are the words of the text in their
    order: chunking loses no word, adds none and splits none. *)
Theorem split_text_into_chunks_round_trip (text : str) (chunk_size : Z) :
  join [SPACE] (TextProcessor.split_text_into_chunks text chunk_size)
  = TextProcessor.clean_text text
  /\ concat (map split (TextProcessor.split_text_into_chunks text chunk_size))
     = split text.
Proof.
  unfold TextProcessor.split_text_into_chunks.
  destruct text as [|c s]; [split; reflexivity|]. cbn [truthy negb]. split.
  - rewrite join_chunks_from, clean_text_join_split. reflexivity.
  - now rewrite split_chunks_from by (constructor || apply split_words).
Qed.

(** X6.  Every chunk is non-empty and trimmed, and it is shorter than the
    chunk size unless it is a single word of the text. *)
Theorem split_text_into_chunks_bounded (text : str) (chunk_size : Z) :
  Forall (fun chunk =>
            chunk <> []
            /\ strip chunk = chunk
            /\ ((Z.of_nat (length chunk) < chunk_size)%Z
                \/ In chunk (split text)))
         (TextProcessor.split_text_into_chunks text chunk_size).
Proof.
  unfold TextProcessor.split_text_into_chunks.
  destruct text as [|c s]; [constructor|]. cbn [truthy negb].
  apply (chunks_from_bounded chunk_size _ (split_words (c :: s)) [] 0%Z).
  - constructor.
  - split; [reflexivity | right; cbn; lia].
Qed.

Section ChunkEdges.

Import TextProcessor.

Lemma chunks_from_one_chunk cs words :
  forall cur,
    cur ++ words <> [] ->
    (size_of (cur ++ words) <= cs)%Z ->
    chunks_from cs cur (size_of cur) words = [join [SPACE] (cur ++ words)].
Proof.
  induction words as [|word rest IH]; intros cur Hne Hsz; cbn [chunks_from].
  - rewrite app_nil_r in *. destruct cur; [congruence | reflexivity].
  - rewrite size_of_app, size_of_cons in Hsz.
    pose proof (size_of_nonneg rest).
    replace (cs <? size_of cur + (Z.of_nat (length word) + 1))%Z with false
      by (symmetry; apply Z.ltb_ge; lia).
    cbn [andb].
    replace (size_of cur + (Z.of_nat (length word) + 1))%Z
      with (size_of (cur ++ [word]))
      by (rewrite size_of_app, size_of_cons; cbn; lia).
    rewrite IH; rewrite <- ?app_assoc; try reflexivity.
    + destruct cur; discriminate.
    + cbn [app]. rewrite size_of_app, size_of_cons. lia.
Qed.

Lemma chunks_from_one_word_each cs words :
  (cs < 4)%Z -> Forall word words ->
  forall cur, (length cur <= 1)%nat -> Forall word cur ->
    chunks_from cs cur (size_of cur) words = cur ++ words.
Proof.
  intros Hcs. induction 1 as [|word rest Hword Hrest IH]; intros cur Hlen Hcur;
    cbn [chunks_from].
  - destruct cur as [|p [|q cur]]; [reflexivity | reflexivity |].
    cbn in Hlen. lia.
  - assert (2 <= size_of [word])%Z as Hws.
    { destruct Hword as [Hw _]. destruct word; [congruence | cbn; lia]. }
    assert (Z.of_nat (length word) + 1 = size_of [word])%Z as Esz
        by (cbn; lia).
    rewrite Esz.
    destruct cur as [|p [|q cur]]; [| |cbn in Hlen; lia].
    + rewrite andb_false_r. cbn [app].
      change (size_of []) with 0%Z. rewrite Z.add_0_l.
      apply (IH [word]); [cbn; lia | now constructor].
    + inversion Hcur as [|p' l' [Hp _] _]; subst.
      assert (2 <= size_of [p])%Z
        by (destruct p; [congruence | cbn; lia]).
      replace (cs <? size_of [p] + size_of [word])%Z with true
        by (symmetry; apply Z.ltb_lt; lia).
      cbn [andb join app].
      rewrite (IH [word]); [reflexivity | cbn; lia | now constructor].
Qed.

End ChunkEdges.

(** X7.  The edges of chunking: a text that is empty or whitespace only
    has no chunk; a text whose cleaned form is shorter than the chunk size
    is one chunk, its cleaned form; with a chunk size below 4, also zero
    or negative, every word is a chunk of its own. *)
Theorem split_text_into_chunks_edges (text : str) (chunk_size : Z) :
  (all_space text = true ->
   TextProcessor.split_text_into_chunks text chunk_size = [])
  /\ (all_space text = false ->
      (Z.of_nat (length (TextProcessor.clean_text text)) < chunk_size)%Z ->
      TextProcessor.split_text_into_chunks text chunk_size
      = [TextProcessor.clean_text text])
  /\ ((chunk_size < 4)%Z ->
      TextProcessor.split_text_into_chunks text chunk_size = split text).
Proof.
  unfold TextProcessor.split_text_into_chunks.
  destruct text as [|c s];
    [repeat split; try reflexivity; discriminate|].
  cbn [truthy negb]. repeat split.
  - intros H. unfold split. now rewrite split_all_space_from.
  - intros Hns Hlen. rewrite clean_text_join_split in *.
    assert (split (c :: s) <> []) as Hne.
    { intros E. apply split_nil_all_space in E. congruence. }
    rewrite length_join_space in Hlen by exact Hne.
    change 0%Z with (size_of []).
    rewrite chunks_from_one_chunk; [reflexivity | exact Hne | cbn [app]; lia].
  - intros Hcs. change 0%Z with (size_of []).
    rewrite chunks_from_one_word_each; auto using split_words.
Qed.

Lemma split_text_into_chunks_edges_witness :
  TextProcessor.split_text_into_chunks [SPACE; LF] 10 = []
  /\ TextProcessor.split_text_into_chunks (lit " ab  cd ") 6 = [lit "ab cd"]
  /\ TextProcessor.split_text_into_chunks (lit "ab cd") 3 = [lit "ab"; lit "cd"].
Proof.
  split; [|split].
  - apply (proj1 (split_text_into_chunks_edges [SPACE; LF] 10)). reflexivity.
  - apply (proj1 (proj2 (split_text_into_chunks_edges (lit " ab  cd ") 6)));
      [reflexivity | cbn; lia].
  - apply (proj2 (proj2 (split_text_into_chunks_edges (lit "ab cd") 3))). lia.
Defined.

(* ===================================================================== *)
(** * Further properties of the BlockExtractor                            *)
(* ===================================================================== *)

Section ReaderFacts.

Import DocxReader.

Lemma lstrip_idempotent s : lstrip (lstrip s) = lstrip s.
Proof.
  induction s as [|c s IH]; [reflexivity|]. simpl.
  destruct (isspace c) eqn:Hc; [exact IH|]. simpl. now rewrite Hc.
Qed.

Lemma rstrip_idempotent s : rstrip (rstrip s) = rstrip s.
Proof. unfold rstrip. now rewrite rev_involutive, lstrip_idempotent. Qed.

Lemma strip_idempotent s : strip (strip s) = strip s.
Proof.
  induction s as [|c s IH]; [reflexivity|].
  destruct (isspace c) eqn:Hc.
  - now rewrite (strip_space_cons _ _ Hc).
  - unfold strip. cbn [lstrip]. rewrite Hc, (rstrip_cons _ _ Hc).
    cbn [lstrip]. rewrite Hc, (rstrip_cons _ _ Hc).
    now rewrite rstrip_idempotent.
Qed.

Lemma blocks_from_skip_blanks blanks rest :
  forallb is_blank blanks = true ->
  blocks_from [] (blanks ++ rest) = blocks_from [] rest.
Proof.
  induction blanks as [|b blanks IH]; [reflexivity|]. cbn [forallb app].
  intros H. apply andb_prop in H as [Hb Hbl].
  cbn [blocks_from]. rewrite Hb. cbn [truthy]. auto.
Qed.

Lemma blocks_from_flush text_block blanks rest :
  text_block <> [] -> blanks <> [] -> forallb is_blank blanks = true ->
  blocks_from text_block (blanks ++ rest)
  = strip text_block :: blocks_from [] rest.
Proof.
  intros Htb Hne H. destruct blanks as [|b blanks]; [congruence|].
  cbn [forallb] in H. apply andb_prop in H as [Hb Hbl].
  cbn [app blocks_from]. rewrite Hb.
  destruct text_block; [congruence|]. cbn [truthy].
  now rewrite blocks_from_skip_blanks.
Qed.

Lemma blocks_from_run run rest :
  forallb (fun p => negb (is_blank p)) run = true ->
  forall text_block,
    blocks_from text_block (run ++ rest)
    = blocks_from (text_block ++ concat (map (fun p => p ++ [LF]) run)) rest.
Proof.
  induction run as [|p run IH]; intros H tb.
  - cbn. now rewrite app_nil_r.
  - cbn [forallb] in H. apply andb_prop in H as [Hp Hrun].
    apply negb_true_iff in Hp.
    cbn [app blocks_from map concat]. rewrite Hp, IH by exact Hrun.
    now rewrite <- !app_assoc.
Qed.

Lemma concat_lines run :
  run <> [] -> concat (map (fun p => p ++ [LF]) run) = join [LF] run ++ [LF].
Proof.
  induction run as [|p run IH]; [congruence|]. intros _.
  cbn [map concat]. rewrite join_cons. destruct run as [|q run].
  - cbn. now rewrite !app_nil_r.
  - rewrite IH by discriminate. now rewrite <- !app_assoc.
Qed.

Lemma strip_lines run :
  run <> [] -> strip (concat (map (fun p => p ++ [LF]) run)) = block_of run.
Proof.
  intros H. rewrite concat_lines by exact H. now apply strip_app_space.
Qed.

Lemma lines_not_nil run :
  run <> [] -> concat (map (fun p => p ++ [LF]) run) <> [].
Proof.
  intros H. rewrite concat_lines by exact H. now destruct (join [LF] run).
Qed.

Lemma blocks_from_runs runs last :
  forallb run_ok runs = true ->
  forallb (fun p => negb (is_blank p)) last = true ->
  blocks_from [] (runs_document [] runs last)
  = map block_of (map fst runs ++ match last with [] => [] | _ => [last] end).
Proof.
  unfold runs_document. cbn [app].
  induction runs as [|[run blanks] runs IH]; intros Hruns Hlast.
  - cbn [flat_map app map].
    rewrite <- (app_nil_r last) at 1. rewrite blocks_from_run by exact Hlast.
    cbn [app blocks_from]. destruct last as [|p last]; [reflexivity|].
    pose proof (lines_not_nil (p :: last) ltac:(discriminate)) as Hne.
    destruct (concat _) eqn:E; [congruence|]. cbn [truthy map].
    now rewrite <- E, strip_lines.
  - cbn [forallb] in Hruns. apply andb_prop in Hruns as [Hrb Hruns].
    unfold run_ok in Hrb. cbn [fst snd] in Hrb.
    apply andb_prop in Hrb as [Hrb Hbl]. apply andb_prop in Hrb as [Hrb Hbne].
    apply andb_prop in Hrb as [Hrne Hrun].
    cbn [flat_map fst snd map app]. rewrite <- !app_assoc.
    rewrite blocks_from_run by exact Hrun. cbn [app].
    assert (run <> []) as Hr by (destruct run; [discriminate | discriminate]).
    rewrite blocks_from_flush;
      [| now apply lines_not_nil | destruct blanks; discriminate | exact Hbl].
    rewrite strip_lines by exact Hr. f_equal. now apply IH.
Qed.

Lemma nonspace_chars_blank p : is_blank p = true -> nonspace_chars p = [].
Proof. rewrite is_blank_all_space. apply nonspace_chars_nil. Qed.

Lemma blocks_from_keep_characters paragraphs :
  forall text_block,
    nonspace_chars (concat (blocks_from text_block paragraphs))
    = nonspace_chars text_block ++ nonspace_chars (concat paragraphs).
Proof.
  induction paragraphs as [|p rest IH]; intros tb; cbn [blocks_from concat].
  - destruct tb as [|c tb]; [reflexivity|]. cbn [truthy concat].
    now rewrite !app_nil_r, nonspace_chars_strip.
  - rewrite (nonspace_chars_app p). destruct (is_blank p) eqn:Hp.
    + rewrite (nonspace_chars_blank _ Hp). cbn [app].
      destruct tb as [|c tb]; cbn [truthy]; [apply IH|].
      cbn [concat]. now rewrite nonspace_chars_app, nonspace_chars_strip, IH.
    + rewrite IH, !nonspace_chars_app. cbn. now rewrite app_nil_r, <- app_assoc.
Qed.

Lemma blocks_from_trimmed paragraphs :
  forall text_block,
    Forall (fun b => strip b = b) (blocks_from text_block paragraphs).
Proof.
  induction paragraphs as [|p rest IH]; intros tb; cbn [blocks_from].
  - destruct tb; cbn [truthy]; repeat constructor. apply strip_idempotent.
  - destruct (is_blank p); [|apply IH].
    destruct tb; cbn [truthy]; [apply IH|].
    constructor; [apply strip_idempotent | apply IH].
Qed.

Lemma blocks_from_count paragraphs :
  forall text_block,
    (2 * length (blocks_from text_block paragraphs)
     <= length paragraphs + (if truthy text_block then 2 else 1))%nat.
Proof.
  induction paragraphs as [|p rest IH]; intros tb; cbn [blocks_from length].
  - destruct tb; cbn; lia.
  - destruct (is_blank p).
    + destruct tb as [|c tb]; cbn [truthy length].
      * specialize (IH []). cbn [truthy] in IH. lia.
      * specialize (IH []). cbn [truthy] in IH. lia.
    + specialize (IH (tb ++ p ++ [LF])).
      replace (truthy (tb ++ p ++ [LF])) with true in IH
        by (destruct tb; [destruct p|]; reflexivity).
      destruct (truthy tb); lia.
Qed.

End ReaderFacts.

(** X8.  A document that can be opened is read run by run: leading blank
    paragraphs give nothing, every run of non-blank paragraphs that follow
    one another gives one block, the texts of its paragraphs joined by
    newlines and trimmed, however many blank paragraphs end the run, and a
    last run that no blank paragraph follows is a block too. *)
Theorem extraction_joins_runs (env : Env) (file_path : str) (w : World)
    (lead : list str) (runs : list (list str * list str)) (last : list str) :
  forallb is_blank lead = true ->
  forallb DocxReader.run_ok runs = true ->
  forallb (fun p => negb (is_blank p)) last = true ->
  docx_Document env file_path = inr (DocxReader.runs_document lead runs last) ->
  DocxReader.read_docx_text_blocks env file_path w
  = (inr (map Some
            (map DocxReader.block_of
               (map fst runs ++ match last with [] => [] | _ => [last] end))),
     w).
Proof.
  intros Hlead Hruns Hlast Hdoc.
  unfold DocxReader.read_docx_text_blocks. rewrite Hdoc.
  unfold DocxReader.runs_document. rewrite blocks_from_skip_blanks by exact Hlead.
  now rewrite <- (blocks_from_runs runs last Hruns Hlast).
Qed.

Lemma extraction_joins_runs_witness :
  DocxReader.read_docx_text_blocks
    (Scenario.env_with
       [[]; lit " a"; lit "b "; [SPACE]; []; lit "c"; [LF]; lit "d"; lit "e"]
       Scenario.uppercasing_model)
    (lit "in.docx") initial_world
  = (inr [Some (lit "a" ++ [LF] ++ lit "b"); Some (lit "c");
          Some (lit "d" ++ [LF] ++ lit "e")], initial_world).
Proof.
  apply (extraction_joins_runs
           (Scenario.env_with
              [[]; lit " a"; lit "b "; [SPACE]; []; lit "c"; [LF]; lit "d"; lit "e"]
              Scenario.uppercasing_model)
           (lit "in.docx") initial_world
           [[]]
           [([lit " a"; lit "b "], [[SPACE]; []]); ([lit "c"], [[LF]])]
           [lit "d"; lit "e"]); reflexivity.
Defined.

(** X9.  For every document that can be opened, the blocks read are
    trimmed, they hold the characters of the paragraphs that are not
    whitespace, all of them and in their order, and there is at most one
    block for every two paragraphs, rounded up. *)
Theorem extraction_keeps_text (env : Env) (file_path : str) (w : World)
    (paragraphs : list str) :
  docx_Document env file_path = inr paragraphs ->
  exists blocks,
    DocxReader.read_docx_text_blocks env file_path w
    = (inr (map Some blocks), w)
    /\ Forall (fun b => strip b = b) blocks
    /\ nonspace_chars (concat blocks) = nonspace_chars (concat paragraphs)
    /\ (2 * length blocks <= length paragraphs + 1)%nat.
Proof.
  intros Hdoc. exists (DocxReader.blocks_from [] paragraphs).
  unfold DocxReader.read_docx_text_blocks. rewrite Hdoc.
  split; [reflexivity|]. split; [apply blocks_from_trimmed|].
  split; [apply blocks_from_keep_characters|].
  apply (blocks_from_count paragraphs []).
Qed.

Lemma extraction_keeps_text_witness :
  exists blocks,
    DocxReader.read_docx_text_blocks
      (Scenario.env_with Scenario.hello_world Scenario.uppercasing_model)
      (lit "in.docx") initial_world
    = (inr (map Some blocks), initial_world)
    /\ Forall (fun b => strip b = b) blocks
    /\ nonspace_chars (concat blocks) = lit "HelloWorld"
    /\ (2 * length blocks <= 3 + 1)%nat.
Proof.
  apply (extraction_keeps_text
           (Scenario.env_with Scenario.hello_world Scenario.uppercasing_model)
           (lit "in.docx") initial_world Scenario.hello_world).
  reflexivity.
Defined.

(** X10.  Every block read from a document has a cleaned text that is not
    empty: no block that [read_docx_text_blocks] yields is dropped by
    [_process_text_block] as empty after cleaning. *)
Theorem extracted_blocks_survive_cleaning (env : Env) (file_path : str)
    (w : World) (paragraphs : list str) :
  docx_Document env file_path = inr paragraphs ->
  exists blocks,
    DocxReader.read_docx_text_blocks env file_path w
    = (inr (map Some blocks), w)
    /\ Forall (fun b => TextProcessor.clean_text b <> []) blocks.
Proof.
  intros Hdoc. exists (DocxReader.blocks_from [] paragraphs).
  unfold DocxReader.read_docx_text_blocks. rewrite Hdoc.
  split; [reflexivity|].
  pose proof (blocks_from_trimmed paragraphs []) as Ht.
  pose proof (blocks_from_not_empty [] paragraphs (or_introl eq_refl)) as Hn.
  rewrite Forall_forall in *. intros b Hb Hc.
  apply clean_text_nil_iff, strip_all_space in Hc.
  rewrite (Ht b Hb) in Hc. subst b. contradiction.
Qed.

Lemma extracted_blocks_survive_cleaning_witness :
  exists blocks,
    DocxReader.read_docx_text_blocks
      (Scenario.env_with Scenario.hello_world Scenario.uppercasing_model)
      (lit "in.docx") initial_world
    = (inr (map Some blocks), initial_world)
    /\ Forall (fun b => TextProcessor.clean_text b <> []) blocks.
Proof.
  apply (extracted_blocks_survive_cleaning
           (Scenario.env_with Scenario.hello_world Scenario.uppercasing_model)
           (lit "in.docx") initial_world Scenario.hello_world).
  reflexivity.
Defined.

(* ===================================================================== *)
(** * Further properties of the ModelClient                               *)
(* ===================================================================== *)

(** The shape of every call of [invoke]. *)
Lemma invoke_shape
    (env : Env) (self : LLMInterface.t) (messages : list message) (w : World) :
  let r := LLMInterface.invoke env self messages w in
  let retries_left := Z.to_nat (LLMInterface.max_retries self - retry_count w) in
  exists (n : nat) (t : list event),
    (n <= retries_left)%nat
    /\ (forall i, (i < n)%nat ->
          exists e, model_invoke env (model_calls w + i) messages = inl e)
    /\ trace (snd r) = trace w ++ t
    /\ model_invokes t = repeat messages (n + 1)
    /\ sleeps t
       = map (fun i => IntSeconds (2 ^ (retry_count w + Z.of_nat i))) (seq 1 n)
    /\ model_calls (snd r) = (model_calls w + n + 1)%nat
    /\ save_calls (snd r) = save_calls w
    /\ saves t = []
    /\ retry_count (snd r) = 0%Z
    /\ match model_invoke env (model_calls w + n) messages with
       | inr content => fst r = inr content
       | inl e =>
           n = retries_left
           /\ fst r
              = inl (Exception
                       (lit "Error after "
                        ++ str_of_int (LLMInterface.max_retries self)
                        ++ lit " retries: " ++ str_of_exn e))
       end.
Proof.
  intros r retries_left. subst r.
  remember retries_left as m eqn:Em. unfold retries_left in Em. clear retries_left.
  revert w Em. induction m as [|m IH]; intros w Em.
  - rewrite invoke_unfold.
    destruct (model_invoke env (model_calls w) messages) as [e|content] eqn:Hm.
    + rewrite (invoke_body_exhausted _ _ _ _ _ Hm) by lia.
      exists 0%nat. eexists. cbn [fst snd trace model_calls save_calls retry_count].
      repeat split; try reflexivity; try lia.
      rewrite Nat.add_0_r, Hm. split; reflexivity.
    + rewrite (invoke_body_success _ _ _ _ _ Hm).
      exists 0%nat. eexists. cbn [fst snd trace model_calls save_calls retry_count].
      repeat split; try reflexivity; try lia.
      now rewrite Nat.add_0_r, Hm.
  - rewrite invoke_unfold.
    destruct (model_invoke env (model_calls w) messages) as [e|content] eqn:Hm.
    + rewrite (invoke_body_retry _ _ _ _ _ Hm) by lia.
      match goal with
      | |- context [LLMInterface.invoke _ _ _ ?w1] => set (w1' := w1)
      end.
      destruct (IH w1') as (n & t & Hn & Hfail & Ht & Hms & Hsl & Hmc & Hsc
                            & Hsv & Hrc & Hres).
      { unfold w1'. cbn. lia. }
      exists (S n). eexists.
      split; [lia|]. split.
      { intros i Hi. destruct i as [|i]; [rewrite Nat.add_0_r; eauto|].
        destruct (Hfail i ltac:(lia)) as [e' He']. exists e'.
        rewrite <- He'. unfold w1'. cbn. f_equal. lia. }
      split. { rewrite Ht. unfold w1'. cbn. rewrite <- app_assoc. reflexivity. }
      split. { rewrite model_invokes_app, Hms. reflexivity. }
      split.
      { rewrite sleeps_app, Hsl. cbn [sleeps flat_map app seq map]. f_equal.
        rewrite <- (seq_shift n 1), map_map. apply map_ext.
        intros i. unfold w1'. cbn. do 2 f_equal. lia. }
      split. { rewrite Hmc. unfold w1'. cbn. lia. }
      split. { rewrite Hsc. reflexivity. }
      split. { unfold saves in *. rewrite flat_map_app, Hsv. reflexivity. }
      split. { exact Hrc. }
      replace (model_calls w + S n)%nat with (model_calls w1' + n)%nat
        by (unfold w1'; cbn; lia).
      destruct (model_invoke env (model_calls w1' + n) messages);
        [|exact Hres].
      destruct Hres as [-> Hres]. split; [|exact Hres].
      unfold w1'. cbn. lia.
    + rewrite (invoke_body_success _ _ _ _ _ Hm).
      exists 0%nat. eexists. cbn [fst snd trace model_calls save_calls retry_count].
      repeat split; try reflexivity; try lia.
      now rewrite Nat.add_0_r, Hm.
Qed.

(** X11.  Whatever the backend does, one [invoke] calls it at most once
    more than there are retries left, with the same messages every time;
    all its calls but the last have failed; before every retry it sleeps,
    2 seconds to the power of the counter; it ends with the counter at 0
    and saves nothing; it returns the content of the last call if that
    one succeeded, and it raises the terminal failure with the error of
    the last call only when no retry is left. *)
Theorem invoke_is_bounded
    (env : Env) (self : LLMInterface.t) (messages : list message) (w : World) :
  let r := LLMInterface.invoke env self messages w in
  let retries_left := Z.to_nat (LLMInterface.max_retries self - retry_count w) in
  exists (n : nat) (t : list event),
    (n <= retries_left)%nat
    /\ (forall i, (i < n)%nat ->
          exists e, model_invoke env (model_calls w + i) messages = inl e)
    /\ trace (snd r) = trace w ++ t
    /\ model_invokes t = repeat messages (n + 1)
    /\ sleeps t
       = map (fun i => IntSeconds (2 ^ (retry_count w + Z.of_nat i))) (seq 1 n)
    /\ model_calls (snd r) = (model_calls w + n + 1)%nat
    /\ save_calls (snd r) = save_calls w
    /\ saves t = []
    /\ retry_count (snd r) = 0%Z
    /\ match model_invoke env (model_calls w + n) messages with
       | inr content => fst r = inr content
       | inl e =>
           n = retries_left
           /\ fst r
              = inl (Exception
                       (lit "Error after "
                        ++ str_of_int (LLMInterface.max_retries self)
                        ++ lit " retries: " ++ str_of_exn e))
       end.
Proof. apply invoke_shape. Qed.

(* ===================================================================== *)
(** * Further properties of the run                                       *)
(* ===================================================================== *)

Section ReturnsFacts.

Lemma returns_ret {A} (Q : A -> Prop) a : Q a -> returns Q (ret a).
Proof. intros H w. exists a. auto. Qed.

Lemma returns_bind {A B} (P : A -> Prop) (Q : B -> Prop) (m : M A) (k : A -> M B) :
  returns P m -> (forall a, P a -> returns Q (k a)) -> returns Q (bind m k).
Proof.
  intros Hm Hk w. unfold bind. destruct (Hm w) as (a & Ha & Pa).
  destruct (m w) as [[e|a'] w1]; cbn in Ha; [discriminate|].
  injection Ha as ->. now apply Hk.
Qed.

Lemma returns_log {A} (Q : A -> Prop) lv msg (k : M A) :
  returns Q k -> returns Q (log lv msg;; k).
Proof. intros Hk w. apply Hk. Qed.

Lemma returns_try_except {A} (Q : A -> Prop) (m : M A) (h : exn -> M A) :
  returns_or_raises Q m -> (forall e, returns Q (h e)) ->
  returns Q (try_except m h).
Proof.
  intros Hm Hh w. unfold try_except. specialize (Hm w).
  destruct (m w) as [[e|a] w1]; cbn in Hm; [apply Hh|].
  exists a. auto.
Qed.

Lemma returns_or_raises_bind {A B} (Q : B -> Prop) (m : M A) (k : A -> M B) :
  (forall a, returns_or_raises Q (k a)) -> returns_or_raises Q (bind m k).
Proof.
  intros Hk w. unfold bind. destruct (m w) as [[e|a] w1]; [exact I | apply Hk].
Qed.

Lemma returns_or_raises_of_returns {A} (Q : A -> Prop) (m : M A) :
  returns Q m -> returns_or_raises Q m.
Proof. intros H w. destruct (H w) as (a & -> & Ha). exact Ha. Qed.

Lemma returns_process env self :
  returns (fun _ => True) (ShAIyarProcessor.process env self).
Proof.
  unfold ShAIyarProcessor.process. apply returns_try_except.
  - intros w. now destruct (fst _).
  - intros e. apply returns_log, returns_ret. exact I.
Qed.

Lemma returns_process_text_block env self text_block block_index :
  returns (fun _ => True)
    (ShAIyarProcessor._process_text_block env self text_block block_index).
Proof.
  intros w.
  destruct (_process_text_block_returns env self text_block block_index w)
    as (r & w' & ->). now exists r.
Qed.

Lemma returns_read_docx_text_blocks env file_path :
  returns (fun _ => True) (DocxReader.read_docx_text_blocks env file_path).
Proof.
  intros w.
  destruct (read_docx_text_blocks_returns env file_path w) as (r & w' & ->).
  now exists r.
Qed.

(** Once logging is set up, [main] ends with one of its own two
    statuses. *)
Lemma returns_main env inv args :
  parse_args inv = inr args ->
  logging_FileHandler inv (lit "logs/shaiyar.log") = None ->
  returns (fun status => status = 0%Z \/ status = 1%Z) (main env inv).
Proof.
  intros Hargs Hlog. unfold main, setup_logging. rewrite Hargs, Hlog.
  intros w. rewrite (bind_inr _ _ _ _ _ (eq_refl : ret tt w = (inr tt, w))).
  revert w. apply returns_log, returns_try_except.
  - destruct (Config.__init__ _ _) as [e|config]; [intros w; exact I|].
    repeat (apply returns_or_raises_bind; intros ?).
    apply returns_or_raises_of_returns.
    match goal with |- context [if ?b then _ else _] => destruct b end;
      apply returns_log, returns_ret; auto.
  - intros e. apply returns_log, returns_ret. auto.
Qed.

End ReturnsFacts.

(** X12.  No exception escapes the pipeline: [read_docx_text_blocks],
    [_process_text_block] and [process] return a value whatever the
    document, the backend and the disk do.  [main] ends in one of three
    ways: argparse ends it with its own status, before anything is
    logged; the exception of [setup_logging], raised outside the [try],
    escapes it, before anything is logged; or it ends with the exit
    status 0 or 1. *)
Theorem only_setup_logging_escapes (env : Env) (inv : Invocation)
    (self : ShAIyarProcessor.t) (file_path text_block : str)
    (block_index : nat) (w : World) :
  (exists text_blocks,
     fst (DocxReader.read_docx_text_blocks env file_path w) = inr text_blocks)
  /\ (exists processed_block,
        fst (ShAIyarProcessor._process_text_block env self text_block
               block_index w) = inr processed_block)
  /\ (exists success, fst (ShAIyarProcessor.process env self w) = inr success)
  /\ match parse_args inv with
     | inl status => main env inv w = (inr status, w)
     | inr args =>
         match logging_FileHandler inv (lit "logs/shaiyar.log") with
         | Some e => main env inv w = (inl e, w)
         | None =>
             exists status,
               fst (main env inv w) = inr status
               /\ (status = 0%Z \/ status = 1%Z)
         end
     end.
Proof.
  destruct (returns_read_docx_text_blocks env file_path w) as (a & Ha & _).
  destruct (returns_process_text_block env self text_block block_index w)
    as (b & Hb & _).
  destruct (returns_process env self w) as (c & Hc & _).
  repeat (split; [eauto|]).
  destruct (parse_args inv) as [status|args] eqn:Hargs.
  - unfold main. now rewrite Hargs.
  - destruct (logging_FileHandler inv (lit "logs/shaiyar.log")) as [e|] eqn:Hlog.
    + unfold main, setup_logging. rewrite Hargs, Hlog. reflexivity.
    + destruct (returns_main env inv args Hargs Hlog w) as (d & Hd & Hd').
      eauto.
Qed.

Section FatalFacts.

Variable env : Env.
Variable inv : Invocation.
Variable args : Args.t.

Hypothesis parsed : parse_args inv = inr args.
Hypothesis logging_set_up :
  logging_FileHandler inv (lit "logs/shaiyar.log") = None.

Lemma main_validation_raises loaded w e :
  Config.__init__ (config_files inv) (Args.config args) = inr loaded ->
  fst (Config.validate env (overrides args loaded)
         (add_events w [Log INFO Starting_ShAIyar]))
  = inl e ->
  main env inv w
  = (inr 1%Z,
     add_events w [Log INFO Starting_ShAIyar; Log ERROR (Application_error e)]).
Proof.
  intros Hconfig Hv.
  rewrite (main_started env inv args loaded w parsed logging_set_up Hconfig).
  rewrite (bind_inr _ _ _ _ _ (log_run _ _ _)).
  unfold try_except.
  pose proof (validate_keeps_world env (overrides args loaded)
                (add_events w [Log INFO Starting_ShAIyar])) as Hw.
  destruct (Config.validate env (overrides args loaded) _) as [rv wv] eqn:Ev.
  cbn in Hv, Hw. subst rv wv. rewrite (bind_inl _ _ _ _ _ Ev).
  rewrite (bind_inr _ _ _ _ _ (log_run _ _ _)). unfold ret.
  now rewrite add_events_app.
Qed.

Lemma main_config_raises w e :
  Config.__init__ (config_files inv) (Args.config args) = inl e ->
  main env inv w
  = (inr 1%Z,
     add_events w [Log INFO Starting_ShAIyar; Log ERROR (Application_error e)]).
Proof.
  intros Hconfig. unfold main, setup_logging.
  rewrite parsed, logging_set_up, Hconfig.
  unfold bind, try_except, raise, ret, log, emit, add_events. cbn.
  now rewrite <- app_assoc.
Qed.

(** The provider is the one of the command line. *)
Lemma overrides_provider loaded :
  Config.provider (Config.llm_config (overrides args loaded))
  = Args.choice_name (Args.provider args).
Proof. unfold overrides. now destruct (Args.provider args). Qed.

End FatalFacts.

(** X13.  Take a run of [main] whose command line is parsed and whose log
    file can be opened.  The provider it runs with is the one of the
    command line, whatever the configuration file says: one of groq,
    openai and google, so the factory builds one of their three
    interfaces and never rejects the provider.  All three need an API
    key: a run that has none, a missing input file or system-message
    file, or a configuration that cannot be built ends [main] with the
    exit status 1 before anything is read, sent or written; the run logs
    its start and the error, and nothing else. *)
Theorem fatal_configuration_exits_1
    (env : Env) (inv : Invocation) (args : Args.t) (w : World) :
  parse_args inv = inr args ->
  logging_FileHandler inv (lit "logs/shaiyar.log") = None ->
  match Config.__init__ (config_files inv) (Args.config args) with
  | inl _ => True
  | inr loaded =>
      let config := overrides args loaded in
      truthy_opt (Config.api_key (Config.llm_config config)) = false
      \/ os_path_exists env
           (Config.input_docx_path (Config.file_config config)) = false
      \/ os_path_exists env
           (Config.system_message_path (Config.file_config config)) = false
  end ->
  (exists e,
     main env inv w
     = (inr 1%Z,
        add_events w
          [Log INFO Starting_ShAIyar; Log ERROR (Application_error e)]))
  /\ (forall loaded max_retries,
        exists cls,
          In cls [lit "GroqInterface"; lit "OpenAIInterface";
                  lit "GoogleInterface"]
          /\ LLMFactory.create_llm_interface env
               (Config.provider (Config.llm_config (overrides args loaded)))
               max_retries
             = LLMFactory.new_interface env cls max_retries).
Proof.
  intros Hargs Hlog H. split.
  - destruct (Config.__init__ (config_files inv) (Args.config args))
      as [e|loaded] eqn:Hconfig.
    { exists e. now apply main_config_raises with (args := args). }
    cbv zeta in H.
    set (config := overrides args loaded) in *.
    set (w0 := add_events w [Log INFO Starting_ShAIyar]).
    destruct (Config.validate env config w0) as [[e|b] wv] eqn:Ev.
    { exists e. apply main_validation_raises with (args := args) (loaded := loaded);
        try assumption. fold config w0. now rewrite Ev. }
    exfalso. unfold Config.validate, raise in Ev.
    assert (existsb (str_eqb (lower (Config.provider (Config.llm_config config))))
              [lit "groq"; lit "openai"; lit "google"] = true) as Hk.
    { unfold config. rewrite overrides_provider.
      now destruct (Args.provider args). }
    rewrite Hk in Ev. destruct H as [Hn|[Hi|Hs]].
    + rewrite Hn in Ev. cbn [andb negb] in Ev. discriminate Ev.
    + rewrite Hi in Ev.
      destruct (negb (truthy_opt _)); cbn [andb negb] in Ev;
        cbv beta iota in Ev; discriminate Ev.
    + rewrite Hs in Ev.
      destruct (negb (truthy_opt _)); cbn [andb] in Ev; cbv beta iota in Ev;
        [discriminate Ev|].
      destruct (negb (os_path_exists env
                        (Config.input_docx_path (Config.file_config config))));
        cbn [negb] in Ev; cbv beta iota in Ev; discriminate Ev.
  - intros loaded max_retries. rewrite overrides_provider.
    destruct (Args.provider args); eexists; (split; [|reflexivity]); cbn; auto.
Qed.

Lemma fatal_configuration_exits_1_witness :
  exists e,
    main (Scenario.env_with Scenario.hello_world Scenario.uppercasing_model)
      (Scenario.started_with Scenario.no_options
         (Some Scenario.config_without_key)) initial_world
    = (inr 1%Z,
       add_events initial_world
         [Log INFO Starting_ShAIyar; Log ERROR (Application_error e)]).
Proof.
  apply (proj1 (fatal_configuration_exits_1
                  (Scenario.env_with Scenario.hello_world
                     Scenario.uppercasing_model)
                  (Scenario.started_with Scenario.no_options
                     (Some Scenario.config_without_key))
                  Scenario.no_options initial_world
                  eq_refl eq_refl (or_introl eq_refl))).
Defined.

Section SinkFacts.

Import ShAIyarProcessor.

Variable env : Env.
Variable self : ShAIyarProcessor.t.

Abbreviation the_sep := (Config.separator (Config.file_config (config self))).
Abbreviation the_path :=
  (Config.output_docx_path (Config.file_config (config self))).

Lemma with_separators_snoc sep written pb :
  written <> [] ->
  with_separators sep (written ++ [pb]) = with_separators sep written ++ [sep; pb].
Proof.
  induction written as [|b written IH]; [congruence|]. intros _.
  destruct written as [|c written]; [reflexivity|].
  change ((b :: c :: written) ++ [pb]) with (b :: (c :: written) ++ [pb]).
  cbn [with_separators app] in *. rewrite IH by discriminate.
  destruct written; reflexivity.
Qed.

Lemma add_paragraphs_wrote l written pb :
  truthy the_sep = true -> wrote the_sep l written ->
  add_paragraphs the_sep l pb = with_separators the_sep (written ++ [pb]).
Proof.
  intros Hsep (Hdoc & Hfirst & _). unfold add_paragraphs.
  rewrite Hfirst, Hsep, Hdoc. destruct written as [|b written].
  - reflexivity.
  - cbn [truthy_list negb andb]. rewrite with_separators_snoc by discriminate.
    now rewrite <- app_assoc.
Qed.

Lemma saves_app t1 t2 : saves (t1 ++ t2) = saves t1 ++ saves t2.
Proof. apply flat_map_app. Qed.

Lemma saves_pacing i len : saves (pacing self i len) = [].
Proof. unfold pacing. now destruct (_ <? _)%Z. Qed.

(** [_process_text_block] saves nothing. *)
Lemma _process_text_block_saves_nothing text_block block_index w :
  exists r w' t,
    _process_text_block env self text_block block_index w = (inr r, w')
    /\ trace w' = trace w ++ t
    /\ saves t = []
    /\ save_calls w' = save_calls w.
Proof.
  destruct (clean_text (text_processor self) text_block) as [|c s] eqn:E.
  - rewrite _process_text_block_empty by exact E.
    eexists _, _, _. repeat split; reflexivity.
  - rewrite _process_text_block_invoke by congruence.
    match goal with
    | |- context [LLMInterface.invoke env ?llm ?ms ?w0] =>
        destruct (invoke_shape env llm ms w0)
          as (n & t & _ & _ & Ht & _ & _ & _ & Hsc & Hsv & _);
        destruct (LLMInterface.invoke env llm ms w0) as [[e|result] w1]
    end; cbn [fst snd] in *;
      eexists _, _, _; (split; [reflexivity|]); cbn [trace add_events save_calls];
      rewrite Ht; cbn [trace add_events]; rewrite <- !app_assoc;
      (split; [reflexivity|]); rewrite !saves_app, Hsv; auto.
Qed.

Hypothesis saves_succeed : forall n p d, docx_save env n p d = None.
Hypothesis sep_truthy : truthy the_sep = true.
Hypothesis delay_is_accepted : delay_accepted self.

(** The loop appends every block it writes behind those written before,
    and saves the whole document each time. *)
Lemma process_loop_saves total_blocks len text_blocks :
  forall i l w written,
    wrote the_sep l written ->
    exists new l' w' t,
      process_loop env self total_blocks len i text_blocks l w = (inr l', w')
      /\ wrote the_sep l' (written ++ new)
      /\ Forall (fun pb => pb <> []) new
      /\ trace w' = trace w ++ t
      /\ saves t
         = map (fun k => with_separators the_sep (written ++ firstn k new))
               (seq 1 (length new))
      /\ save_calls w' = (save_calls w + length new)%nat.
Proof.
  induction text_blocks as [|[text_block|] rest IH]; intros i l w written Hl;
    cbn [process_loop].
  - exists [], l, w, []. rewrite !app_nil_r. repeat split; auto; apply Hl.
  - destruct (_process_text_block_saves_nothing text_block i
                (add_events w [Log INFO (Processing_block_of (i + 1) total_blocks)]))
      as (r & w1 & t1 & Hp & Ht1 & Hs1 & Hsc1).
    destruct (truthy_opt r) eqn:Hr.
    + destruct r as [pb|]; [|discriminate]. cbn [truthy_opt] in Hr.
      rewrite (bind_inr _ _ _ _ _
                 (process_block_saved_paused env self delay_is_accepted
                    total_blocks len i text_block l
                    w pb w1 Hp Hr (saves_succeed _ _ _))).
      match goal with
      | |- context [process_loop _ _ _ _ _ _ ?l1 ?w2] =>
          destruct (IH (S i) l1 w2 (written ++ [pb]))
            as (new & l' & w' & t & Hrun & Hl' & Hnew & Ht & Hsv & Hsc)
      end.
      { split; [|split]; cbn [output_doc is_first_block_written successful_blocks].
        - now apply add_paragraphs_wrote.
        - now destruct written.
        - rewrite length_app. cbn. destruct Hl as (_ & _ & ->). reflexivity. }
      exists (pb :: new), l', w'. eexists. rewrite Hrun.
      split; [reflexivity|]. split; [now rewrite <- app_assoc in Hl'|].
      split; [constructor; [now destruct pb | exact Hnew]|].
      split.
      { rewrite Ht. cbn [trace add_events after_save]. rewrite Ht1.
        cbn [trace add_events]. rewrite <- !app_assoc. reflexivity. }
      split.
      { rewrite !saves_app, Hs1, Hsv, saves_pacing.
        cbn [saves flat_map app length seq map firstn].
        rewrite (add_paragraphs_wrote l written pb sep_truthy Hl). f_equal.
        rewrite <- (seq_shift (length new) 1), map_map. apply map_ext.
        intros k. cbn [firstn]. now rewrite <- app_assoc. }
      rewrite Hsc. cbn [save_calls add_events after_save length].
      rewrite Hsc1. cbn. lia.
    + rewrite (bind_inr _ _ _ _ _
                 (process_block_nothing_paused env self delay_is_accepted
                    total_blocks len i text_block l w r w1 Hp Hr)).
      destruct (IH (S i) l (add_events w1 (pacing self i len)) written Hl)
        as (new & l' & w' & t & Hrun & Hl' & Hnew & Ht & Hsv & Hsc).
      exists new, l', w'. eexists. rewrite Hrun.
      split; [reflexivity|]. split; [exact Hl'|]. split; [exact Hnew|].
      split.
      { rewrite Ht. cbn [trace add_events]. rewrite Ht1.
        cbn [trace add_events]. rewrite <- !app_assoc. reflexivity. }
      split.
      { rewrite !saves_app, Hs1, Hsv, saves_pacing. reflexivity. }
      rewrite Hsc. cbn [save_calls add_events]. now rewrite Hsc1.
  - apply IH. exact Hl.
Qed.

End SinkFacts.

Section ProcessRunFacts.

Import ShAIyarProcessor.

Variable env : Env.
Variable self : ShAIyarProcessor.t.

Abbreviation input_path :=
  (Config.input_docx_path (Config.file_config (config self))).

(** The reader changes nothing but the log. *)
Lemma read_docx_text_blocks_logs file_path w :
  exists text_blocks t,
    DocxReader.read_docx_text_blocks env file_path w
    = (inr text_blocks, add_events w t)
    /\ saves t = [] /\ model_invokes t = [] /\ sleeps t = [].
Proof.
  destruct (docx_Document env file_path) as [e|paragraphs] eqn:Hdoc.
  - rewrite (read_docx_text_blocks_failure env file_path e w Hdoc).
    eexists _, _. repeat split; reflexivity.
  - exists (map Some (DocxReader.blocks_from [] paragraphs)), [].
    unfold DocxReader.read_docx_text_blocks. rewrite Hdoc.
    unfold ret. rewrite add_events_nil. repeat split.
Qed.

Lemma process_of_try w r w' :
  process_try env self w = (inr r, w') ->
  process env self w = (inr (fst r), w').
Proof.
  intros H. unfold process, try_except. now rewrite (bind_inr _ _ _ _ _ H).
Qed.

(** [process_try] up to its loop, when the configuration validates. *)
Lemma process_try_to_loop w :
  fst (Config.validate env (config self) w) = inr true ->
  exists text_blocks t0,
    DocxReader.read_docx_text_blocks env input_path w
    = (inr text_blocks, add_events w t0)
    /\ saves t0 = [] /\ model_invokes t0 = [] /\ sleeps t0 = []
    /\ process_try env self w
       = (let total_blocks := length (filter is_not_None text_blocks) in
          l <- process_loop env self total_blocks (length text_blocks) 0
                 text_blocks locals_init;;
          log INFO (Successfully_processed_blocks (successful_blocks l)
                      total_blocks);;
          ret (true, l))
           (add_events w
              (t0 ++ [Log INFO (Starting_processing_of_blocks
                                  (length (filter is_not_None text_blocks)))])).
Proof.
  intros Hv. unfold process_try.
  pose proof (validate_keeps_world env (config self) w) as Hw.
  destruct (Config.validate env (config self) w) as [rv wv] eqn:Ev.
  cbn in Hv, Hw. subst rv wv.
  destruct (read_docx_text_blocks_logs input_path w)
    as (text_blocks & t0 & Hread & H1 & H2 & H3).
  exists text_blocks, t0. repeat split; try assumption.
  rewrite (bind_inr _ _ _ _ _ Ev), (bind_inr _ _ _ _ _ Hread).
  rewrite (bind_inr _ _ _ _ _ (log_run _ _ _)).
  now rewrite add_events_app.
Qed.

End ProcessRunFacts.

(** X14.  When the configuration validates, no save raises, the
    separator is not empty and [time.sleep] takes the configured delay,
    [process] returns [True] and the output document only grows: the blocks written are not empty, the k-th save
    holds the first k of them with the separator between every two, there
    is one save for each, and the count of successes logged at the end is
    their number. *)
Theorem process_saves_after_every_block
    (env : Env) (self : ShAIyarProcessor.t) (w : World) :
  let sep := Config.separator
               (Config.file_config (ShAIyarProcessor.config self)) in
  fst (Config.validate env (ShAIyarProcessor.config self) w) = inr true ->
  (forall n p d, docx_save env n p d = None) ->
  truthy sep = true ->
  ShAIyarProcessor.delay_accepted self ->
  exists (written : list str) (total_blocks : nat) (w' : World) (t : list event),
    ShAIyarProcessor.process env self w = (inr true, w')
    /\ trace w'
       = trace w ++ t
         ++ [Log INFO (Successfully_processed_blocks (length written)
                         total_blocks)]
    /\ Forall (fun pb => pb <> []) written
    /\ saves t
       = map (fun k => with_separators sep (firstn k written))
             (seq 1 (length written))
    /\ save_calls w' = (save_calls w + length written)%nat.
Proof.
  intros sep Hv Hsaves Hsep Hdelay.
  destruct (process_try_to_loop env self w Hv)
    as (text_blocks & t0 & _ & Hs0 & _ & _ & Htry).
  cbv zeta in Htry.
  match type of Htry with
  | _ = bind (ShAIyarProcessor.process_loop _ _ ?tb ?len _ _ _) _ ?w0 =>
      destruct (process_loop_saves env self Hsaves Hsep Hdelay tb len
                  text_blocks 0
                  ShAIyarProcessor.locals_init w0 [])
        as (new & l' & w1 & t1 & Hrun & Hl' & Hnew & Ht1 & Hsv & Hsc)
  end.
  { repeat split. }
  rewrite (bind_inr _ _ _ _ _ Hrun) in Htry.
  rewrite (bind_inr _ _ _ _ _ (log_run _ _ _)) in Htry.
  unfold ret in Htry. apply process_of_try in Htry. cbn [fst] in Htry.
  destruct Hl' as (_ & _ & Hcount). cbn [app] in Hcount.
  exists new. eexists. eexists.
  exists ((t0 ++ [Log INFO (Starting_processing_of_blocks
                              (length (filter ShAIyarProcessor.is_not_None
                                         text_blocks)))]) ++ t1).
  split; [exact Htry|].
  split.
  { cbn [trace add_events]. rewrite Ht1, Hcount. cbn [trace add_events].
    rewrite <- !app_assoc. reflexivity. }
  split; [exact Hnew|]. split.
  { rewrite !saves_app, Hs0, Hsv. reflexivity. }
  cbn [save_calls add_events]. rewrite Hsc. reflexivity.
Qed.

Lemma process_saves_after_every_block_witness :
  exists (written : list str) (total_blocks : nat) (w' : World) (t : list event),
    ShAIyarProcessor.process
      (Scenario.env_with Scenario.hello_world (Scenario.flaky_model 1))
      Scenario.processor initial_world = (inr true, w')
    /\ trace w'
       = t ++ [Log INFO (Successfully_processed_blocks (length written)
                           total_blocks)]
    /\ Forall (fun pb => pb <> []) written
    /\ saves t
       = map (fun k => with_separators ([LF] ++ lit "*********" ++ [LF])
                         (firstn k written))
             (seq 1 (length written))
    /\ save_calls w' = length written.
Proof.
  apply (process_saves_after_every_block
           (Scenario.env_with Scenario.hello_world (Scenario.flaky_model 1))
           Scenario.processor initial_world).
  - reflexivity.
  - intros n p d. reflexivity.
  - reflexivity.
  - reflexivity.
Defined.

Section AnsweringModel.

Import ShAIyarProcessor.

Variable env : Env.
Variable self : ShAIyarProcessor.t.

Abbreviation messages_for text_block :=
  (LLMInterface.create_messages (system_message self)
     (clean_text (text_processor self) text_block)).

Abbreviation the_delay :=
  (Config.delay_between_requests (Config.processing_config (config self))).

Hypothesis saves_succeed : forall n p d, docx_save env n p d = None.
Hypothesis answers : forall n ms, exists v, model_invoke env n ms = inr v.
Hypothesis delay_is_accepted : delay_accepted self.

(** A block with a model that answers: one call, no sleep. *)
Lemma _process_text_block_answered text_block block_index w :
  clean_text (text_processor self) text_block <> [] ->
  exists v t,
    _process_text_block env self text_block block_index w
    = (inr (Some v),
       {| retry_count := 0;
          model_calls := S (model_calls w);
          save_calls := save_calls w;
          trace := trace w ++ t |})
    /\ model_invokes t = [messages_for text_block]
    /\ sleeps t = [].
Proof.
  intros Hne. rewrite _process_text_block_invoke by exact Hne.
  rewrite invoke_unfold.
  match goal with
  | |- context [LLMInterface.invoke_body env ?llm ?ms ?w0] =>
      destruct (answers (model_calls w0) ms) as [v Hv];
      rewrite (invoke_body_success env llm ms w0 v Hv)
  end.
  exists v. eexists. split.
  - unfold add_events. cbn [retry_count model_calls save_calls trace].
    rewrite <- !app_assoc. reflexivity.
  - split; reflexivity.
Qed.

Lemma process_block_answered total_blocks len i text_block l w :
  clean_text (text_processor self) text_block <> [] ->
  exists l' w' t,
    process_block env self total_blocks len i text_block l w = (inr l', w')
    /\ trace w' = trace w ++ t
    /\ model_invokes t = [messages_for text_block]
    /\ sleeps t = sleeps (pacing self i len)
    /\ model_calls w' = S (model_calls w).
Proof.
  intros Hne.
  destruct (_process_text_block_answered text_block i
              (add_events w [Log INFO (Processing_block_of (i + 1) total_blocks)])
              Hne) as (v & t & Hp & Hms & Hsl).
  destruct (truthy v) eqn:Hv.
  - rewrite (process_block_saved_paused env self delay_is_accepted
               total_blocks len i text_block l w v _
               Hp Hv (saves_succeed _ _ _)).
    eexists _, _, _. split; [reflexivity|].
    cbn [trace add_events after_save model_calls]. rewrite <- !app_assoc.
    split; [reflexivity|].
    rewrite !model_invokes_app, !sleeps_app, Hms, Hsl.
    repeat split. cbn. unfold pacing. now destruct (_ <? _)%Z.
  - rewrite (process_block_nothing_paused env self delay_is_accepted
               total_blocks len i text_block l w (Some v) _ Hp Hv).
    eexists _, _, _. split; [reflexivity|].
    cbn [trace add_events model_calls]. rewrite <- !app_assoc.
    split; [reflexivity|].
    rewrite !model_invokes_app, !sleeps_app, Hms, Hsl.
    repeat split. cbn. unfold pacing. now destruct (_ <? _)%Z.
Qed.

Lemma process_loop_answered total_blocks len blocks :
  Forall (fun b => clean_text (text_processor self) b <> []) blocks ->
  forall i l w,
    exists l' w' t,
      process_loop env self total_blocks len i (map Some blocks) l w
      = (inr l', w')
      /\ trace w' = trace w ++ t
      /\ model_invokes t = map (fun b => messages_for b) blocks
      /\ sleeps t
         = flat_map (fun j => sleeps (pacing self j len)) (seq i (length blocks))
      /\ model_calls w' = (model_calls w + length blocks)%nat.
Proof.
  induction 1 as [|b blocks Hb Hbs IH]; intros i l w; cbn [map process_loop].
  - exists l, w, []. rewrite app_nil_r. repeat split. cbn. lia.
  - destruct (process_block_answered total_blocks len i b l w Hb)
      as (l1 & w1 & t1 & Hrun1 & Ht1 & Hms1 & Hsl1 & Hmc1).
    rewrite (bind_inr _ _ _ _ _ Hrun1).
    destruct (IH (S i) l1 w1) as (l' & w' & t & Hrun & Ht & Hms & Hsl & Hmc).
    exists l', w', (t1 ++ t). split; [exact Hrun|].
    split; [rewrite Ht, Ht1; now rewrite app_assoc|].
    split; [rewrite model_invokes_app, Hms1, Hms; reflexivity|].
    split; [rewrite sleeps_app, Hsl1, Hsl; reflexivity|].
    rewrite Hmc, Hmc1. cbn [length]. lia.
Qed.

(** The pauses of a loop that runs to the last block: one after every
    block but the last. *)
Lemma pacing_sleeps len k :
  forall i, (i + k = len)%nat ->
    flat_map (fun j => sleeps (pacing self j len)) (seq i k)
    = repeat the_delay (k - 1).
Proof.
  induction k as [|k IH]; intros i Hlen; [reflexivity|].
  cbn [seq flat_map]. rewrite IH by lia. unfold pacing.
  destruct k as [|k].
  - replace (Z.of_nat i <? Z.of_nat len - 1)%Z with false
      by (symmetry; apply Z.ltb_ge; lia).
    reflexivity.
  - replace (Z.of_nat i <? Z.of_nat len - 1)%Z with true
      by (symmetry; apply Z.ltb_lt; lia).
    cbn. now rewrite Nat.sub_0_r.
Qed.

End AnsweringModel.

Lemma blocks_from_clean_not_nil paragraphs :
  Forall (fun b => TextProcessor.clean_text b <> [])
         (DocxReader.blocks_from [] paragraphs).
Proof.
  pose proof (blocks_from_trimmed paragraphs []) as Ht.
  pose proof (blocks_from_not_empty [] paragraphs (or_introl eq_refl)) as Hn.
  rewrite Forall_forall in *. intros b Hb Hc.
  apply clean_text_nil_iff, strip_all_space in Hc.
  rewrite (Ht b Hb) in Hc. subst b. contradiction.
Qed.

(** X15.  With a backend that answers every call, a configuration that
    validates, saves that succeed and a delay that [time.sleep] takes, a
    run of [process] over a document sends every block of the document to the model exactly once, in the
    order of the document, as its cleaned text behind the system message,
    and sleeps the configured delay once between every two blocks and not
    after the last. *)
Theorem process_sends_every_block_once
    (env : Env) (self : ShAIyarProcessor.t) (w : World)
    (paragraphs : list str) :
  let blocks := DocxReader.blocks_from [] paragraphs in
  ShAIyarProcessor.text_processor self = ShAIyarProcessor.TextProcessor_new ->
  fst (Config.validate env (ShAIyarProcessor.config self) w) = inr true ->
  (forall n p d, docx_save env n p d = None) ->
  (forall n ms, exists v, model_invoke env n ms = inr v) ->
  ShAIyarProcessor.delay_accepted self ->
  docx_Document env
    (Config.input_docx_path
       (Config.file_config (ShAIyarProcessor.config self)))
  = inr paragraphs ->
  exists w' t,
    ShAIyarProcessor.process env self w = (inr true, w')
    /\ trace w' = trace w ++ t
    /\ model_invokes t
       = map (fun b =>
                [SystemMessage (ShAIyarProcessor.system_message self);
                 HumanMessage (TextProcessor.clean_text b)]) blocks
    /\ sleeps t
       = repeat (Config.delay_between_requests
                   (Config.processing_config (ShAIyarProcessor.config self)))
                (length blocks - 1)
    /\ model_calls w' = (model_calls w + length blocks)%nat.
Proof.
  intros blocks Htp Hv Hsaves Hanswers Hdelay Hdoc.
  destruct (process_try_to_loop env self w Hv)
    as (text_blocks & t0 & Hread & _ & Hm0 & Hs0 & Htry).
  unfold DocxReader.read_docx_text_blocks in Hread. rewrite Hdoc in Hread.
  injection Hread as <- Hw0. fold blocks in Htry.
  cbv zeta in Htry.
  match type of Htry with
  | _ = bind (ShAIyarProcessor.process_loop _ _ ?tb ?len _ _ _) _ ?w0 =>
      destruct (process_loop_answered env self Hsaves Hanswers Hdelay tb len
                  blocks)
        with (i := 0%nat) (l := ShAIyarProcessor.locals_init) (w := w0)
        as (l' & w1 & t1 & Hrun & Ht1 & Hms & Hsl & Hmc)
  end.
  { rewrite Htp. apply blocks_from_clean_not_nil. }
  rewrite (bind_inr _ _ _ _ _ Hrun) in Htry.
  rewrite (bind_inr _ _ _ _ _ (log_run _ _ _)) in Htry.
  unfold ret in Htry. apply process_of_try in Htry. cbn [fst] in Htry.
  eexists. eexists. split; [exact Htry|].
  cbn [trace add_events model_calls]. rewrite Ht1. cbn [trace add_events].
  rewrite <- !app_assoc. split; [reflexivity|].
  rewrite !model_invokes_app, !sleeps_app, Hm0, Hs0, Hms, Hsl.
  rewrite length_map, (pacing_sleeps self (length blocks) (length blocks) 0)
    by lia.
  rewrite Htp. cbn [app model_invokes sleeps flat_map].
  rewrite !app_nil_r. repeat split. rewrite Hmc. reflexivity.
Qed.

Lemma process_sends_every_block_once_witness :
  exists w' t,
    ShAIyarProcessor.process
      (Scenario.env_with Scenario.hello_world Scenario.uppercasing_model)
      Scenario.processor initial_world = (inr true, w')
    /\ trace w' = t
    /\ model_invokes t
       = [[SystemMessage (lit "Translate the verse."); HumanMessage (lit "Hello")];
          [SystemMessage (lit "Translate the verse."); HumanMessage (lit "World")]]
    /\ sleeps t = [FloatSeconds 1]
    /\ model_calls w' = 2%nat.
Proof.
  apply (process_sends_every_block_once
           (Scenario.env_with Scenario.hello_world Scenario.uppercasing_model)
           Scenario.processor initial_world Scenario.hello_world).
  - reflexivity.
  - reflexivity.
  - intros n p d. reflexivity.
  - intros n ms. eexists. reflexivity.
  - reflexivity.
  - reflexivity.
Defined.

Section RejectedDelay.

Import ShAIyarProcessor.

Variable env : Env.
Variable self : ShAIyarProcessor.t.
Variable e : exn.

Hypothesis delay_rejected :
  sleep_error (Config.delay_between_requests
                 (Config.processing_config (config self))) = Some e.

(** A block that another entry follows: its step raises, the save's
    exception or the one of the pause. *)
Lemma process_block_stops total_blocks len i text_block l w :
  (i + 2 <= len)%nat ->
  exists e' w',
    process_block env self total_blocks len i text_block l w = (inl e', w')
    /\ (save_calls w' <= save_calls w + 1)%nat
    /\ ((forall n p d, docx_save env n p d = None) -> e' = e).
Proof.
  intros Hlen.
  assert (pause_error self i len = Some e) as Hpause.
  { unfold pause_error.
    replace (Z.of_nat i <? Z.of_nat len - 1)%Z with true
      by (symmetry; apply Z.ltb_lt; lia).
    exact delay_rejected. }
  destruct (_process_text_block_saves_nothing env self text_block i
              (add_events w [Log INFO (Processing_block_of (i + 1) total_blocks)]))
    as (r & w1 & t1 & Hp & _ & _ & Hsc).
  cbn [save_calls add_events] in Hsc.
  destruct (truthy_opt r) eqn:Hr.
  - destruct r as [pb|]; [|discriminate]. cbn [truthy_opt] in Hr.
    destruct (docx_save env (save_calls w1)
                (Config.output_docx_path (Config.file_config (config self)))
                (add_paragraphs
                   (Config.separator (Config.file_config (config self))) l pb))
      as [e'|] eqn:Hsave.
    + rewrite (process_block_save_raises env self total_blocks len i text_block
                 l w pb w1 e' Hp Hr Hsave).
      eexists _, _. split; [reflexivity|]. split.
      * cbn [save_calls after_save]. lia.
      * intros Hsaves. rewrite Hsaves in Hsave. discriminate.
    + rewrite (process_block_saved env self total_blocks len i text_block
                 l w pb w1 Hp Hr Hsave), Hpause.
      eexists _, _. split; [reflexivity|]. split; [|reflexivity].
      cbn [save_calls add_events after_save]. lia.
  - rewrite (process_block_nothing env self total_blocks len i text_block
               l w r w1 Hp Hr), Hpause.
    eexists _, _. split; [reflexivity|]. split; [lia | reflexivity].
Qed.

End RejectedDelay.

(** X21.  A delay that [time.sleep] rejects, as it does a negative one,
    ends the run at the first pause: when the configuration validates
    and the document has two blocks or more, [process] returns [False]
    after at most one save, and the last record it logs is the error,
    which is the exception of [time.sleep] when no save raises. *)
Theorem process_stops_at_rejected_delay
    (env : Env) (self : ShAIyarProcessor.t) (w : World)
    (paragraphs : list str) (e : exn) :
  fst (Config.validate env (ShAIyarProcessor.config self) w) = inr true ->
  sleep_error (Config.delay_between_requests
                 (Config.processing_config (ShAIyarProcessor.config self)))
  = Some e ->
  docx_Document env
    (Config.input_docx_path
       (Config.file_config (ShAIyarProcessor.config self)))
  = inr paragraphs ->
  (2 <= length (DocxReader.blocks_from [] paragraphs))%nat ->
  exists e' w',
    ShAIyarProcessor.process env self w
    = (inr false, add_events w' [Log ERROR (Error_processing_document e')])
    /\ (save_calls w' <= save_calls w + 1)%nat
    /\ ((forall n p d, docx_save env n p d = None) -> e' = e).
Proof.
  intros Hv Hdelay Hdoc Hlen.
  destruct (process_try_to_loop env self w Hv)
    as (text_blocks & t0 & Hread & _ & _ & _ & Htry).
  unfold DocxReader.read_docx_text_blocks in Hread. rewrite Hdoc in Hread.
  injection Hread as <- Hw0. cbv zeta in Htry.
  destruct (DocxReader.blocks_from [] paragraphs) as [|b [|b' blocks]];
    cbn [length] in Hlen; try lia.
  cbn [map ShAIyarProcessor.process_loop] in Htry.
  match type of Htry with
  | _ = bind (bind (ShAIyarProcessor.process_block _ _ ?tb ?len _ _ ?l) _) _ ?w0 =>
      destruct (process_block_stops env self e Hdelay tb len 0 b l w0)
        as (e' & w' & Hrun & Hsc & He')
  end.
  { cbn [length]. lia. }
  rewrite (bind_inl _ _ _ _ _ (bind_inl _ _ _ _ _ Hrun)) in Htry.
  exists e', w'. split.
  - unfold ShAIyarProcessor.process, try_except.
    rewrite (bind_inl _ _ _ _ _ Htry).
    rewrite (bind_inr _ _ _ _ _ (log_run _ _ _)). reflexivity.
  - split; [|exact He']. cbn [save_calls add_events] in Hsc. exact Hsc.
Qed.

Lemma process_stops_at_rejected_delay_witness :
  exists e' w',
    ShAIyarProcessor.process
      (Scenario.env_with Scenario.hello_world Scenario.uppercasing_model)
      (Scenario.processor_with_delay (IntSeconds (-1))) initial_world
    = (inr false, add_events w' [Log ERROR (Error_processing_document e')])
    /\ (save_calls w' <= 1)%nat
    /\ ((forall n p d,
           docx_save
             (Scenario.env_with Scenario.hello_world Scenario.uppercasing_model)
             n p d = None) ->
        e' = ValueError (lit "sleep length must be non-negative")).
Proof.
  apply (process_stops_at_rejected_delay
           (Scenario.env_with Scenario.hello_world Scenario.uppercasing_model)
           (Scenario.processor_with_delay (IntSeconds (-1))) initial_world
           Scenario.hello_world
           (ValueError (lit "sleep length must be non-negative"))).
  - reflexivity.
  - reflexivity.
  - reflexivity.
  - vm_compute. lia.
Defined.

Section CostFacts.

Variable B : nat.

Lemma costs_ret {A} (a : A) : costs B 0 (ret a).
Proof. intros w H. cbn. split; [exact H | lia]. Qed.

Lemma costs_raise {A} (e : exn) : costs B 0 (@raise A e).
Proof. intros w H. cbn. split; [exact H | lia]. Qed.

Lemma costs_weaken {A} j k (m : M A) :
  (j <= k)%nat -> costs B j m -> costs B k m.
Proof. intros Hjk Hm w H. destruct (Hm w H). split; [assumption | nia]. Qed.

Lemma costs_bind {A C} j k (m : M A) (f : A -> M C) :
  costs B j m -> (forall a, costs B k (f a)) -> costs B (j + k) (bind m f).
Proof.
  intros Hm Hf w H. unfold bind. destruct (Hm w H) as [Hrc Hmc].
  destruct (m w) as [[e|a] w1]; cbn [snd] in *.
  - split; [assumption | nia].
  - destruct (Hf a w1 Hrc). split; [assumption | nia].
Qed.

Lemma costs_try_except {A} j k (m : M A) (h : exn -> M A) :
  costs B j m -> (forall e, costs B k (h e)) ->
  costs B (j + k) (try_except m h).
Proof.
  intros Hm Hh w H. unfold try_except. destruct (Hm w H) as [Hrc Hmc].
  destruct (m w) as [[e|a] w1]; cbn [snd] in *.
  - destruct (Hh e w1 Hrc). split; [assumption | nia].
  - split; [assumption | nia].
Qed.

Lemma costs_bind_known {A C} k (m : M A) (f : A -> M C) a :
  (forall w, exists t, m w = (inr a, add_events w t)) ->
  costs B k (f a) -> costs B k (bind m f).
Proof.
  intros Hm Hf w H. destruct (Hm w) as [t E].
  rewrite (bind_inr _ _ _ _ _ E). apply (Hf (add_events w t) H).
Qed.

Lemma costs_emit ev : costs B 0 (emit ev).
Proof. intros w H. cbn. split; [exact H | lia]. Qed.

Lemma costs_time_sleep s : costs B 0 (time_sleep s).
Proof.
  unfold time_sleep. destruct (sleep_error s);
    [apply costs_raise | apply costs_emit].
Qed.

Lemma costs_log_then {A} k lv msg (m : M A) :
  costs B k m -> costs B k (log lv msg;; m).
Proof. intros Hm. apply (costs_bind 0 k); [apply costs_emit | intros _; exact Hm]. Qed.

Lemma costs_if {A} k (c : bool) (m1 m2 : M A) :
  costs B k m1 -> costs B k m2 -> costs B k (if c then m1 else m2).
Proof. now destruct c. Qed.

Lemma costs_validate env config : costs B 0 (Config.validate env config).
Proof.
  unfold Config.validate.
  repeat apply costs_if; (apply costs_raise || apply costs_ret).
Qed.

Lemma costs_save env path doc : costs B 0 (ShAIyarProcessor.save env path doc).
Proof.
  intros w H. unfold ShAIyarProcessor.save.
  destruct (docx_save env (save_calls w) path doc); cbn; split; auto; lia.
Qed.

Lemma costs_read env file_path :
  costs B 0 (DocxReader.read_docx_text_blocks env file_path).
Proof.
  unfold DocxReader.read_docx_text_blocks.
  destruct (docx_Document env file_path) as [e|ps]; [destruct e|];
    repeat first [apply costs_ret | apply costs_log_then].
Qed.

End CostFacts.

Section CostOfProcess.

Import ShAIyarProcessor.

Variable env : Env.
Variable self : ShAIyarProcessor.t.

Abbreviation attempts :=
  (Z.to_nat (LLMInterface.max_retries (llm_interface self)) + 1)%nat.

Lemma costs_invoke messages :
  costs attempts 1 (LLMInterface.invoke env (llm_interface self) messages).
Proof.
  intros w H.
  destruct (invoke_shape env (llm_interface self) messages w)
    as (n & t & Hn & _ & _ & _ & _ & Hmc & _ & _ & Hrc & _).
  split; [exact Hrc|]. rewrite Hmc. rewrite H, Z.sub_0_r in Hn. lia.
Qed.

Lemma costs_process_text_block text_block block_index :
  costs attempts 1 (_process_text_block env self text_block block_index).
Proof.
  unfold _process_text_block.
  apply (costs_try_except attempts 1 0); [|intros e].
  - apply costs_if.
    + apply (costs_weaken attempts 0 1); [lia|].
      apply costs_log_then, costs_ret.
    + apply costs_log_then.
      apply (costs_bind attempts 1 0); [apply costs_invoke | intros result].
      apply costs_log_then, costs_ret.
  - apply costs_log_then, costs_ret.
Qed.

Lemma costs_process_block total_blocks len i text_block l :
  costs attempts 1 (process_block env self total_blocks len i text_block l).
Proof.
  unfold process_block. apply costs_log_then.
  apply (costs_bind attempts 1 0); [apply costs_process_text_block | intros r].
  apply (costs_bind attempts 0 0); [|intros l'].
  - destruct r as [pb|]; [|apply costs_ret].
    apply costs_if; [|apply costs_ret].
    apply (costs_bind attempts 0 0); [apply costs_save | intros _].
    apply costs_log_then, costs_ret.
  - apply (costs_bind attempts 0 0); [|intros _; apply costs_ret].
    apply costs_if; [apply costs_time_sleep | apply costs_ret].
Qed.

Lemma costs_process_loop total_blocks len text_blocks :
  forall i l,
    costs attempts (length (filter is_not_None text_blocks))
      (process_loop env self total_blocks len i text_blocks l).
Proof.
  induction text_blocks as [|[text_block|] rest IH]; intros i l;
    cbn [process_loop filter is_not_None length].
  - apply costs_ret.
  - apply (costs_bind attempts 1); [apply costs_process_block | intros l'].
    apply IH.
  - apply IH.
Qed.

Lemma read_yielded file_path w :
  exists t,
    DocxReader.read_docx_text_blocks env file_path w
    = (inr (DocxReader.yielded env file_path), add_events w t).
Proof.
  unfold DocxReader.read_docx_text_blocks, DocxReader.yielded.
  destruct (docx_Document env file_path) as [e|ps]; [destruct e|];
    try (eexists [_]; reflexivity).
  exists []. unfold ret. now rewrite add_events_nil.
Qed.

Lemma costs_process :
  costs attempts
    (length (filter is_not_None
               (DocxReader.yielded env
                  (Config.input_docx_path (Config.file_config (config self))))))
    (process env self).
Proof.
  set (k := length _).
  unfold process.
  replace k with (k + 0)%nat by lia.
  apply costs_try_except; [|intros e; apply costs_log_then, costs_ret].
  replace k with (k + 0)%nat by lia.
  apply costs_bind; [|intros r; apply costs_ret].
  unfold process_try.
  apply (costs_bind attempts 0 k); [apply costs_validate | intros _].
  eapply costs_bind_known; [apply read_yielded|].
  apply costs_log_then.
  replace k with (k + 0)%nat by lia.
  apply costs_bind; [apply costs_process_loop | intros l].
  apply costs_log_then, costs_ret.
Qed.

End CostOfProcess.

(** X16.  From a world whose retry counter is 0, as the construction of
    the interface leaves it, a run of [process] calls the model at most
    [max_retries + 1] times for each block that the reader yields,
    whatever the backend and the disk do, and it ends with the retry
    counter at 0. *)
Theorem process_model_calls_bounded
    (env : Env) (self : ShAIyarProcessor.t) (w : World) :
  let text_blocks :=
    DocxReader.yielded env
      (Config.input_docx_path
         (Config.file_config (ShAIyarProcessor.config self))) in
  let total_blocks :=
    length (filter ShAIyarProcessor.is_not_None text_blocks) in
  let max_retries :=
    LLMInterface.max_retries (ShAIyarProcessor.llm_interface self) in
  retry_count w = 0%Z ->
  fst (DocxReader.read_docx_text_blocks env
         (Config.input_docx_path
            (Config.file_config (ShAIyarProcessor.config self))) w)
  = inr text_blocks
  /\ retry_count (snd (ShAIyarProcessor.process env self w)) = 0%Z
  /\ (model_calls (snd (ShAIyarProcessor.process env self w))
      <= model_calls w + total_blocks * (Z.to_nat max_retries + 1))%nat.
Proof.
  intros text_blocks total_blocks max_retries Hrc. split.
  - destruct (read_yielded env
                (Config.input_docx_path
                   (Config.file_config (ShAIyarProcessor.config self))) w)
      as [t ->]. reflexivity.
  - apply (costs_process env self w Hrc).
Qed.

Lemma process_model_calls_bounded_witness :
  (model_calls
     (snd (ShAIyarProcessor.process
             (Scenario.env_with Scenario.hello_world Scenario.failing_model)
             Scenario.processor initial_world))
   <= 0 + 2 * (3 + 1))%nat.
Proof.
  apply (process_model_calls_bounded
           (Scenario.env_with Scenario.hello_world Scenario.failing_model)
           Scenario.processor initial_world).
  reflexivity.
Defined.

(* ===================================================================== *)
(** * The output writer                                                   *)
(* ===================================================================== *)

Section WriterFacts.

Import OutputWriter.

Variable disk : Disk.

Lemma docx_loop_all_blocks (separator : str) (content_blocks : list str) :
  Forall (fun b => b <> []) content_blocks ->
  forall len i, (i + length content_blocks = len)%nat ->
    docx_loop len i content_blocks separator
    = with_separators separator content_blocks.
Proof.
  induction 1 as [|b rest Hb Hrest IH]; intros len i Hlen; [reflexivity|].
  cbn [docx_loop length] in *. destruct b as [|c b]; [congruence|].
  cbn [truthy]. rewrite (IH len (S i)) by lia.
  destruct rest as [|b' rest].
  - replace (Z.of_nat i <? Z.of_nat len - 1)%Z with false
      by (symmetry; apply Z.ltb_ge; cbn in Hlen; lia).
    reflexivity.
  - replace (Z.of_nat i <? Z.of_nat len - 1)%Z with true
      by (symmetry; apply Z.ltb_lt; cbn in Hlen; lia).
    reflexivity.
Qed.


Lemma concat_with_separators separator blocks :
  concat (with_separators separator blocks) = join separator blocks.
Proof.
  induction blocks as [|b rest IH]; [reflexivity|].
  destruct rest as [|b' rest]; [cbn; now rewrite app_nil_r|].
  cbn [with_separators concat] in *. rewrite IH. reflexivity.
Qed.

Hypothesis disk_sound : sound disk.

Lemma written_app t1 t2 : written (t1 ++ t2) = written t1 ++ written t2.
Proof. apply flat_map_app. Qed.

Lemma written_Write data t : written (Write data :: t) = data ++ written t.
Proof. reflexivity. Qed.

Lemma saved_Write data t : saved (Write data :: t) = saved t.
Proof. reflexivity. Qed.

(** On a sound disk the text loop writes what the document loop adds. *)
Lemma text_loop_writes separator content_blocks :
  forall len i n,
    exists n' t,
      text_loop disk len i n content_blocks separator = (inr n', t)
      /\ written t = concat (docx_loop len i content_blocks separator)
      /\ saved t = [].
Proof.
  destruct disk_sound as (_ & _ & _ & Hwrite).
  induction content_blocks as [|b rest IH]; intros len i n.
  - exists n, []. repeat split.
  - cbn [text_loop docx_loop]. destruct (truthy b).
    + unfold attempt. rewrite Hwrite.
      destruct (Z.of_nat i <? Z.of_nat len - 1)%Z.
      * rewrite Hwrite. cbn [wbind wret app].
        destruct (IH len (S i) (S (S n))) as (n' & t & -> & Hw & Hs).
        eexists _, _. split; [reflexivity|].
        rewrite !written_Write, !saved_Write, Hw, Hs.
        cbn [concat app]. rewrite <- ?app_assoc. split; reflexivity.
      * cbn [wbind wret app].
        destruct (IH len (S i) (S n)) as (n' & t & -> & Hw & Hs).
        eexists _, _. split; [reflexivity|].
        rewrite !written_Write, !saved_Write, Hw, Hs.
        cbn [concat app]. split; reflexivity.
    + cbn [wbind wret app].
      destruct (IH len (S i) n) as (n' & t & -> & Hw & Hs).
      eexists _, _. split; [reflexivity|]. auto.
Qed.

End WriterFacts.



(** X18.  On a disk on which nothing raises, [write_to_text] returns
    [True] and writes, in order, the strings that [write_to_docx] adds as
    paragraphs for the same blocks: when no block is empty, the file holds
    the blocks joined by the separator. *)
Theorem write_to_text_joins
    (disk : OutputWriter.Disk) (output_path separator : str)
    (content_blocks : list str) :
  OutputWriter.sound disk ->
  exists t,
    OutputWriter.write_to_text disk output_path content_blocks separator
    = (inr true, t)
    /\ OutputWriter.written t
       = concat (OutputWriter.docx_loop (length content_blocks) 0
                   content_blocks separator)
    /\ (Forall (fun b => b <> []) content_blocks ->
        OutputWriter.written t = join separator content_blocks).
Proof.
  intros Hsound. pose proof Hsound as (Hmkdir & _ & Hopen & _).
  unfold OutputWriter.write_to_text, OutputWriter.attempt.
  rewrite Hmkdir, Hopen.
  destruct (text_loop_writes disk Hsound separator content_blocks
              (length content_blocks) 0 0)%nat as (n' & t & Hrun & Hw & _).
  cbn [OutputWriter.wbind OutputWriter.wtry OutputWriter.wret
       OutputWriter.wlog app].
  rewrite Hrun. cbn [OutputWriter.wbind OutputWriter.wtry OutputWriter.wret
                     OutputWriter.wlog app].
  eexists. split; [reflexivity|].
  assert (OutputWriter.written
            (OutputWriter.Mkdir output_path :: OutputWriter.Open output_path
             :: t ++ [OutputWriter.Log INFO
                        (OutputWriter.Successfully_wrote_blocks
                           (length content_blocks) output_path)])
          = concat (OutputWriter.docx_loop (length content_blocks) 0
                      content_blocks separator)) as E.
  { change (OutputWriter.Mkdir output_path :: OutputWriter.Open output_path
            :: t ++ ?l)
      with ([OutputWriter.Mkdir output_path; OutputWriter.Open output_path]
            ++ t ++ l).
    rewrite !written_app, Hw. cbn. now rewrite app_nil_r. }
  split; [exact E|].
  intros Hblocks. rewrite E.
  rewrite (docx_loop_all_blocks separator content_blocks Hblocks
             (length content_blocks) 0 eq_refl).
  apply concat_with_separators.
Qed.

Lemma write_to_text_joins_witness :
  exists t,
    OutputWriter.write_to_text (Scenario.disk_with None) (lit "out.txt")
      [lit "a"; lit "b"] (lit "--") = (inr true, t)
    /\ OutputWriter.written t = lit "a--b".
Proof.
  destruct (write_to_text_joins (Scenario.disk_with None) (lit "out.txt")
              (lit "--") [lit "a"; lit "b"] ltac:(repeat split))
    as (t & Hrun & _ & Hjoin).
  exists t. split; [exact Hrun|].
  apply Hjoin. repeat constructor; discriminate.
Defined.

(** X19.  On a disk on which nothing raises, [append_to_docx] keeps a
    document in the form blocks-with-separators: to a file that does not
    exist, or whose document has no paragraph, it saves the block alone;
    to a document that holds blocks with the separator between every two
    of them it saves the document of those blocks and the new one, also
    when the new block is empty. *)
Theorem append_to_docx_extends
    (disk : OutputWriter.Disk) (output_path separator content_block : str)
    (blocks : list str) :
  OutputWriter.sound disk ->
  (OutputWriter.path_exists disk output_path = false
   \/ OutputWriter.Document disk output_path = inr [] ->
   OutputWriter.append_to_docx disk output_path content_block separator
   = (inr true,
      [OutputWriter.Mkdir output_path;
       OutputWriter.Save output_path [content_block]]))
  /\ (OutputWriter.path_exists disk output_path = true ->
      OutputWriter.Document disk output_path
      = inr (with_separators separator blocks) ->
      OutputWriter.append_to_docx disk output_path content_block separator
      = (inr true,
         [OutputWriter.Mkdir output_path;
          OutputWriter.Save output_path
            (with_separators separator (blocks ++ [content_block]))])).
Proof.
  intros (Hmkdir & Hsave & _).
  unfold OutputWriter.append_to_docx, OutputWriter.attempt. split.
  - intros [Hmissing|Hempty].
    + rewrite Hmissing. cbn. now rewrite Hmkdir, Hsave.
    + rewrite Hempty. destruct (OutputWriter.path_exists disk output_path);
        cbn; now rewrite Hmkdir, Hsave.
  - intros Hexists Hdoc. rewrite Hexists, Hdoc.
    cbn [OutputWriter.wbind OutputWriter.wret OutputWriter.wtry].
    rewrite Hmkdir, Hsave. cbn. do 3 f_equal. unfold OutputWriter.appended.
    destruct blocks as [|b blocks]; [reflexivity|].
    rewrite with_separators_snoc by discriminate.
    replace (truthy_list (with_separators separator (b :: blocks))) with true
      by (destruct blocks; reflexivity).
    now rewrite <- app_assoc.
Qed.

Lemma append_to_docx_extends_witness :
  OutputWriter.append_to_docx
    (Scenario.disk_with (Some [lit "a"; lit "*"; lit "b"])) (lit "out.docx")
    (lit "c") (lit "*")
  = (inr true,
     [OutputWriter.Mkdir (lit "out.docx");
      OutputWriter.Save (lit "out.docx")
        [lit "a"; lit "*"; lit "b"; lit "*"; lit "c"]]).
Proof.
  apply (proj2 (append_to_docx_extends
                  (Scenario.disk_with (Some [lit "a"; lit "*"; lit "b"]))
                  (lit "out.docx") (lit "*") (lit "c") [lit "a"; lit "b"]
                  ltac:(repeat split))); reflexivity.
Defined.

Section WriterFailures.

Import OutputWriter.

Variable disk : Disk.

(** Whatever the disk does, the text loop saves no document, and when it
    ends it has written what the document loop adds. *)
Lemma text_loop_run separator content_blocks :
  forall len i n,
    saved (snd (text_loop disk len i n content_blocks separator)) = []
    /\ forall n',
         fst (text_loop disk len i n content_blocks separator) = inr n' ->
         written (snd (text_loop disk len i n content_blocks separator))
         = concat (docx_loop len i content_blocks separator).
Proof.
  induction content_blocks as [|b rest IH]; intros len i n.
  - split; reflexivity.
  - cbn [text_loop docx_loop]. destruct (truthy b).
    + unfold attempt. destruct (write disk n b) as [e|].
      { split; [reflexivity|discriminate]. }
      destruct (Z.of_nat i <? Z.of_nat len - 1)%Z.
      * destruct (write disk (S n) separator) as [e|].
        { split; [reflexivity|discriminate]. }
        cbn [wbind wret app].
        destruct (IH len (S i) (S (S n))) as (Hs & Hw).
        destruct (text_loop disk len (S i) (S (S n)) rest separator)
          as [[e|m] t]; cbn [fst snd] in *.
        { split; [exact Hs|discriminate]. }
        split; [exact Hs|]. intros n' _.
        rewrite !written_Write, (Hw m eq_refl).
        cbn [concat app]. rewrite <- ?app_assoc. reflexivity.
      * cbn [wbind wret app].
        destruct (IH len (S i) (S n)) as (Hs & Hw).
        destruct (text_loop disk len (S i) (S n) rest separator)
          as [[e|m] t]; cbn [fst snd] in *.
        { split; [exact Hs|discriminate]. }
        split; [exact Hs|]. intros n' _.
        rewrite !written_Write, (Hw m eq_refl). reflexivity.
    + cbn [wbind wret app].
      destruct (IH len (S i) n) as (Hs & Hw).
      destruct (text_loop disk len (S i) n rest separator)
        as [[e|m] t]; cbn [fst snd] in *.
      { split; [exact Hs|discriminate]. }
      split; [exact Hs|]. intros n' _. exact (Hw m eq_refl).
Qed.

End WriterFailures.

(** X20.  Whatever the disk does, no function of the writer raises: each
    returns a boolean.  [write_to_docx] and [append_to_docx] return [True]
    after saving exactly one document, and [False] after saving none and
    logging the error last.  [write_to_text] never saves a document; when
    it returns [True] the file holds the strings [write_to_docx] adds as
    paragraphs, and when it returns [False] the error is logged last. *)
Theorem writer_reports_failure
    (disk : OutputWriter.Disk) (output_path separator content_block : str)
    (content_blocks : list str) :
  (exists b t,
     OutputWriter.write_to_docx disk output_path content_blocks separator
     = (inr b, t)
     /\ if b then exists paragraphs, OutputWriter.saved t = [paragraphs]
        else OutputWriter.saved t = []
             /\ OutputWriter.reports OutputWriter.Error_writing_to_DOCX_file t)
  /\ (exists b t,
        OutputWriter.append_to_docx disk output_path content_block separator
        = (inr b, t)
        /\ if b then exists paragraphs, OutputWriter.saved t = [paragraphs]
           else OutputWriter.saved t = []
                /\ OutputWriter.reports
                     OutputWriter.Error_appending_to_DOCX_file t)
  /\ (exists b t,
        OutputWriter.write_to_text disk output_path content_blocks separator
        = (inr b, t)
        /\ OutputWriter.saved t = []
        /\ if b
           then OutputWriter.written t
                = concat (OutputWriter.docx_loop (length content_blocks) 0
                            content_blocks separator)
           else OutputWriter.reports OutputWriter.Error_writing_to_text_file
                  t).
Proof.
  split; [|split].
  - unfold OutputWriter.write_to_docx, OutputWriter.attempt.
    destruct (OutputWriter.mkdir disk output_path) as [e|].
    { exists false. eexists. split; [reflexivity|].
      split; [reflexivity|]. exists e, []. split; reflexivity. }
    destruct (OutputWriter.save disk output_path _) as [e|].
    { exists false. eexists. split; [reflexivity|].
      split; [reflexivity|].
      exists e, [OutputWriter.Mkdir output_path]. split; reflexivity. }
    exists true. eexists. split; [reflexivity|]. eexists. reflexivity.
  - unfold OutputWriter.append_to_docx, OutputWriter.attempt.
    assert (forall paragraphs,
              exists b t,
                OutputWriter.wtry
                  (OutputWriter.wbind (OutputWriter.wret paragraphs)
                     (fun paragraphs =>
                        let output_doc :=
                          OutputWriter.appended paragraphs content_block
                            separator in
                        OutputWriter.wbind
                          match OutputWriter.mkdir disk output_path with
                          | Some e => OutputWriter.wraise e
                          | None => (inr tt, [OutputWriter.Mkdir output_path])
                          end
                          (fun _ =>
                             OutputWriter.wbind
                               match OutputWriter.save disk output_path
                                       output_doc with
                               | Some e => OutputWriter.wraise e
                               | None =>
                                   (inr tt,
                                    [OutputWriter.Save output_path output_doc])
                               end
                               (fun _ => OutputWriter.wret true))))
                  (fun e =>
                     OutputWriter.wbind
                       (OutputWriter.wlog ERROR
                          (OutputWriter.Error_appending_to_DOCX_file e))
                       (fun _ => OutputWriter.wret false))
                = (inr b, t)
                /\ if b
                   then exists ps, OutputWriter.saved t = [ps]
                   else OutputWriter.saved t = []
                        /\ OutputWriter.reports
                             OutputWriter.Error_appending_to_DOCX_file t)
      as Hfrom.
    { intros paragraphs. cbn [OutputWriter.wbind OutputWriter.wret].
      cbv zeta. destruct (OutputWriter.mkdir disk output_path) as [e|].
      { exists false. eexists. split; [reflexivity|].
        split; [reflexivity|]. exists e, []. split; reflexivity. }
      destruct (OutputWriter.save disk output_path _) as [e|].
      { exists false. eexists. split; [reflexivity|].
        split; [reflexivity|].
        exists e, [OutputWriter.Mkdir output_path]. split; reflexivity. }
      exists true. eexists. split; [reflexivity|]. eexists. reflexivity. }
    destruct (OutputWriter.path_exists disk output_path); [|apply Hfrom].
    destruct (OutputWriter.Document disk output_path) as [e|paragraphs];
      [|apply Hfrom].
    exists false. eexists. split; [reflexivity|].
    split; [reflexivity|]. exists e, []. split; reflexivity.
  - unfold OutputWriter.write_to_text, OutputWriter.attempt.
    destruct (OutputWriter.mkdir disk output_path) as [e|].
    { exists false. eexists. split; [reflexivity|].
      split; [reflexivity|]. exists e, []. split; reflexivity. }
    destruct (OutputWriter.open_w disk output_path) as [e|].
    { exists false. eexists. split; [reflexivity|].
      split; [reflexivity|].
      exists e, [OutputWriter.Mkdir output_path]. split; reflexivity. }
    destruct (text_loop_run disk separator content_blocks
                (length content_blocks) 0 0)%nat as (Hs & Hw).
    destruct (OutputWriter.text_loop disk (length content_blocks) 0 0
                content_blocks separator) as [[e|m] t]; cbn [fst snd] in *.
    + exists false. eexists. split; [reflexivity|].
      cbn [app]. split.
      * change (OutputWriter.saved (t ++ [OutputWriter.Log ERROR
                  (OutputWriter.Error_writing_to_text_file e)]) = []).
        unfold OutputWriter.saved in *. rewrite flat_map_app, Hs. reflexivity.
      * exists e, (OutputWriter.Mkdir output_path
                   :: OutputWriter.Open output_path :: t).
        split; [reflexivity|exact Hs].
    + exists true. eexists. split; [reflexivity|].
      cbn [app]. split.
      * change (OutputWriter.saved (t ++ [OutputWriter.Log INFO
                  (OutputWriter.Successfully_wrote_blocks
                     (length content_blocks) output_path)]) = []).
        unfold OutputWriter.saved in *. rewrite flat_map_app, Hs. reflexivity.
      * change (OutputWriter.written (t ++ [OutputWriter.Log INFO
                  (OutputWriter.Successfully_wrote_blocks
                     (length content_blocks) output_path)])
                = concat (OutputWriter.docx_loop (length content_blocks) 0
                            content_blocks separator)).
        rewrite written_app, (Hw m eq_refl). cbn. now rewrite app_nil_r.
Qed.
